(** * agentic_demo_ritu: output normaliser, structured projection, salvage
      and retry logic

    Shallow embedding of the text-processing core of
    [agents/langchain_gemini_agent.py], [demo.py] and [agents/agent.py].

    A Python [str] is a sequence of Unicode code points, so it is modelled
    as a list of code points ([N]).  The built-in string methods the
    sources call ([strip], [splitlines], [startswith], [replace], [split],
    [join], slicing) are written out with the behaviour CPython gives them. *)

From Stdlib Require Import String Ascii List NArith ZArith Bool Lia.
Import ListNotations.

Set Implicit Arguments.

(** ** Code points and literals *)

Definition char := N.
Definition str := list char.

(** Decoding of a UTF-8 byte sequence; it is only used to read the string
    literals of the Python sources (which are UTF-8 files). *)
Fixpoint utf8_decode (bs : list N) : str :=
  match bs with
  | [] => []
  | b :: r =>
      if (b <? 128)%N then b :: utf8_decode r
      else if (b <? 224)%N then
        match r with
        | b1 :: r' => ((b - 192) * 64 + (b1 - 128))%N :: utf8_decode r'
        | _ => []
        end
      else if (b <? 240)%N then
        match r with
        | b1 :: b2 :: r' =>
            ((b - 224) * 4096 + (b1 - 128) * 64 + (b2 - 128))%N :: utf8_decode r'
        | _ => []
        end
      else
        match r with
        | b1 :: b2 :: b3 :: r' =>
            ((b - 240) * 262144 + (b1 - 128) * 4096 + (b2 - 128) * 64 + (b3 - 128))%N
              :: utf8_decode r'
        | _ => []
        end
  end.

(** The escapes the sources' literals use: backslash followed by n, r or t. *)
Fixpoint unescape (s : str) : str :=
  match s with
  | [] => []
  | c :: s' =>
      match s' with
      | e :: s'' =>
          if (c =? 92)%N then
            if (e =? 110)%N then 10%N :: unescape s''
            else if (e =? 114)%N then 13%N :: unescape s''
            else if (e =? 116)%N then 9%N :: unescape s''
            else c :: unescape s'
          else c :: unescape s'
      | [] => [c]
      end
  end.

(** [lit "..."] reads a literal the way the Python sources write it. *)
Definition lit (s : string) : str :=
  unescape (utf8_decode (map N_of_ascii (list_ascii_of_string s))).
Arguments lit s%_string.

Definition LF : char := 10%N.
Definition CR : char := 13%N.
Definition SPACE : char := 32%N.
Definition HYPHEN : char := 45%N.
Definition DOLLAR : char := 36%N.
Definition COMMA : char := 44%N.
Definition DOT : char := 46%N.
Definition APOSTROPHE : char := 39%N.
Definition EN_DASH : char := 8211%N.
Definition CURLY_APOSTROPHE : char := 8217%N.

(** ** Python string built-ins *)

Module PyStr.

(** [Py_UNICODE_ISSPACE]: the characters [str.strip()] removes and the
    class [\s] of a [str] pattern. *)
Definition isspace (c : char) : bool :=
  ((9 <=? c) && (c <=? 13) || (28 <=? c) && (c <=? 32)
   || (c =? 133) || (c =? 160) || (c =? 5760)
   || (8192 <=? c) && (c <=? 8202)
   || (c =? 8232) || (c =? 8233) || (c =? 8239) || (c =? 8287)
   || (c =? 12288))%N.

(** [Py_UNICODE_ISLINEBREAK]: the line boundaries of [str.splitlines()]. *)
Definition islinebreak (c : char) : bool :=
  ((10 <=? c) && (c <=? 13) || (28 <=? c) && (c <=? 30)
   || (c =? 133) || (c =? 8232) || (c =? 8233))%N.

Fixpoint lstrip (s : str) : str :=
  match s with
  | [] => []
  | c :: s' => if isspace c then lstrip s' else s
  end.

Definition rstrip (s : str) : str := rev (lstrip (rev s)).

(** [s.strip()] *)
Definition strip (s : str) : str := rstrip (lstrip s).

(** [s.splitlines()]: a line ends at a line boundary, the pair CR LF counts
    as one boundary, and no empty last line is produced. *)
Fixpoint splitlines (s : str) : list str :=
  match s with
  | [] => []
  | c :: s' =>
      if islinebreak c then
        [] :: match s' with
              | c' :: s'' =>
                  if ((c =? CR) && (c' =? LF))%N then splitlines s''
                  else splitlines s'
              | [] => []
              end
      else
        match splitlines s' with
        | [] => [[c]]
        | l :: ls => (c :: l) :: ls
        end
  end.

(** [s.startswith(p)] *)
Fixpoint startswith (s p : str) : bool :=
  match p, s with
  | [], _ => true
  | _ :: _, [] => false
  | a :: p', c :: s' => (c =? a)%N && startswith s' p'
  end.

(** [s.find(sub)], [None] standing for [-1]. *)
Fixpoint find (s sub : str) : option nat :=
  if startswith s sub then Some 0
  else match s with
       | [] => None
       | _ :: s' => option_map S (find s' sub)
       end.

(** [sub in s] *)
Definition contains (s sub : str) : bool :=
  match find s sub with Some _ => true | None => false end.

(** [s.split(sep, 1)] as the pair it unpacks to; [None] when [sep] does not
    occur (the list has then one element and the unpacking fails). *)
Definition split_once (s sep : str) : option (str * str) :=
  match find s sep with
  | Some i => Some (firstn i s, skipn (i + length sep) s)
  | None => None
  end.

(** [s.replace(old, new)] for a non-empty [old]: occurrences are replaced
    from left to right and do not overlap.  [skip] counts the characters of
    an occurrence that is being passed over. *)
Fixpoint replace_from (skip : nat) (s old new : str) : str :=
  match s with
  | [] => []
  | c :: s' =>
      match skip with
      | S k => replace_from k s' old new
      | O =>
          if startswith s old
          then new ++ replace_from (length old - 1) s' old new
          else c :: replace_from 0 s' old new
      end
  end.

Definition replace (s old new : str) : str := replace_from 0 s old new.

(** [sep.join(parts)] *)
Fixpoint join (sep : str) (parts : list str) : str :=
  match parts with
  | [] => []
  | [p] => p
  | p :: rest => p ++ sep ++ join sep rest
  end.

(** [l[:n]] for a Python integer [n]: a negative bound counts from the
    end. *)
Definition slice_to {A} (l : list A) (n : Z) : list A :=
  if (n <? 0)%Z
  then firstn (Z.to_nat (Z.max 0 (Z.of_nat (length l) + n))) l
  else firstn (Z.to_nat n) l.

(** [str.split()] without arguments: the maximal runs of characters that
    are not white space.  [cur] is the token being read, reversed. *)
Fixpoint split_from (cur : str) (s : str) : list str :=
  match s with
  | [] => match cur with [] => [] | _ :: _ => [rev cur] end
  | c :: s' =>
      if isspace c
      then match cur with
           | [] => split_from [] s'
           | _ :: _ => rev cur :: split_from [] s'
           end
      else split_from (c :: cur) s'
  end.

Definition split (s : str) : list str := split_from [] s.

End PyStr.

(** ** The interpreter's Unicode data

    [\d] in a [str] pattern matches the decimal digits of the Unicode
    database the interpreter was built with.  That table is not part of the
    repository, so the development is parametric in it. *)

Class UnicodeData := { isdecimal : char -> bool }.

(** The table restricted to ASCII, for running examples. *)
Definition ascii_digits : UnicodeData :=
  {| isdecimal := fun c => ((48 <=? c) && (c <=? 57))%N |}.

(** Greedy repetition of a one-character class, as the regex engine runs
    [c*]: the text left after the longest run. *)
Fixpoint dropwhile (f : char -> bool) (s : str) : str :=
  match s with
  | [] => []
  | c :: s' => if f c then dropwhile f s' else s
  end.

Definition nonempty {A} (l : list A) : bool :=
  match l with [] => false | _ :: _ => true end.

(** The length of the longest run a greedy one-character loop takes. *)
Fixpoint run_length (f : char -> bool) (s : str) : nat :=
  match s with
  | [] => 0
  | c :: s' => if f c then S (run_length f s') else 0
  end.

(** [re.sub(pattern, repl, s)] for a pattern that never matches the empty
    string: [m x] is the length of the match of the pattern at the start of
    [x], if there is one.  The text is scanned from left to right; a match
    is replaced and the scan goes on after it, any other character is
    copied.  [skip] counts the characters of a match that is being passed
    over. *)
Fixpoint re_sub_from (m : str -> option nat) (repl : str) (skip : nat) (s : str)
  : str :=
  match s with
  | [] => []
  | c :: s' =>
      match skip with
      | S k => re_sub_from m repl k s'
      | O =>
          match m s with
          | Some (S n) => repl ++ re_sub_from m repl n s'
          | _ => c :: re_sub_from m repl 0 s'
          end
      end
  end.

Definition re_sub (m : str -> option nat) (repl : str) (s : str) : str :=
  re_sub_from m repl 0 s.

(** ** agents/langchain_gemini_agent.py *)

Module Gemini.
Import PyStr.

Section WithUnicode.
Context {U : UnicodeData}.

(** [$] outside MULTILINE mode: the end of the string, or just before a
    line feed that ends the string. *)
Definition at_end (s : str) : bool :=
  match s with
  | [] => true
  | [c] => (c =? LF)%N
  | _ => false
  end.

(** [PRICE_RE.match(l)] is a match object or [None]; the source only tests
    it.  PRICE_RE is [^\$\d[\d,]*\.?\d*$]: each greedy loop runs to the end
    of its run, and a shorter run never helps, since what it leaves is a
    digit or a comma that only [\d*] could still take. *)
Definition PRICE_RE_match (l : str) : bool :=
  match l with
  | c0 :: c1 :: r =>
      (c0 =? DOLLAR)%N && isdecimal c1 &&
      (let r1 := dropwhile (fun c => isdecimal c || (c =? COMMA)%N) r in
       let r2 := match r1 with
                 | c :: r' => if (c =? DOT)%N then r' else r1
                 | [] => r1
                 end in
       at_end (dropwhile isdecimal r2))
  | _ => false
  end.

(** [[l.strip() for l in out_str.strip().splitlines() if l.strip()]] *)
Definition lines_of (out_str : str) : list str :=
  map strip (filter (fun l => nonempty (strip l)) (splitlines (strip out_str))).

(** [next((l for l in lines if PRICE_RE.match(l)), lines[0])] *)
Definition select_price (lines : list str) : str :=
  match List.find PRICE_RE_match lines with
  | Some l => l
  | None => hd [] lines
  end.

(** The body of the bullet loop for one line [l]. *)
Definition bullet_step (bullets : list str) (l : str) : list str :=
  if startswith l (lit "- ") then
    let b := strip (skipn 2 l) in
    let b := replace b (lit " - ") (lit " – ") in
    let b := replace b (lit "’") (lit "'") in
    bullets ++ [b]
  else bullets.

(** [bullets = []; for l in lines: ...] *)
Definition collect_bullets (lines : list str) : list str :=
  fold_left bullet_step lines [].

Definition SENTINEL : str := lit "No recent headlines found.".

(** Steps 3 and 4 of [format_guard]: the sentinel, the clamp. *)
Definition clamp_bullets (bullets : list str) (max_bullets : Z) : list str :=
  let bullets := if nonempty bullets then bullets else [SENTINEL] in
  slice_to bullets max_bullets.

(** The f-string that puts the dash marker back in front of a bullet. *)
Definition bullet_line (b : str) : str := lit "- " ++ b.

Definition format_guard (out_str : str) (max_bullets : Z) : str :=
  let lines := lines_of out_str in
  if negb (nonempty lines) then out_str
  else
    let price := select_price lines in
    let bullets := collect_bullets lines in
    let bullets := clamp_bullets bullets max_bullets in
    let final := price :: map bullet_line bullets in
    join (lit "\n") final.

End WithUnicode.

(** One entry of the headlines list: a title and a host. *)
Record headline := { title : str; host : str }.

(** The dictionary [to_json] hands to [json.dumps]. *)
Record projection := { price : str; headlines : list headline }.

(** The body of the headline loop for one line [l]. *)
Definition headline_step (hs : list headline) (l : str) : list headline :=
  if startswith l (lit "- ") then
    let txt := strip (skipn 2 l) in
    let '(t, h) :=
      if contains txt (lit " – ") then
        match split_once txt (lit " – ") with
        | Some th => th
        | None => (txt, [])
        end
      else (txt, []) in
    hs ++ [{| title := strip t; host := strip h |}]
  else hs.

(** [to_json] up to the final [json.dumps], which only renders the
    dictionary. *)
Definition to_json (out_str : str) : projection :=
  let lines := Gemini.lines_of out_str in
  let price := match lines with l :: _ => l | [] => [] end in
  let headlines := fold_left headline_step (tl lines) [] in
  {| price := price; headlines := headlines |}.

(** *** Title cleaning and the headline loop *)

Definition LPAREN : char := 40%N.
Definition RPAREN : char := 41%N.

(** The pattern [\s*\([^)]+\)] at the start of [x]: white space, an
    opening parenthesis, at least one character that is not a closing
    parenthesis, a closing parenthesis.  Each greedy loop runs as far as it
    can; giving characters back never helps, since what [\s*] gives back is
    white space and what [[^)]+] gives back is not a closing parenthesis. *)
Definition parenthetical (x : str) : option nat :=
  let w := run_length isspace x in
  match skipn w x with
  | c :: r =>
      if (c =? LPAREN)%N then
        let b := run_length (fun c => negb (c =? RPAREN)%N) r in
        match skipn b r with
        | _ :: _ => if (1 <=? b)%nat then Some (w + 1 + b + 1) else None
        | [] => None
        end
      else None
  | [] => None
  end.

(** The pattern [\s{2,}] at the start of [x]. *)
Definition wide_space (x : str) : option nat :=
  let w := run_length isspace x in
  if (2 <=? w)%nat then Some w else None.

Definition _clean_title (s : str) : str :=
  let s := re_sub parenthetical [] s in
  strip (re_sub wide_space (lit " ") s).

Section News.
(** [_unwrap_google_news] and [_short_host] go through [urlparse] and
    [parse_qs] of the standard library and catch what these raise; the loop
    only calls them. *)
Variable _unwrap_google_news : str -> str.
Variable _short_host : str -> str.

(** [title in seen_titles] *)
Definition seen_before (title : str) (seen_titles : list str) : bool :=
  existsb (fun t => if list_eq_dec N.eq_dec t title then true else false)
          seen_titles.

(** The loop of [news_headlines] over the items of the feed, each given by
    the text of its title and of its link (the empty string when the
    element is missing).  The state is [rows] and [seen_titles]; the loop
    stops when it runs out of items or at the [break]. *)
Fixpoint headline_loop (HEADLINE_MAX : Z) (items : list (str * str))
    (rows seen_titles : list str) : list str * list str :=
  match items with
  | [] => (rows, seen_titles)
  | (title, link) :: rest =>
      let title := strip title in
      let link := strip link in
      let link := _unwrap_google_news link in
      let host := _short_host link in
      let title := _clean_title title in
      let '(rows, seen_titles) :=
        if nonempty title && nonempty link && negb (seen_before title seen_titles)
        then (rows ++ [title ++ lit " | " ++ link ++ lit " | " ++ host],
              seen_titles ++ [title])
        else (rows, seen_titles) in
      if (HEADLINE_MAX <=? Z.of_nat (length rows))%Z
      then (rows, seen_titles)
      else headline_loop HEADLINE_MAX rest rows seen_titles
  end.

(** What [news_headlines] returns once the feed is fetched and parsed. *)
Definition news_headlines (HEADLINE_MAX : Z) (items : list (str * str)) : str :=
  let rows := fst (headline_loop HEADLINE_MAX items [] []) in
  if nonempty rows then join (lit "\n") rows else lit "No headlines found.".

End News.

(** *** The main block *)

(** [HEADLINE_MAX = max(1, min(args.max, 5))] *)
Definition clamp_headline_max (arg_max : Z) : Z := Z.max 1 (Z.min arg_max 5).

(** [HEADLINE_FRESH_DAYS = max(1, min(args.fresh, 7))] *)
Definition clamp_fresh_days (arg_fresh : Z) : Z := Z.max 1 (Z.min arg_fresh 7).

Definition RESULT_MARKER : str := lit "----Final Result----".

(** What the main block prints without [--json], for the text [output] the
    agent returned: the marker line, then [safe_out]. *)
Definition main_stdout {U : UnicodeData} (output : str) (arg_max : Z) : str :=
  let HEADLINE_MAX := clamp_headline_max arg_max in
  let safe_out := format_guard output HEADLINE_MAX in
  RESULT_MARKER ++ lit "\n" ++ safe_out ++ lit "\n".

End Gemini.

(** ** demo.py *)

Module Demo.
Import PyStr.

Section WithUnicode.
Context {U : UnicodeData}.

Definition at_end (s : str) : bool :=
  match s with
  | [] => true
  | [c] => (c =? LF)%N
  | _ => false
  end.

(** [PRICE_RE] of demo.py, the same pattern as the agent's. *)
Definition PRICE_RE_match (l : str) : bool :=
  match l with
  | c0 :: c1 :: r =>
      (c0 =? DOLLAR)%N && isdecimal c1 &&
      (let r1 := dropwhile (fun c => isdecimal c || (c =? COMMA)%N) r in
       let r2 := match r1 with
                 | c :: r' => if (c =? DOT)%N then r' else r1
                 | [] => r1
                 end in
       at_end (dropwhile isdecimal r2))
  | _ => false
  end.

Definition NO_OUTPUT : str := lit "\n\n(No output)\n".

Definition bullet_step (bullets : list str) (l : str) : list str :=
  if startswith l (lit "- ") then
    let b := strip (skipn 2 l) in
    let b := replace b (lit " - ") (lit " – ") in
    let b := replace b (lit "’") (lit "'") in
    bullets ++ [b]
  else bullets.

Definition _format_final_block (block : str) (max_bullets : Z) : str :=
  let lines :=
    map strip (filter (fun l => nonempty (strip l)) (splitlines (strip block))) in
  if negb (nonempty lines) then NO_OUTPUT
  else
    let price := match List.find PRICE_RE_match lines with
                 | Some l => l
                 | None => hd [] lines
                 end in
    let bullets := fold_left bullet_step lines [] in
    let bullets :=
      if nonempty bullets then bullets else [lit "No recent headlines found."] in
    let bullets := slice_to bullets max_bullets in
    let final := price :: map (fun b => lit "- " ++ b) bullets in
    lit "\n" ++ join (lit "\n") final ++ lit "\n".

Definition MARKER : str := lit "----Final Result----".

Definition format_guard (out_str : str) (max_bullets : Z) : str :=
  if negb (nonempty (strip out_str)) then out_str
  else if contains out_str MARKER then
    match split_once out_str MARKER with
    | Some (head, tail) =>
        let processed_tail := _format_final_block tail max_bullets in
        head ++ MARKER ++ processed_tail
    | None => out_str
    end
  else _format_final_block out_str max_bullets.

End WithUnicode.

(** [max_bullets] in [main]: [args.max] when it is an integer between 1
    and 5, and 4 otherwise ([None] when the flag is not given). *)
Definition launcher_max_bullets (arg_max : option Z) : Z :=
  match arg_max with
  | Some m => if ((1 <=? m) && (m <=? 5))%Z then m else 4%Z
  | None => 4%Z
  end.

(** [run_agent] with [postprocess=True]: what the launcher writes to its
    standard output for the child's standard output [out]. *)
Definition postprocess {U : UnicodeData} (out : str) (max_bullets : Z) : str :=
  format_guard out max_bullets.

End Demo.

(** ** agents/agent.py *)

Module Exchange.
Import PyStr.

(** The exceptions the main block can see. *)
Inductive exn :=
| ResourceExhausted (msg : str)
| IndexError
| OtherException (msg : str).

(** [str(e)] *)
Definition str_of (e : exn) : str :=
  match e with
  | ResourceExhausted msg => msg
  | IndexError => lit "list index out of range"
  | OtherException msg => msg
  end.

Inductive result (A : Type) :=
| Return (a : A)
| Raise (e : exn).
Arguments Return {A} a.
Arguments Raise {A} e.

Section Tool.
(** [str.upper()] maps each character on its own, to one or more
    characters of the interpreter's Unicode data. *)
Variable toupper_full : char -> str.

Definition upper (s : str) : str := flat_map toupper_full s.

Definition ExchangeRateConverter (pair : str) : str :=
  let pair := split (upper (strip pair)) in
  match pair with
  | [base; quote] => lit "1 " ++ base ++ lit " = 0.93 " ++ quote
  | _ => lit "Invalid pair."
  end.

End Tool.

(** Upper case for ASCII letters only, for running examples. *)
Definition ascii_toupper (c : char) : str :=
  if ((97 <=? c) && (c <=? 122))%N then [(c - 32)%N] else [c].

Definition FINAL_MARK : str := lit "Final Answer:".

Fixpoint takewhile (f : char -> bool) (s : str) : str :=
  match s with
  | [] => []
  | c :: s' => if f c then c :: takewhile f s' else []
  end.

(** [\s*(.+)] with the DOTALL flag on the text after the marker: [\s*] first
    takes [k] characters, [.+] takes everything left, and when nothing is
    left the engine gives one character of [\s*] back. *)
Fixpoint group1_after (k : nat) (rest : str) : option str :=
  match skipn k rest with
  | (_ :: _) as g => Some g
  | [] =>
      match k with
      | S k' => group1_after k' rest
      | O => None
      end
  end.

(** An attempt of FINAL_RE at the start of [s]; the result is group 1. *)
Definition FINAL_RE_at (s : str) : option str :=
  if startswith s FINAL_MARK then
    let rest := skipn (length FINAL_MARK) s in
    group1_after (length (takewhile isspace rest)) rest
  else None.

(** [FINAL_RE.search(text)]: the leftmost position where an attempt
    succeeds. *)
Fixpoint FINAL_RE_search (text : str) : option str :=
  match FINAL_RE_at text with
  | Some g => Some g
  | None =>
      match text with
      | [] => None
      | _ :: text' => FINAL_RE_search text'
      end
  end.

Definition try_extract_final (text : str) : result (option str) :=
  match FINAL_RE_search text with
  | Some g =>
      let ans := strip g in
      match splitlines ans with
      | l :: _ => Return (Some (strip l))
      | [] => Raise IndexError
      end
  | None => Return None
  end.

(** *** The main block

    The agent executor is an opaque call; [agent k] is what its [k]-th
    invocation does.  The block's effects are recorded in a [world]. *)

Record world := {
  invocations : nat;
  stdout : list str;
  stderr : list str;
  slept : list Z
}.

Inductive outcome (A : Type) :=
| Val (a : A)
| Exc (e : exn)
| SysExit (code : Z).
Arguments Val {A} a.
Arguments Exc {A} e.
Arguments SysExit {A} code.

Definition M (A : Type) := world -> outcome A * world.

Definition ret {A} (a : A) : M A := fun w => (Val a, w).

Definition bind {A B} (m : M A) (k : A -> M B) : M B :=
  fun w =>
    match m w with
    | (Val a, w') => k a w'
    | (Exc e, w') => (Exc e, w')
    | (SysExit c, w') => (SysExit c, w')
    end.

Notation "x <- m ;; k" := (bind m (fun x => k))
  (at level 61, m at next level, right associativity).
Notation "m ;;; k" := (bind m (fun _ => k))
  (at level 61, right associativity).

Definition raise {A} (e : exn) : M A := fun w => (Exc e, w).

(** [try: body except <any Exception> as e: handler(e)]; [SystemExit] is
    not an [Exception] and passes through. *)
Definition try_except {A} (body : M A) (handler : exn -> M A) : M A :=
  fun w =>
    match body w with
    | (Exc e, w') => handler e w'
    | r => r
    end.

Section Main.
Variable agent : nat -> result str.

(** One call of [agent_executor.invoke] with the question, then the
    lookup of the output field of its result. *)
Definition invoke : M str :=
  fun w =>
    let w' := {| invocations := S (invocations w); stdout := stdout w;
                 stderr := stderr w; slept := slept w |} in
    match agent (invocations w) with
    | Return out => (Val out, w')
    | Raise e => (Exc e, w')
    end.

Definition print (s : str) : M unit :=
  fun w => (Val tt, {| invocations := invocations w; stdout := stdout w ++ [s];
                       stderr := stderr w; slept := slept w |}).

Definition eprint (s : str) : M unit :=
  fun w => (Val tt, {| invocations := invocations w; stdout := stdout w;
                       stderr := stderr w ++ [s]; slept := slept w |}).

Definition sleep (secs : Z) : M unit :=
  fun w => (Val tt, {| invocations := invocations w; stdout := stdout w;
                       stderr := stderr w; slept := slept w ++ [secs] |}).

Definition sys_exit {A} (code : Z) : M A := fun w => (SysExit code, w).

Definition RATE_LIMIT_NOTE : str :=
  lit "[rate-limit] Gemini quota hit; waiting 35s and retrying once...".

Definition PARSE_HINT : str :=
  lit "Error: could not parse a final answer.\nHint: model emitted both an Action and Final Answer in the same step.".

(** The handler for everything that is not a rate limit. *)
Definition salvage (e : exn) : M unit :=
  match try_extract_final (str_of e) with
  | Raise e' => raise e'
  | Return salvaged =>
      match salvaged with
      | Some ((_ :: _) as s) => print s
      | _ => eprint PARSE_HINT ;;; eprint (str_of e) ;;; sys_exit 1%Z
      end
  end.

Definition main : M unit :=
  try_except
    (out <- invoke ;; print (strip out))
    (fun e =>
       match e with
       | ResourceExhausted _ =>
           eprint RATE_LIMIT_NOTE ;;;
           sleep 35%Z ;;;
           out <- invoke ;;
           print (strip out)
       | _ => salvage e
       end).

End Main.

Definition initial : world :=
  {| invocations := 0; stdout := []; stderr := []; slept := [] |}.

End Exchange.

(** ** agents/gradio_app.py *)

Module Gradio.
Import PyStr.

Definition ESC : char := 27%N.

(** The class [[0-9;]]. *)
Definition sgr_param (c : char) : bool :=
  ((48 <=? c) && (c <=? 57) || (c =? 59))%N.

(** The pattern [\x1b\[[0-9;]*m] at the start of [x]: the escape
    character, an opening bracket, digits and semicolons, the letter m.
    The greedy loop runs as far as it can; what it could give back is a
    digit or a semicolon, never the letter. *)
Definition ANSI (x : str) : option nat :=
  match x with
  | e :: b :: r =>
      if ((e =? ESC) && (b =? 91))%N then
        let k := run_length sgr_param r in
        match skipn k r with
        | m :: _ => if (m =? 109)%N then Some (2 + k + 1) else None
        | [] => None
        end
      else None
  | _ => None
  end.

(** [ANSI.sub("", (s or "").strip())] *)
Definition _clean (s : str) : str := re_sub ANSI [] (strip s).

End Gradio.

(** * Vocabulary of the statements *)

Import PyStr.

(** ** Lines *)

(** The two ends of a string, as [strip] sees them. *)
Definition head_ok (s : str) : Prop :=
  match s with
  | [] => True
  | c :: _ => isspace c = false
  end.

Definition last_ok (s : str) : Prop := head_ok (rev s).

(** A character that is not white space. *)
Definition ink (c : char) : bool := negb (isspace c).

(** Free of line boundaries. *)
Definition nolb (s : str) : Prop := Forall (fun c => islinebreak c = false) s.

(** A line as [lines_of] produces them: not empty, trimmed, and free of
    line boundaries. *)
Definition tidy (l : str) : Prop :=
  l <> [] /\ head_ok l /\ last_ok l /\ nolb l.

(** The text before the first line boundary. *)
Fixpoint upto_linebreak (s : str) : str :=
  match s with
  | [] => []
  | c :: s' => if islinebreak c then [] else c :: upto_linebreak s'
  end.

(** ** The two rewrites, in the spec's wording

    Every space-hyphen-space, taken from left to right, gets an en dash;
    every curly apostrophe becomes a straight one. *)
Fixpoint en_dash_separators (s : str) : str :=
  match s with
  | [] => []
  | a :: s1 =>
      match s1 with
      | b :: c :: s3 =>
          if ((a =? SPACE) && (b =? HYPHEN) && (c =? SPACE))%N
          then SPACE :: EN_DASH :: SPACE :: en_dash_separators s3
          else a :: en_dash_separators s1
      | _ => a :: en_dash_separators s1
      end
  end.

Definition straight_apostrophes (s : str) : str :=
  map (fun c => if (c =? CURLY_APOSTROPHE)%N then APOSTROPHE else c) s.

(** One after the other, as the bullet loop applies them. *)
Definition canonical (b : str) : str :=
  straight_apostrophes (en_dash_separators b).

(** A character exchanged for one of the same kind: both rewrites only do
    that. *)
Definition tame (c c' : char) : Prop :=
  isspace c' = isspace c /\ islinebreak c' = islinebreak c.

(** ** Bullets *)

(** [l.startswith("- ")] *)
Definition is_bullet (l : str) : bool := startswith l (lit "- ").

(** What the bullet loop appends for a dash-prefixed line. *)
Definition bullet_text (l : str) : str := canonical (strip (skipn 2 l)).

(** No space-hyphen-space left. *)
Definition dash_free (b : str) : Prop := contains b (lit " - ") = false.

(** A bullet as the normaliser emits it: tidy, without curly apostrophes. *)
Definition emitted (b : str) : Prop := tidy b /\ straight_apostrophes b = b.

(** An input with a dash-prefixed line among its trimmed lines. *)
Definition has_dash_line (s : str) : Prop :=
  existsb is_bullet (Gemini.lines_of s) = true.

(** The bullet lines of a normalised text: the dash-prefixed lines after the
    first line. *)
Definition bullet_lines (out : str) : list str :=
  filter is_bullet (tl (splitlines out)).

(** The wording of the claim on bullet extraction: the prefix is cut off,
    then the two rewrites. *)
Definition bullets_as_stated (lines : list str) : list str :=
  map (fun l => straight_apostrophes (en_dash_separators (skipn 2 l)))
      (filter (fun l => startswith l (lit "- ")) lines).

(** An input without a trimmed non-empty line. *)
Definition blank (s : str) : Prop := Gemini.lines_of s = [].

Section Vocabulary.
Context {U : UnicodeData}.

(** What [format_guard] puts on the first line and after it. *)
Definition price_of (s : str) : str := Gemini.select_price (Gemini.lines_of s).

Definition bullets_of (s : str) (n : Z) : list str :=
  Gemini.clamp_bullets (Gemini.collect_bullets (Gemini.lines_of s)) n.

Definition output_lines (s : str) (n : Z) : list str :=
  price_of s :: map Gemini.bullet_line (bullets_of s n).

(** ** The price pattern *)

Definition digit_or_comma (c : char) : bool := isdecimal c || (c =? COMMA)%N.

(** The language of PRICE_RE on a line: a dollar sign, a digit, digits and
    commas, at most one dot, digits. *)
Definition is_price_line (l : str) : Prop :=
  exists d g p f,
    l = DOLLAR :: d :: g ++ p ++ f /\
    isdecimal d = true /\
    forallb digit_or_comma g = true /\
    (p = [] \/ p = [DOT]) /\
    forallb isdecimal f = true.

(** What PRICE_RE does after the dollar sign and the first digit. *)
Definition price_tail (r : str) : bool :=
  let r1 := dropwhile digit_or_comma r in
  let r2 := match r1 with
            | c :: r' => if (c =? DOT)%N then r' else r1
            | [] => r1
            end in
  Gemini.at_end (dropwhile isdecimal r2).

End Vocabulary.

(** ** The structured projection *)

(** The re-flattening the spec describes: the price first, then one
    dash-prefixed line per headline, title and host joined with the en-dash
    separator; a headline without a host is its title alone. *)
Definition headline_line (h : Gemini.headline) : str :=
  lit "- " ++ Gemini.title h
  ++ (if nonempty (Gemini.host h) then lit " – " ++ Gemini.host h else []).

Definition reflatten (p : Gemini.projection) : list str :=
  Gemini.price p :: map headline_line (Gemini.headlines p).

(** The same with the separator written in every line. *)
Definition headline_line_joined (h : Gemini.headline) : str :=
  lit "- " ++ Gemini.title h ++ lit " – " ++ Gemini.host h.

Definition reflatten_joined (p : Gemini.projection) : list str :=
  Gemini.price p :: map headline_line_joined (Gemini.headlines p).

(** A bullet whose first en-dash separator has no further white space
    around it. *)
Definition tight (b : str) : Prop :=
  match split_once b (lit " – ") with
  | Some (t, h) => strip t = t /\ strip h = h
  | None => True
  end.

(** What [headline_step] appends for a dash-prefixed line. *)
Definition headline_of (l : str) : Gemini.headline :=
  let txt := strip (skipn 2 l) in
  let '(t, h) :=
    if contains txt (lit " – ") then
      match split_once txt (lit " – ") with
      | Some th => th
      | None => (txt, [])
      end
    else (txt, []) in
  {| Gemini.title := strip t; Gemini.host := strip h |}.

(** ** The salvage helper *)

(** The wording of the claim on salvage: the trimmed text between the first
    marker and the first line boundary after it. *)
Definition salvage_as_stated (t : str) : option str :=
  match find t Exchange.FINAL_MARK with
  | Some i =>
      Some (strip (upto_linebreak (skipn (i + length Exchange.FINAL_MARK) t)))
  | None => None
  end.

(** ** Titles and headline rows *)

(** No two white-space characters side by side. *)
Fixpoint single_spaced (s : str) : bool :=
  match s with
  | [] => true
  | a :: s' =>
      match s' with
      | b :: _ => negb (isspace a && isspace b) && single_spaced s'
      | [] => true
      end
  end.

(** A row of [news_headlines] for a title: the title, a link that is not
    empty, and the host the link gives. *)
Definition row_of (short_host : str -> str) (row title : str) : Prop :=
  exists link,
    link <> [] /\
    row = title ++ lit " | " ++ link ++ lit " | " ++ short_host link.

(** A title the headline loop can record for a feed: not empty, and the
    cleaned, trimmed title of one of its items. *)
Definition title_from (items : list (str * str)) (t : str) : Prop :=
  t <> [] /\
  exists it, In it items /\ t = Gemini._clean_title (strip (fst it)).

(** The state of the headline loop after the [if] of one pass. *)
Definition loop_pass (unwrap short_host : str -> str) (item : str * str)
    (rows seen : list str) : list str * list str :=
  let title := Gemini._clean_title (strip (fst item)) in
  let link := unwrap (strip (snd item)) in
  if nonempty title && nonempty link && negb (Gemini.seen_before title seen)
  then (rows ++ [title ++ lit " | " ++ link ++ lit " | " ++ short_host link],
        seen ++ [title])
  else (rows, seen).

(** The text after an opening parenthesis that no parenthetical can start
    at: nothing, a closing parenthesis at once, or no closing parenthesis
    at all. *)
Definition unclosed (r : str) : Prop :=
  r = [] \/ (exists t, r = Gemini.RPAREN :: t)
  \/ Forall (fun c => c <> Gemini.RPAREN) r.

(** Every opening parenthesis of [s] is followed by such a text. *)
Fixpoint paren_free (s : str) : Prop :=
  match s with
  | [] => True
  | c :: s' => (c = Gemini.LPAREN -> unclosed s') /\ paren_free s'
  end.

(** Does the text start with white space? *)
Definition hd_space (s : str) : bool :=
  match s with
  | c :: _ => isspace c
  | [] => false
  end.

(** A word: not empty and free of white space. *)
Definition word (w : str) : Prop := w <> [] /\ forallb ink w = true.

(** ** Coloured text *)

(** A text with colour codes laid over it: pieces of plain text and
    colour codes, each code given by its parameters. *)
Inductive piece := Text (t : str) | Code (params : str).

Definition render_piece (p : piece) : str :=
  match p with
  | Text t => t
  | Code params => [Gradio.ESC; 91%N] ++ params ++ [109%N]
  end.

Definition render (ps : list piece) : str := flat_map render_piece ps.

(** The text without the codes. *)
Definition plain (ps : list piece) : str :=
  flat_map (fun p => match p with Text t => t | Code _ => [] end) ps.

(** Plain text has no escape character; the parameters of a code are
    digits and semicolons. *)
Definition piece_ok (p : piece) : Prop :=
  match p with
  | Text t => Forall (fun c => c <> Gradio.ESC) t
  | Code params => forallb Gradio.sgr_param params = true
  end.

(** * Facts about the string built-ins *)

Ltac bool_arith :=
  repeat match goal with
         | H : _ && _ = true |- _ => apply andb_true_iff in H; destruct H
         | H : _ || _ = false |- _ => apply orb_false_iff in H; destruct H
         | H : negb _ = true |- _ => apply negb_true_iff in H
         | H : negb _ = false |- _ => apply negb_false_iff in H
         | H : (_ =? _)%N = true |- _ => apply N.eqb_eq in H
         | H : (_ =? _)%N = false |- _ => apply N.eqb_neq in H
         | H : (_ <=? _)%N = true |- _ => apply N.leb_le in H
         | H : (_ <=? _)%N = false |- _ => apply N.leb_gt in H
         end.

Lemma islinebreak_isspace c : islinebreak c = true -> isspace c = true.
Proof.
  unfold islinebreak, isspace.
  rewrite ?orb_true_iff, ?andb_true_iff, ?N.leb_le, ?N.eqb_eq. lia.
Qed.

Lemma isspace_not_linebreak c : isspace c = false -> islinebreak c = false.
Proof.
  intros H. destruct (islinebreak c) eqn:E; [|reflexivity].
  apply islinebreak_isspace in E. congruence.
Qed.

Lemma head_ok_lstrip s : head_ok (lstrip s).
Proof.
  induction s as [|c s IH]; simpl; [exact I|].
  destruct (isspace c) eqn:E; [exact IH | simpl; exact E].
Qed.

Lemma lstrip_fixed s : head_ok s -> lstrip s = s.
Proof.
  destruct s as [|c s]; simpl; [reflexivity|]. intros ->. reflexivity.
Qed.

Lemma lstrip_app s t : lstrip s <> [] -> lstrip (s ++ t) = lstrip s ++ t.
Proof.
  induction s as [|c s IH]; simpl; [congruence|].
  destruct (isspace c); [exact IH | reflexivity].
Qed.

Lemma lstrip_nil_iff s : lstrip s = [] <-> existsb ink s = false.
Proof.
  unfold ink. induction s as [|c s IH]; simpl; [tauto|].
  destruct (isspace c); simpl; [exact IH|]. split; discriminate.
Qed.

Lemma lstrip_all_space s t : lstrip s = [] -> lstrip (s ++ t) = lstrip t.
Proof.
  induction s as [|c s IH]; simpl; [reflexivity|].
  destruct (isspace c); [exact IH | discriminate].
Qed.

Lemma existsb_ink_lstrip s : existsb ink (lstrip s) = existsb ink s.
Proof.
  unfold ink. induction s as [|c s IH]; simpl; [reflexivity|].
  destruct (isspace c) eqn:E; simpl; [exact IH | rewrite E; reflexivity].
Qed.

Lemma existsb_rev {A} (f : A -> bool) l : existsb f (rev l) = existsb f l.
Proof.
  induction l as [|a l IH]; simpl; [reflexivity|].
  rewrite existsb_app, IH. simpl. rewrite orb_false_r. apply orb_comm.
Qed.

Lemma rstrip_nil_iff s : rstrip s = [] <-> existsb ink s = false.
Proof.
  unfold rstrip. rewrite <- (existsb_rev ink s), <- lstrip_nil_iff.
  split; intros H.
  - apply (f_equal (@rev char)) in H. rewrite rev_involutive in H. exact H.
  - rewrite H. reflexivity.
Qed.

(** [if l.strip()] holds exactly when [l] has a character that is not
    white space. *)
Lemma strip_nonempty s : nonempty (strip s) = existsb ink s.
Proof.
  unfold strip. rewrite <- (existsb_ink_lstrip s).
  destruct (rstrip (lstrip s)) eqn:E; simpl.
  - symmetry. apply rstrip_nil_iff. exact E.
  - destruct (existsb ink (lstrip s)) eqn:F; [reflexivity|].
    apply rstrip_nil_iff in F. congruence.
Qed.

Lemma last_ok_rstrip s : last_ok (rstrip s).
Proof.
  unfold last_ok, rstrip. rewrite rev_involutive. apply head_ok_lstrip.
Qed.

Lemma rstrip_fixed s : last_ok s -> rstrip s = s.
Proof.
  unfold last_ok, rstrip. intros H. rewrite (lstrip_fixed _ H).
  apply rev_involutive.
Qed.

(** [rstrip] keeps a prefix. *)
Lemma rstrip_prefix s : exists t, s = rstrip s ++ t /\ existsb ink t = false.
Proof.
  unfold rstrip.
  assert (G : forall r, exists p, r = p ++ lstrip r /\ existsb ink p = false).
  { induction r as [|c r IH]; simpl; [exists []; auto|].
    destruct (isspace c) eqn:E.
    - destruct IH as [p [Hp Hq]]. exists (c :: p). simpl. unfold ink at 1.
      rewrite E. simpl. split; [f_equal; exact Hp | exact Hq].
    - exists []. auto. }
  destruct (G (rev s)) as [p [Hp Hq]]. exists (rev p). split.
  - rewrite <- rev_app_distr, <- Hp. symmetry. apply rev_involutive.
  - rewrite existsb_rev. exact Hq.
Qed.

Lemma head_ok_prefix s t : head_ok (s ++ t) -> head_ok s.
Proof. destruct s; simpl; auto. Qed.

Lemma head_ok_rstrip s : head_ok s -> head_ok (rstrip s).
Proof.
  intros H. destruct (rstrip_prefix s) as [t [Ht _]].
  rewrite Ht in H. eapply head_ok_prefix; eauto.
Qed.

Lemma strip_ends s : head_ok (strip s) /\ last_ok (strip s).
Proof.
  unfold strip. split.
  - apply head_ok_rstrip, head_ok_lstrip.
  - apply last_ok_rstrip.
Qed.

Lemma strip_fixed s : head_ok s -> last_ok s -> strip s = s.
Proof.
  intros H1 H2. unfold strip. rewrite (lstrip_fixed _ H1).
  apply rstrip_fixed, H2.
Qed.

Lemma strip_idempotent s : strip (strip s) = strip s.
Proof. apply strip_fixed; apply strip_ends. Qed.

Lemma strip_fixed_ends s : strip s = s -> head_ok s /\ last_ok s.
Proof. intros <-. apply strip_ends. Qed.

Lemma head_ok_app s t : s <> [] -> head_ok s -> head_ok (s ++ t).
Proof. destruct s; simpl; [congruence | auto]. Qed.

Lemma last_ok_app s t : t <> [] -> last_ok t -> last_ok (s ++ t).
Proof.
  unfold last_ok. intros Hn H. rewrite rev_app_distr.
  apply head_ok_app; [|exact H].
  intros E. apply Hn. apply (f_equal (@rev char)) in E.
  rewrite rev_involutive in E. exact E.
Qed.

Lemma last_ok_cons c s : s <> [] -> last_ok (c :: s) -> last_ok s.
Proof.
  unfold last_ok. simpl. intros Hn H.
  destruct (rev s) eqn:E.
  - apply (f_equal (@rev char)) in E. rewrite rev_involutive in E.
    simpl in E. congruence.
  - simpl in *. exact H.
Qed.

Lemma last_ok_ink s : s <> [] -> last_ok s -> existsb ink s = true.
Proof.
  unfold last_ok. intros Hn H. rewrite <- existsb_rev.
  destruct (rev s) eqn:E.
  - apply (f_equal (@rev char)) in E. rewrite rev_involutive in E.
    simpl in E. congruence.
  - simpl in *. unfold ink at 1. rewrite H. reflexivity.
Qed.

(** Trimming keeps what is between the two ends. *)
Lemma lstrip_suffix s : exists p, s = p ++ lstrip s.
Proof.
  induction s as [|c s [p Hp]]; simpl; [exists []; reflexivity|].
  destruct (isspace c); [exists (c :: p); simpl; f_equal; exact Hp | exists []; reflexivity].
Qed.

Lemma strip_infix s : exists p t, s = p ++ strip s ++ t.
Proof.
  destruct (lstrip_suffix s) as [p Hp].
  destruct (rstrip_prefix (lstrip s)) as [t [Ht _]].
  exists p, t. unfold strip. rewrite <- Ht. exact Hp.
Qed.

Lemma strip_Forall (P : char -> Prop) s : Forall P s -> Forall P (strip s).
Proof.
  intros H. destruct (strip_infix s) as [p [t E]]. rewrite E in H.
  apply Forall_app in H. destruct H as [_ H].
  apply Forall_app in H. tauto.
Qed.

(** ** Lines *)

(** Induction that follows [splitlines], which looks two characters ahead. *)
Lemma str_pair_ind (P : str -> Prop) :
  P [] -> (forall c, P [c]) ->
  (forall c c' s, P s -> P (c' :: s) -> P (c :: c' :: s)) ->
  forall s, P s.
Proof.
  intros H0 H1 H2 s.
  assert (G : P s /\ forall c, P (c :: s)); [|tauto].
  induction s as [|a s [IHa IHb]]; split; auto.
Qed.

Lemma splitlines_nolb s : Forall nolb (splitlines s).
Proof.
  induction s as [|c|c c' s IH1 IH2] using str_pair_ind.
  - constructor.
  - simpl. destruct (islinebreak c) eqn:E; repeat constructor. exact E.
  - change (splitlines (c :: c' :: s)) with
      (if islinebreak c
       then [] :: (if ((c =? CR) && (c' =? LF))%N then splitlines s
                   else splitlines (c' :: s))
       else match splitlines (c' :: s) with
            | [] => [[c]]
            | l :: ls => (c :: l) :: ls
            end).
    destruct (islinebreak c) eqn:E.
    + constructor; [constructor|]. destruct ((c =? CR) && (c' =? LF))%N; assumption.
    + destruct (splitlines (c' :: s)) as [|l ls].
      * repeat constructor. exact E.
      * inversion IH2; subst. constructor; [constructor; assumption | assumption].
Qed.

Lemma splitlines_line_lf l rest :
  nolb l -> splitlines (l ++ LF :: rest) = l :: splitlines rest.
Proof.
  induction l as [|c l IH]; intros H.
  - simpl. destruct rest; reflexivity.
  - inversion H; subst. simpl. rewrite H2, (IH H3). reflexivity.
Qed.

Lemma splitlines_single l : nolb l -> l <> [] -> splitlines l = [l].
Proof.
  induction l as [|c l IH]; intros H Hn; [congruence|].
  inversion H; subst. simpl. rewrite H2.
  destruct l as [|d l]; [reflexivity|].
  rewrite IH; [reflexivity | assumption | discriminate].
Qed.

Lemma splitlines_first l c x :
  nolb l -> islinebreak c = true ->
  exists r, splitlines (l ++ c :: x) = l :: r.
Proof.
  induction l as [|a l IH]; intros H Hc.
  - simpl. rewrite Hc. eauto.
  - inversion H; subst. simpl. rewrite H2.
    destruct (IH H3 Hc) as [r ->]. eauto.
Qed.

Lemma splitlines_nonempty s : s <> [] -> splitlines s <> [].
Proof.
  destruct s as [|c s]; [congruence|]. intros _. simpl.
  destruct (islinebreak c); [discriminate|].
  destruct (splitlines s); discriminate.
Qed.

Lemma join_cons2 sep p q rest :
  join sep (p :: q :: rest) = p ++ sep ++ join sep (q :: rest).
Proof. reflexivity. Qed.

Lemma splitlines_join ls :
  Forall (fun l => l <> [] /\ nolb l) ls -> splitlines (join [LF] ls) = ls.
Proof.
  induction ls as [|l ls IH]; intros H; [reflexivity|].
  inversion H as [|? ? [Hn Hl] Hr]; subst.
  destruct ls as [|q ls].
  - simpl. apply splitlines_single; assumption.
  - rewrite join_cons2. simpl app.
    rewrite splitlines_line_lf by assumption. f_equal. apply IH, Hr.
Qed.

Lemma tidy_strip l : tidy l -> strip l = l.
Proof. intros (_ & H1 & H2 & _). apply strip_fixed; assumption. Qed.

Lemma nonempty_true {A} (l : list A) : nonempty l = true <-> l <> [].
Proof. destruct l; simpl; split; congruence. Qed.

Lemma lines_of_tidy s : Forall tidy (Gemini.lines_of s).
Proof.
  unfold Gemini.lines_of. apply Forall_forall. intros x Hx.
  apply in_map_iff in Hx. destruct Hx as [l [<- Hl]].
  apply filter_In in Hl. destruct Hl as [Hl Hne].
  pose proof (splitlines_nolb (strip s)) as Hs.
  rewrite Forall_forall in Hs. specialize (Hs _ Hl).
  destruct (strip_ends l) as [H1 H2].
  split; [|split; [|split]]; try assumption.
  - apply nonempty_true. exact Hne.
  - apply strip_Forall. exact Hs.
Qed.

Lemma join_nonempty sep l ls : l <> [] -> join sep (l :: ls) <> [].
Proof.
  intros H. destruct ls; simpl; [exact H|].
  destruct l; [congruence | discriminate].
Qed.

Lemma join_tidy_ends ls :
  Forall tidy ls -> head_ok (join [LF] ls) /\ last_ok (join [LF] ls).
Proof.
  induction ls as [|l ls IH]; intros H; [split; exact I|].
  inversion H as [|? ? (Hn & Hh & Hl & _) Hr]; subst.
  destruct ls as [|q ls]; [simpl; tauto|].
  rewrite join_cons2. split.
  - apply head_ok_app; assumption.
  - destruct (IH Hr) as [_ IHl]. inversion Hr as [|? ? (Hq & _) _]; subst.
    apply last_ok_app; [discriminate|].
    apply last_ok_app; [apply join_nonempty; assumption | exact IHl].
Qed.

Lemma tidy_lines_fixed ls :
  Forall tidy ls ->
  map strip (filter (fun l => nonempty (strip l)) ls) = ls.
Proof.
  induction ls as [|l ls IH]; intros H; [reflexivity|].
  inversion H as [|? ? Hl Hr]; subst. simpl.
  rewrite (tidy_strip Hl). destruct Hl as (Hn & _).
  apply nonempty_true in Hn. rewrite Hn. simpl.
  f_equal; [|apply IH, Hr].
  apply tidy_strip. apply Forall_inv in H. exact H.
Qed.

(** Lines that are already tidy survive a trip through [join] and
    [lines_of]. *)
Lemma lines_of_join ls :
  Forall tidy ls -> Gemini.lines_of (join [LF] ls) = ls.
Proof.
  intros H. unfold Gemini.lines_of.
  destruct (join_tidy_ends H) as [Hh Hl].
  rewrite (strip_fixed _ Hh Hl).
  rewrite splitlines_join.
  - apply tidy_lines_fixed, H.
  - eapply Forall_impl; [|exact H]. intros l (Hn & _ & _ & Hb). tauto.
Qed.

(** ** Prefixes, search and replacement *)

Lemma startswith_true s p : startswith s p = true -> s = p ++ skipn (length p) s.
Proof.
  revert s. induction p as [|a p IH]; intros s H; [reflexivity|].
  destruct s as [|c s]; simpl in H; [discriminate|].
  apply andb_true_iff in H. destruct H as [Hc Hs].
  apply N.eqb_eq in Hc. subst. simpl. f_equal. apply IH, Hs.
Qed.

Lemma startswith_app p t : startswith (p ++ t) p = true.
Proof.
  induction p as [|a p IH]; simpl; [destruct t; reflexivity|].
  rewrite N.eqb_refl. exact IH.
Qed.

Lemma find_unfold s sub :
  find s sub =
  if startswith s sub then Some 0
  else match s with
       | [] => None
       | _ :: s' => option_map S (find s' sub)
       end.
Proof. destruct s; reflexivity. Qed.

Lemma find_None_inv s sub :
  find s sub = None ->
  startswith s sub = false /\
  match s with [] => True | _ :: s' => find s' sub = None end.
Proof.
  rewrite (find_unfold s sub).
  destruct (startswith s sub); [discriminate|].
  destruct s as [|c s]; [auto|].
  destruct (find s sub); simpl; [discriminate | auto].
Qed.

(** [find] returns the position of the first occurrence. *)
Lemma find_Some s sub i :
  find s sub = Some i ->
  s = firstn i s ++ sub ++ skipn (i + length sub) s /\
  forall j, j < i -> startswith (skipn j s) sub = false.
Proof.
  revert i. induction s as [|c s IH]; intros i H; rewrite find_unfold in H.
  - destruct (startswith [] sub) eqn:E; [|discriminate].
    inversion H; subst. split; [|intros; lia].
    apply startswith_true in E. simpl. exact E.
  - destruct (startswith (c :: s) sub) eqn:E.
    + inversion H; subst. split; [|intros; lia].
      apply startswith_true in E. exact E.
    + destruct (find s sub) as [k|] eqn:F; [|discriminate].
      inversion H; subst. destruct (IH k eq_refl) as [H1 H2]. split.
      * simpl. f_equal. exact H1.
      * intros [|j] Hj; [exact E|]. simpl. apply H2. lia.
Qed.

Lemma contains_false_cons c s sub :
  contains (c :: s) sub = false ->
  startswith (c :: s) sub = false /\ contains s sub = false.
Proof.
  unfold contains. destruct (find (c :: s) sub) eqn:E; [discriminate|].
  intros _. apply find_None_inv in E. destruct E as [E1 E2].
  rewrite E2. auto.
Qed.

Lemma replace_from_skip k s old new :
  replace_from k s old new = replace_from 0 (skipn k s) old new.
Proof.
  revert k. induction s as [|c s IH]; intros [|k]; try reflexivity.
  simpl skipn. rewrite <- IH. reflexivity.
Qed.

Lemma replace_nil old new : replace [] old new = [].
Proof. reflexivity. Qed.

Lemma replace_cons c s old new :
  replace (c :: s) old new =
  if startswith (c :: s) old
  then new ++ replace_from (length old - 1) s old new
  else c :: replace s old new.
Proof. reflexivity. Qed.

Lemma replace_hit s old new :
  old <> [] -> startswith s old = true ->
  replace s old new = new ++ replace (skipn (length old) s) old new.
Proof.
  intros Hn H. unfold replace. destruct s as [|c s].
  - destruct old; [congruence | discriminate].
  - fold (replace (c :: s) old new). rewrite replace_cons, H, replace_from_skip.
    destruct old as [|a old]; [congruence|]. simpl.
    rewrite Nat.sub_0_r. reflexivity.
Qed.

Lemma replace_miss c s old new :
  startswith (c :: s) old = false ->
  replace (c :: s) old new = c :: replace s old new.
Proof. intros H. rewrite replace_cons, H. reflexivity. Qed.

(** Without an occurrence nothing changes. *)
Lemma replace_absent s old new :
  contains s old = false -> replace s old new = s.
Proof.
  induction s as [|c s IH]; intros H; [reflexivity|].
  apply contains_false_cons in H. destruct H as [H1 H2].
  rewrite (replace_miss _ _ _ _ H1), (IH H2). reflexivity.
Qed.

Lemma startswith_nil s : startswith s [] = true.
Proof. destruct s; reflexivity. Qed.

Lemma startswith_char c s x : startswith (c :: s) [x] = (c =? x)%N.
Proof. simpl. rewrite startswith_nil. apply andb_true_r. Qed.

(** Replacing one character by another is a map. *)
Lemma replace_char s x y :
  replace s [x] [y] = map (fun c => if (c =? x)%N then y else c) s.
Proof.
  induction s as [|c s IH]; [reflexivity|].
  destruct (c =? x)%N eqn:E.
  - rewrite replace_hit; [|discriminate|rewrite startswith_char; exact E].
    simpl. rewrite E. f_equal. exact IH.
  - rewrite replace_miss; [|rewrite startswith_char; exact E].
    simpl. rewrite E. f_equal. exact IH.
Qed.

Lemma lit_dash_sp : lit "- " = [HYPHEN; SPACE].
Proof. reflexivity. Qed.

Lemma lit_sp_dash_sp : lit " - " = [SPACE; HYPHEN; SPACE].
Proof. reflexivity. Qed.

Lemma lit_sp_en_sp : lit " – " = [SPACE; EN_DASH; SPACE].
Proof. reflexivity. Qed.

Lemma lit_curly : lit "’" = [CURLY_APOSTROPHE].
Proof. reflexivity. Qed.

Lemma lit_apostrophe : lit "'" = [APOSTROPHE].
Proof. reflexivity. Qed.

Lemma lit_nl : lit "\n" = [LF].
Proof. reflexivity. Qed.

Lemma str_length_ind (P : str -> Prop) :
  (forall s, (forall t, length t < length s -> P t) -> P s) -> forall s, P s.
Proof.
  intros H s. remember (length s) as n eqn:E. revert s E.
  induction n as [n IH] using lt_wf_ind. intros s ->.
  apply H. intros t Ht. eapply IH; eauto.
Qed.

Lemma startswith3 a b c s x y z :
  startswith (a :: b :: c :: s) [x; y; z]
  = ((a =? x) && (b =? y) && (c =? z))%N.
Proof.
  simpl. rewrite startswith_nil, andb_true_r, andb_assoc. reflexivity.
Qed.

Lemma startswith_short s p : length s < length p -> startswith s p = false.
Proof.
  revert s. induction p as [|a p IH]; intros s H; [simpl in H; lia|].
  destruct s as [|c s]; [reflexivity|]. simpl in *.
  rewrite IH by lia. apply andb_false_r.
Qed.

Lemma replace_en_dash s :
  replace s (lit " - ") (lit " – ") = en_dash_separators s.
Proof.
  rewrite lit_sp_dash_sp, lit_sp_en_sp.
  induction s as [s IH] using str_length_ind.
  destruct s as [|a [|b [|c s3]]].
  - reflexivity.
  - rewrite replace_miss by (apply startswith_short; simpl; lia). reflexivity.
  - rewrite replace_miss by (apply startswith_short; simpl; lia).
    rewrite replace_miss by (apply startswith_short; simpl; lia). reflexivity.
  - destruct (startswith (a :: b :: c :: s3) [SPACE; HYPHEN; SPACE]) eqn:E.
    + rewrite replace_hit by (discriminate || exact E).
      rewrite startswith3 in E. simpl en_dash_separators. rewrite E.
      simpl skipn. rewrite IH by (simpl; lia). reflexivity.
    + rewrite (replace_miss _ _ _ _ E), IH by (simpl; lia).
      rewrite startswith3 in E.
      change (en_dash_separators (a :: b :: c :: s3)) with
        (if ((a =? SPACE) && (b =? HYPHEN) && (c =? SPACE))%N
         then SPACE :: EN_DASH :: SPACE :: en_dash_separators s3
         else a :: en_dash_separators (b :: c :: s3)).
      rewrite E. reflexivity.
Qed.

Lemma replace_apostrophe s :
  replace s (lit "’") (lit "'") = straight_apostrophes s.
Proof. rewrite lit_curly, lit_apostrophe. apply replace_char. Qed.

(** ** The rewrites keep a line tidy

    Both rewrites exchange characters one for one, and neither the
    characters they remove nor the ones they put in are white space or line
    boundaries. *)

Lemma tame_refl c : tame c c.
Proof. split; reflexivity. Qed.

Lemma en_dash_separators_tame (s : str) : Forall2 tame s (en_dash_separators s).
Proof.
  induction s as [s IH] using str_length_ind.
  destruct s as [|a [|b [|c s3]]].
  - constructor.
  - repeat constructor.
  - repeat constructor.
  - change (en_dash_separators (a :: b :: c :: s3)) with
      (if ((a =? SPACE) && (b =? HYPHEN) && (c =? SPACE))%N
       then SPACE :: EN_DASH :: SPACE :: en_dash_separators s3
       else a :: en_dash_separators (b :: c :: s3)).
    destruct ((a =? SPACE) && (b =? HYPHEN) && (c =? SPACE))%N eqn:E.
    + bool_arith. subst.
      repeat (constructor; [split; reflexivity|]).
      apply IH. simpl. lia.
    + constructor; [apply tame_refl|]. apply IH. simpl. lia.
Qed.

Lemma straight_apostrophes_tame s : Forall2 tame s (straight_apostrophes s).
Proof.
  induction s as [|c s IH]; simpl; constructor; [|exact IH].
  destruct (N.eqb_spec c CURLY_APOSTROPHE) as [->|_];
    [split; reflexivity | apply tame_refl].
Qed.

Lemma Forall2_rev {A B} (R : A -> B -> Prop) x y :
  Forall2 R x y -> Forall2 R (rev x) (rev y).
Proof.
  induction 1; simpl; [constructor|].
  apply Forall2_app; [assumption | repeat constructor; assumption].
Qed.

Lemma tame_head_ok x y : Forall2 tame x y -> head_ok x -> head_ok y.
Proof.
  destruct 1 as [|c c' x y [Hs _] _]; simpl; [auto|]. congruence.
Qed.

Lemma tame_nolb x y : Forall2 tame x y -> nolb x -> nolb y.
Proof.
  induction 1 as [|c c' x y [_ Hb] _ IH]; intros H; [constructor|].
  inversion H; subst. constructor; [congruence | apply IH; assumption].
Qed.

Lemma tame_tidy x y : Forall2 tame x y -> tidy x -> tidy y.
Proof.
  intros F (Hn & Hh & Hl & Hb). split; [|split; [|split]].
  - destruct F; congruence.
  - eapply tame_head_ok; eauto.
  - unfold last_ok in *. eapply tame_head_ok; [apply Forall2_rev|]; eauto.
  - eapply tame_nolb; eauto.
Qed.

Lemma canonical_tidy b : tidy b -> tidy (canonical b).
Proof.
  intros H. unfold canonical.
  eapply tame_tidy; [apply straight_apostrophes_tame|].
  eapply tame_tidy; [apply en_dash_separators_tame | exact H].
Qed.

Lemma straight_apostrophes_idempotent s :
  straight_apostrophes (straight_apostrophes s) = straight_apostrophes s.
Proof.
  induction s as [|c s IH]; simpl; [reflexivity|]. f_equal; [|exact IH].
  destruct (N.eqb_spec c CURLY_APOSTROPHE); [reflexivity|].
  destruct (N.eqb_spec c CURLY_APOSTROPHE); congruence.
Qed.

Lemma en_dash_separators_absent b : dash_free b -> en_dash_separators b = b.
Proof.
  intros H. rewrite <- replace_en_dash. apply replace_absent, H.
Qed.

(** A bullet that is already in canonical form stays as it is. *)
Lemma canonical_fixed b :
  dash_free b -> straight_apostrophes b = b -> canonical b = b.
Proof.
  intros H1 H2. unfold canonical. rewrite (en_dash_separators_absent H1).
  exact H2.
Qed.

Lemma bullet_step_eq bullets l :
  Gemini.bullet_step bullets l
  = if is_bullet l then bullets ++ [bullet_text l] else bullets.
Proof.
  unfold Gemini.bullet_step, is_bullet, bullet_text, canonical.
  rewrite replace_en_dash, replace_apostrophe. reflexivity.
Qed.

(** The bullet loop is a filter followed by a map. *)
Lemma collect_bullets_eq lines :
  Gemini.collect_bullets lines = map bullet_text (filter is_bullet lines).
Proof.
  unfold Gemini.collect_bullets.
  assert (G : forall acc, fold_left Gemini.bullet_step lines acc
                          = acc ++ map bullet_text (filter is_bullet lines)).
  { induction lines as [|l lines IH]; intros acc; simpl.
    - symmetry. apply app_nil_r.
    - rewrite IH, bullet_step_eq. destruct (is_bullet l); [|reflexivity].
      rewrite <- app_assoc. reflexivity. }
  apply (G []).
Qed.

Lemma is_bullet_inv l : is_bullet l = true -> l = HYPHEN :: SPACE :: skipn 2 l.
Proof.
  unfold is_bullet. rewrite lit_dash_sp. intros H.
  apply startswith_true in H. exact H.
Qed.

Lemma bullet_text_tidy l : tidy l -> is_bullet l = true -> tidy (bullet_text l).
Proof.
  intros (Hn & Hh & Hl & Hb) H. apply is_bullet_inv in H.
  revert H. generalize (skipn 2 l). intros r ->.
  change (bullet_text (HYPHEN :: SPACE :: r)) with (canonical (strip r)).
  assert (Hr : r <> []).
  { intros E. rewrite E in Hl. unfold last_ok in Hl. simpl in Hl. discriminate. }
  assert (Hlr : last_ok r).
  { apply last_ok_cons with (c := SPACE); [exact Hr|].
    apply last_ok_cons with (c := HYPHEN); [discriminate | exact Hl]. }
  apply canonical_tidy.
  destruct (strip_ends r) as [H1 H2].
  split; [|split; [|split]]; try assumption.
  - apply nonempty_true. rewrite strip_nonempty. apply last_ok_ink; assumption.
  - apply strip_Forall. inversion Hb as [|? ? _ Hb1]; subst.
    inversion Hb1; subst. assumption.
Qed.

Lemma bullet_line_eq b : Gemini.bullet_line b = HYPHEN :: SPACE :: b.
Proof. reflexivity. Qed.

Lemma bullet_line_tidy b : tidy b -> tidy (Gemini.bullet_line b).
Proof.
  intros (Hn & Hh & Hl & Hb). rewrite bullet_line_eq.
  split; [|split; [|split]].
  - discriminate.
  - reflexivity.
  - apply (last_ok_app [HYPHEN; SPACE]); assumption.
  - repeat (constructor; [reflexivity|]). exact Hb.
Qed.

Lemma is_bullet_line b : is_bullet (Gemini.bullet_line b) = true.
Proof. unfold is_bullet. rewrite lit_dash_sp. apply (startswith_app [HYPHEN; SPACE]). Qed.

Lemma bullet_text_emitted l :
  tidy l -> is_bullet l = true -> emitted (bullet_text l).
Proof.
  intros H1 H2. split; [apply bullet_text_tidy; assumption|].
  apply straight_apostrophes_idempotent.
Qed.

Lemma collect_bullets_emitted lines :
  Forall tidy lines -> Forall emitted (Gemini.collect_bullets lines).
Proof.
  intros H. rewrite collect_bullets_eq. apply Forall_forall. intros b Hb.
  apply in_map_iff in Hb. destruct Hb as [l [<- Hl]].
  apply filter_In in Hl. destruct Hl as [Hl Hd].
  rewrite Forall_forall in H. apply bullet_text_emitted; auto.
Qed.

Lemma sentinel_emitted : emitted Gemini.SENTINEL.
Proof.
  split; [|reflexivity]. split; [|split; [|split]].
  - discriminate.
  - reflexivity.
  - reflexivity.
  - vm_compute. repeat constructor.
Qed.

Lemma sentinel_dash_free : dash_free Gemini.SENTINEL.
Proof. reflexivity. Qed.

(** ** Slices *)

Lemma slice_to_nonneg {A} (l : list A) n :
  (0 <= n)%Z -> slice_to l n = firstn (Z.to_nat n) l.
Proof.
  intros H. unfold slice_to. destruct (Z.ltb_spec n 0); [lia | reflexivity].
Qed.

Lemma slice_to_prefix {A} (l : list A) n : exists t, l = slice_to l n ++ t.
Proof.
  unfold slice_to. destruct (n <? 0)%Z; eexists; symmetry; apply firstn_skipn.
Qed.

Lemma slice_to_Forall {A} (P : A -> Prop) l n :
  Forall P l -> Forall P (slice_to l n).
Proof.
  intros H. destruct (slice_to_prefix l n) as [t E]. rewrite E in H.
  apply Forall_app in H. tauto.
Qed.

Lemma slice_to_length {A} (l : list A) n :
  (0 <= n)%Z -> (Z.of_nat (length (slice_to l n)) <= n)%Z.
Proof.
  intros H. rewrite slice_to_nonneg, length_firstn by assumption. lia.
Qed.

(** * The normaliser of langchain_gemini_agent.py *)

Section Normaliser.
Context {U : UnicodeData}.

Lemma format_guard_blank s n : blank s -> Gemini.format_guard s n = s.
Proof. unfold blank, Gemini.format_guard. intros ->. reflexivity. Qed.

Lemma format_guard_shape s n :
  ~ blank s -> Gemini.format_guard s n = join [LF] (output_lines s n).
Proof.
  unfold blank, Gemini.format_guard, output_lines, price_of, bullets_of.
  intros H. destruct (Gemini.lines_of s); [congruence|]. reflexivity.
Qed.

Lemma select_price_In lines :
  lines <> [] -> In (Gemini.select_price lines) lines.
Proof.
  intros H. unfold Gemini.select_price.
  destruct (List.find Gemini.PRICE_RE_match lines) eqn:E.
  - apply find_some in E. tauto.
  - destruct lines; [congruence | left; reflexivity].
Qed.

Lemma price_of_tidy s : ~ blank s -> tidy (price_of s).
Proof.
  intros H. pose proof (lines_of_tidy s) as T. rewrite Forall_forall in T.
  apply T, select_price_In, H.
Qed.

Lemma clamp_bullets_emitted bs n :
  Forall emitted bs -> Forall emitted (Gemini.clamp_bullets bs n).
Proof.
  intros H. unfold Gemini.clamp_bullets. apply slice_to_Forall.
  destruct (nonempty bs); [exact H|]. constructor; [apply sentinel_emitted|constructor].
Qed.

Lemma bullets_of_emitted s n : Forall emitted (bullets_of s n).
Proof.
  apply clamp_bullets_emitted, collect_bullets_emitted, lines_of_tidy.
Qed.

Lemma output_lines_tidy s n : ~ blank s -> Forall tidy (output_lines s n).
Proof.
  intros H. constructor; [apply price_of_tidy, H|].
  apply Forall_forall. intros l Hl. apply in_map_iff in Hl.
  destruct Hl as [b [<- Hb]]. apply bullet_line_tidy.
  pose proof (bullets_of_emitted s n) as E. rewrite Forall_forall in E.
  apply E, Hb.
Qed.

(** The text [format_guard] returns reads back as the lines it was built
    from. *)
Lemma lines_of_format_guard s n :
  ~ blank s -> Gemini.lines_of (Gemini.format_guard s n) = output_lines s n.
Proof.
  intros H. rewrite (format_guard_shape n H).
  apply lines_of_join, output_lines_tidy, H.
Qed.

Lemma splitlines_format_guard s n :
  ~ blank s -> splitlines (Gemini.format_guard s n) = output_lines s n.
Proof.
  intros H. rewrite (format_guard_shape n H). apply splitlines_join.
  eapply Forall_impl; [|apply output_lines_tidy, H].
  intros l (Hn & _ & _ & Hb). tauto.
Qed.

Lemma PRICE_RE_match_dollar l :
  Gemini.PRICE_RE_match l = true -> exists r, l = DOLLAR :: r.
Proof.
  destruct l as [|c0 [|c1 r]]; simpl; try discriminate.
  intros H. bool_arith. subst. eauto.
Qed.

Lemma bullet_line_not_price b :
  Gemini.PRICE_RE_match (Gemini.bullet_line b) = false.
Proof.
  destruct (Gemini.PRICE_RE_match (Gemini.bullet_line b)) eqn:E; [|reflexivity].
  apply PRICE_RE_match_dollar in E. destruct E as [r E].
  rewrite bullet_line_eq in E. discriminate.
Qed.

(** On its own output the price selection finds the first line again. *)
Lemma select_price_again p bs :
  Gemini.select_price (p :: map Gemini.bullet_line bs) = p.
Proof.
  unfold Gemini.select_price. cbn [List.find].
  destruct (Gemini.PRICE_RE_match p); [reflexivity|].
  assert (G : List.find Gemini.PRICE_RE_match (map Gemini.bullet_line bs) = None).
  { induction bs as [|b bs IH]; cbn [List.find map]; [reflexivity|].
    rewrite bullet_line_not_price. exact IH. }
  rewrite G. reflexivity.
Qed.

Lemma filter_bullet_lines bs :
  filter is_bullet (map Gemini.bullet_line bs) = map Gemini.bullet_line bs.
Proof.
  induction bs as [|b bs IH]; cbn [filter map]; [reflexivity|].
  rewrite is_bullet_line. f_equal. exact IH.
Qed.

Lemma bullet_text_line b :
  emitted b -> dash_free b -> bullet_text (Gemini.bullet_line b) = b.
Proof.
  intros [T E] D. unfold bullet_text. rewrite bullet_line_eq. simpl skipn.
  rewrite (tidy_strip T). apply canonical_fixed; assumption.
Qed.

(** Bullets read back from the normaliser's own bullet lines. *)
Lemma collect_bullets_again bs :
  Forall emitted bs -> Forall dash_free bs ->
  Gemini.collect_bullets (map Gemini.bullet_line bs) = bs.
Proof.
  intros HE HD. rewrite collect_bullets_eq, filter_bullet_lines, map_map.
  rewrite <- (map_id bs) at 2. apply map_ext_in. intros b Hb.
  rewrite Forall_forall in HE, HD. apply bullet_text_line; auto.
Qed.

Lemma clamp_bullets_nonneg bs n :
  (0 <= n)%Z ->
  Gemini.clamp_bullets bs n
  = firstn (Z.to_nat n) (if nonempty bs then bs else [Gemini.SENTINEL]).
Proof. intros H. unfold Gemini.clamp_bullets. apply slice_to_nonneg, H. Qed.

(** Clamping what was clamped changes nothing, for a bound that is not
    negative. *)
Lemma clamp_bullets_again bs n :
  (0 <= n)%Z ->
  Gemini.clamp_bullets (Gemini.clamp_bullets bs n) n = Gemini.clamp_bullets bs n.
Proof.
  intros H. rewrite (clamp_bullets_nonneg bs H).
  set (src := if nonempty bs then bs else [Gemini.SENTINEL]).
  assert (Hs : src <> []) by (unfold src; destruct bs; discriminate).
  rewrite clamp_bullets_nonneg by assumption.
  destruct (firstn (Z.to_nat n) src) as [|b r] eqn:E.
  - simpl. destruct (Z.to_nat n); [reflexivity|].
    destruct src; [congruence | discriminate].
  - simpl nonempty. cbv iota. rewrite <- E. apply firstn_all2.
    rewrite length_firstn. lia.
Qed.

End Normaliser.

(** ** Idempotence (C1) *)

Section Idempotence.
Context {U : UnicodeData}.

Lemma collect_bullets_skip p ls :
  is_bullet p = false ->
  Gemini.collect_bullets (p :: ls) = Gemini.collect_bullets ls.
Proof.
  intros H. rewrite !collect_bullets_eq. cbn [filter]. rewrite H. reflexivity.
Qed.

Lemma output_not_blank s n : ~ blank s -> ~ blank (Gemini.format_guard s n).
Proof.
  intros H. unfold blank. rewrite (lines_of_format_guard n H). discriminate.
Qed.

(** C1, as amended: for a bound that is not negative, when the line chosen
    as the price is not itself a dash-prefixed line and no emitted bullet
    still contains a space-hyphen-space, normalising the normaliser's
    output gives that output back. *)
Theorem format_guard_idempotent_on_canonical s n :
  (0 <= n)%Z ->
  is_bullet (price_of s) = false ->
  Forall dash_free (bullets_of s n) ->
  Gemini.format_guard (Gemini.format_guard s n) n = Gemini.format_guard s n.
Proof.
  intros Hn Hp Hd.
  destruct (Gemini.lines_of s) as [|l0 ls0] eqn:E.
  - rewrite !(format_guard_blank n E). reflexivity.
  - assert (NB : ~ blank s) by (unfold blank; congruence).
    rewrite (format_guard_shape n (output_not_blank n NB)).
    rewrite (format_guard_shape n NB) at 2. f_equal.
    unfold output_lines at 1, price_of at 1, bullets_of at 1.
    rewrite (lines_of_format_guard n NB). unfold output_lines.
    rewrite select_price_again, (@collect_bullets_skip _ _ Hp).
    rewrite collect_bullets_again; [|apply bullets_of_emitted | exact Hd].
    unfold bullets_of. rewrite (clamp_bullets_again _ Hn). reflexivity.
Qed.

End Idempotence.

Lemma format_guard_idempotent_on_canonical_witness :
  Gemini.format_guard (U := ascii_digits)
    (Gemini.format_guard (U := ascii_digits)
       (lit "$123.45\n- Title A - Host A\n- Title B - Host B") 1) 1
  = Gemini.format_guard (U := ascii_digits)
      (lit "$123.45\n- Title A - Host A\n- Title B - Host B") 1.
Proof.
  apply (@format_guard_idempotent_on_canonical ascii_digits).
  - lia.
  - vm_compute. reflexivity.
  - vm_compute. repeat constructor.
Defined.

(** C1 as stated fails: a lone dash-prefixed line is taken as the price line
    and as a bullet, so each pass adds a bullet line. *)
Lemma format_guard_not_idempotent :
  ~ exists U : UnicodeData,
      Gemini.format_guard (Gemini.format_guard (lit "- a") 2) 2
      = Gemini.format_guard (lit "- a") 2.
Proof. intros [U H]. vm_compute in H. discriminate. Qed.

(** The other two ways a second pass changes the text: an occurrence of
    space-hyphen-space that overlapped a replaced one, and a negative
    bound. *)
Example second_pass_overlap (U : UnicodeData) :
  Gemini.format_guard (lit "x\n- a - - b") 2 = lit "x\n- a – - b" /\
  Gemini.format_guard (Gemini.format_guard (lit "x\n- a - - b") 2) 2
  = lit "x\n- a – – b".
Proof. split; reflexivity. Qed.

Example second_pass_negative (U : UnicodeData) :
  Gemini.format_guard (lit "x\n- a\n- b\n- c") (-1) = lit "x\n- a\n- b" /\
  Gemini.format_guard (Gemini.format_guard (lit "x\n- a\n- b\n- c") (-1)) (-1)
  = lit "x\n- a".
Proof. split; reflexivity. Qed.

(** ** Bullet count and output shape (C3), the sentinel (C4) *)

Section Bullets.
Context {U : UnicodeData}.

Lemma has_dash_line_not_blank s : has_dash_line s -> ~ blank s.
Proof.
  unfold has_dash_line, blank. intros H E. rewrite E in H. discriminate.
Qed.

Lemma collect_bullets_nonempty lines :
  nonempty (Gemini.collect_bullets lines) = existsb is_bullet lines.
Proof.
  rewrite collect_bullets_eq.
  induction lines as [|l lines IH]; [reflexivity|]. cbn [filter existsb].
  destruct (is_bullet l); [reflexivity | exact IH].
Qed.

Lemma bullet_lines_format_guard s n :
  ~ blank s ->
  bullet_lines (Gemini.format_guard s n) = map Gemini.bullet_line (bullets_of s n).
Proof.
  intros H. unfold bullet_lines. rewrite (splitlines_format_guard n H).
  apply filter_bullet_lines.
Qed.

(** C3, as amended: for an input with a dash-prefixed line and a bound that
    is not negative, the output is the price line followed by the first
    [max_bullets] collected bullets, one per line, so the number of bullet
    lines is between 0 and [max_bullets]. *)
Theorem bullet_count_bounded s n :
  has_dash_line s -> (0 <= n)%Z ->
  let bs := firstn (Z.to_nat n) (Gemini.collect_bullets (Gemini.lines_of s)) in
  Gemini.format_guard s n = join (lit "\n") (price_of s :: map Gemini.bullet_line bs)
  /\ splitlines (Gemini.format_guard s n) = price_of s :: map Gemini.bullet_line bs
  /\ bullet_lines (Gemini.format_guard s n) = map Gemini.bullet_line bs
  /\ (0 <= Z.of_nat (length (bullet_lines (Gemini.format_guard s n))) <= n)%Z.
Proof.
  intros Hd Hn bs.
  pose proof (has_dash_line_not_blank Hd) as NB.
  assert (E : bullets_of s n = bs).
  { unfold bullets_of. rewrite (clamp_bullets_nonneg _ Hn).
    rewrite collect_bullets_nonempty. unfold has_dash_line in Hd.
    rewrite Hd. reflexivity. }
  rewrite (bullet_lines_format_guard n NB), (splitlines_format_guard n NB).
  rewrite (format_guard_shape n NB). unfold output_lines. rewrite E.
  split; [reflexivity|]. split; [reflexivity|]. split; [reflexivity|].
  rewrite length_map. unfold bs. rewrite length_firstn. lia.
Qed.

Lemma sentinel_line :
  Gemini.bullet_line Gemini.SENTINEL = lit "- No recent headlines found.".
Proof. vm_compute. reflexivity. Qed.

Lemma sentinel_line_nl :
  lit "\n- No recent headlines found."
  = [LF] ++ lit "- No recent headlines found.".
Proof. vm_compute. reflexivity. Qed.

(** C4, as amended: for an input with a non-blank line but no dash-prefixed
    line, and a bound of at least one, the bullets are exactly the
    sentinel. *)
Theorem sentinel_when_no_bullets s n :
  ~ blank s -> existsb is_bullet (Gemini.lines_of s) = false -> (1 <= n)%Z ->
  bullets_of s n = [Gemini.SENTINEL]
  /\ bullet_lines (Gemini.format_guard s n) = [lit "- No recent headlines found."]
  /\ Gemini.format_guard s n = price_of s ++ lit "\n- No recent headlines found.".
Proof.
  intros NB Hd Hn.
  assert (E : bullets_of s n = [Gemini.SENTINEL]).
  { unfold bullets_of. rewrite clamp_bullets_nonneg by lia.
    rewrite collect_bullets_nonempty, Hd.
    apply firstn_all2. cbn [length]. lia. }
  rewrite (bullet_lines_format_guard n NB), (format_guard_shape n NB).
  unfold output_lines. rewrite E. cbn [map join].
  rewrite sentinel_line, sentinel_line_nl.
  split; [reflexivity|]. split; reflexivity.
Qed.

End Bullets.

Lemma bullet_count_bounded_witness :
  (0 <= Z.of_nat
          (length (bullet_lines
                     (Gemini.format_guard (U := ascii_digits)
                        (lit "$123.45\n- Title A - Host A\n- Title B - Host B") 1)))
   <= 1)%Z.
Proof.
  assert (Hd : has_dash_line (lit "$123.45\n- Title A - Host A\n- Title B - Host B"))
    by (vm_compute; reflexivity).
  assert (Hn : (0 <= 1)%Z) by lia.
  exact (proj2 (proj2 (proj2 (@bullet_count_bounded ascii_digits _ 1 Hd Hn)))).
Defined.

Lemma sentinel_when_no_bullets_witness :
  bullet_lines (Gemini.format_guard (U := ascii_digits) (lit "The price is $5\n") 4)
  = [lit "- No recent headlines found."].
Proof.
  assert (H1 : ~ blank (lit "The price is $5\n")) by (vm_compute; discriminate).
  assert (H2 : existsb is_bullet (Gemini.lines_of (lit "The price is $5\n")) = false)
    by (vm_compute; reflexivity).
  assert (H3 : (1 <= 4)%Z) by lia.
  exact (proj1 (proj2 (@sentinel_when_no_bullets ascii_digits _ 4 H1 H2 H3))).
Defined.

(** C3 as stated fails for a negative bound: the slice then drops bullets
    from the end, and what is left is more than the bound. *)
Lemma bullet_count_exceeds_negative_bound :
  ~ exists U : UnicodeData,
      (Z.of_nat (length (bullet_lines
                           (Gemini.format_guard (lit "x\n- a\n- b\n- c") (-1))))
       <= -1)%Z.
Proof. intros [U H]. vm_compute in H. apply H. reflexivity. Qed.

(** C4 as stated fails for a bound of zero: the sentinel is clamped away. *)
Lemma sentinel_clamped_away :
  ~ exists U : UnicodeData,
      bullet_lines (Gemini.format_guard (lit "x") 0)
      = [lit "- No recent headlines found."].
Proof. intros [U H]. vm_compute in H. discriminate. Qed.

(** ** Bullet extraction and rewriting (C6) *)

(** The en-dash rewrite changes hyphens only. *)
Definition hyphen_to_dash (c c' : char) : Prop :=
  c' = c \/ (c = HYPHEN /\ c' = EN_DASH).

Lemma en_dash_separators_pointwise (s : str) :
  Forall2 hyphen_to_dash s (en_dash_separators s).
Proof.
  induction s as [s IH] using str_length_ind.
  destruct s as [|a [|b [|c s3]]].
  - constructor.
  - repeat constructor.
  - repeat constructor.
  - change (en_dash_separators (a :: b :: c :: s3)) with
      (if ((a =? SPACE) && (b =? HYPHEN) && (c =? SPACE))%N
       then SPACE :: EN_DASH :: SPACE :: en_dash_separators s3
       else a :: en_dash_separators (b :: c :: s3)).
    destruct ((a =? SPACE) && (b =? HYPHEN) && (c =? SPACE))%N eqn:E.
    + bool_arith. subst.
      constructor; [left; reflexivity|]. constructor; [right; auto|].
      constructor; [left; reflexivity|]. apply IH. simpl. lia.
    + constructor; [left; reflexivity|]. apply IH. simpl. lia.
Qed.

Lemma startswith_cons c s x p :
  startswith (c :: s) (x :: p) = (c =? x)%N && startswith s p.
Proof. reflexivity. Qed.

Lemma startswith2 a b s x y :
  startswith (a :: b :: s) [x; y] = ((a =? x) && (b =? y))%N.
Proof. simpl. rewrite startswith_nil, andb_true_r. reflexivity. Qed.

(** A hyphen followed by a space in the rewritten text was there before. *)
Lemma hyphen_space_before x y :
  Forall2 hyphen_to_dash x y ->
  startswith y [HYPHEN; SPACE] = true -> startswith x [HYPHEN; SPACE] = true.
Proof.
  intros F H. destruct F as [|a a' x y Ha F]; [discriminate|].
  destruct F as [|b b' x y Hb F].
  - rewrite startswith_short in H by (simpl; lia). discriminate.
  - rewrite startswith2 in *. bool_arith. subst.
    destruct Ha as [Ha|[_ Ha]]; [|discriminate].
    destruct Hb as [Hb|[_ Hb]]; [|discriminate]. subst. reflexivity.
Qed.

Lemma contains_cons c s sub :
  contains (c :: s) sub = startswith (c :: s) sub || contains s sub.
Proof.
  unfold contains. rewrite (find_unfold (c :: s)).
  destruct (startswith (c :: s) sub); [reflexivity|].
  destruct (find s sub); reflexivity.
Qed.

Lemma contains_short s sub : length s < length sub -> contains s sub = false.
Proof.
  revert sub. induction s as [|c s IH]; intros sub H.
  - unfold contains. rewrite find_unfold, startswith_short by exact H. reflexivity.
  - rewrite contains_cons, startswith_short by exact H.
    apply IH. simpl in H. lia.
Qed.

Lemma lit_overlap : lit " - - " = [SPACE; HYPHEN; SPACE; HYPHEN; SPACE].
Proof. reflexivity. Qed.

(** When no two occurrences overlap, the en-dash rewrite leaves no
    space-hyphen-space behind. *)
Lemma en_dash_separators_complete (s : str) :
  contains s (lit " - - ") = false -> dash_free (en_dash_separators s).
Proof.
  unfold dash_free. rewrite lit_overlap, lit_sp_dash_sp.
  induction s as [s IH] using str_length_ind. intros P.
  destruct s as [|a [|b [|c s3]]];
    try (apply contains_short; simpl; lia).
  change (en_dash_separators (a :: b :: c :: s3)) with
    (if ((a =? SPACE) && (b =? HYPHEN) && (c =? SPACE))%N
     then SPACE :: EN_DASH :: SPACE :: en_dash_separators s3
     else a :: en_dash_separators (b :: c :: s3)).
  destruct ((a =? SPACE) && (b =? HYPHEN) && (c =? SPACE))%N eqn:E.
  - assert (T : a = SPACE /\ b = HYPHEN /\ c = SPACE) by (bool_arith; auto).
    destruct T as (-> & -> & ->).
    apply contains_false_cons in P. destruct P as [P0 P].
    apply contains_false_cons in P. destruct P as [_ P].
    apply contains_false_cons in P. destruct P as [_ P].
    pose proof (IH s3 ltac:(simpl; lia) P) as Q.
    pose proof (en_dash_separators_pointwise s3) as F.
    rewrite !contains_cons, Q, !startswith_cons.
    change (EN_DASH =? HYPHEN)%N with false.
    change (EN_DASH =? SPACE)%N with false.
    change (SPACE =? SPACE)%N with true. cbn [andb orb].
    rewrite orb_false_r.
    destruct (startswith (en_dash_separators s3) [HYPHEN; SPACE]) eqn:K;
      [|reflexivity].
    apply (hyphen_space_before F) in K.
    rewrite !startswith_cons in P0.
    change (SPACE =? SPACE)%N with true in P0.
    change (HYPHEN =? HYPHEN)%N with true in P0. cbn [andb] in P0.
    congruence.
  - apply contains_false_cons in P. destruct P as [_ P].
    pose proof (IH (b :: c :: s3) ltac:(simpl; lia) P) as Q.
    pose proof (en_dash_separators_pointwise (b :: c :: s3)) as F.
    rewrite contains_cons, Q, orb_false_r, startswith_cons.
    destruct (startswith (en_dash_separators (b :: c :: s3)) [HYPHEN; SPACE])
      eqn:K; [|apply andb_false_r].
    apply (hyphen_space_before F) in K. rewrite startswith2 in K.
    rewrite <- andb_assoc, K, andb_true_r in E. rewrite E. reflexivity.
Qed.

Lemma straight_apostrophes_startswith (s : str) :
  startswith (straight_apostrophes s) [SPACE; HYPHEN; SPACE]
  = startswith s [SPACE; HYPHEN; SPACE].
Proof.
  destruct s as [|a [|b [|c r]]];
    try (rewrite !startswith_short by (simpl; lia); reflexivity).
  cbn [straight_apostrophes map]. rewrite !startswith3.
  destruct (N.eqb_spec a CURLY_APOSTROPHE) as [->|_];
    destruct (N.eqb_spec b CURLY_APOSTROPHE) as [->|_];
    destruct (N.eqb_spec c CURLY_APOSTROPHE) as [->|_];
    try reflexivity;
    repeat match goal with
           | |- context [(?x =? ?y)%N] =>
               is_var x; destruct (N.eqb_spec x y); subst
           end; reflexivity.
Qed.

Lemma straight_apostrophes_dash_free (s : str) :
  dash_free s -> dash_free (straight_apostrophes s).
Proof.
  unfold dash_free. rewrite lit_sp_dash_sp.
  induction s as [|c s IH]; intros H; [reflexivity|].
  apply contains_false_cons in H. destruct H as [H0 H].
  change (straight_apostrophes (c :: s))
    with ((if (c =? CURLY_APOSTROPHE)%N then APOSTROPHE else c)
            :: straight_apostrophes s).
  rewrite contains_cons, (IH H), orb_false_r.
  rewrite <- H0, <- (straight_apostrophes_startswith (c :: s)). reflexivity.
Qed.

Lemma straight_apostrophes_no_curly (s : str) :
  ~ In CURLY_APOSTROPHE (straight_apostrophes s).
Proof.
  induction s as [|c s IH]; simpl; [tauto|]. intros [H|H]; [|tauto].
  destruct (N.eqb_spec c CURLY_APOSTROPHE); [discriminate | congruence].
Qed.

(** C6, as amended: the bullets are the trimmed lines that begin with the
    dash marker, in their order, each with the marker cut off and the rest
    trimmed again, every space-hyphen-space (taken left to right, without
    overlap) turned into space-en-dash-space, and every curly apostrophe
    turned into a straight one.  No bullet keeps a curly apostrophe, and a
    bullet keeps a space-hyphen-space only where two of them overlapped. *)
Theorem bullets_extracted s :
  Gemini.collect_bullets (Gemini.lines_of s)
  = map (fun l => straight_apostrophes (en_dash_separators (strip (skipn 2 l))))
        (filter (fun l => startswith l (lit "- ")) (Gemini.lines_of s))
  /\ Forall (fun b => ~ In CURLY_APOSTROPHE b)
            (Gemini.collect_bullets (Gemini.lines_of s))
  /\ (forall l,
        In l (Gemini.lines_of s) -> startswith l (lit "- ") = true ->
        contains (strip (skipn 2 l)) (lit " - - ") = false ->
        contains (straight_apostrophes (en_dash_separators (strip (skipn 2 l))))
                 (lit " - ") = false).
Proof.
  split; [apply collect_bullets_eq|]. split.
  - rewrite collect_bullets_eq. apply Forall_forall. intros b Hb.
    apply in_map_iff in Hb. destruct Hb as [l [<- _]].
    apply straight_apostrophes_no_curly.
  - intros l _ _ H.
    apply straight_apostrophes_dash_free, en_dash_separators_complete, H.
Qed.

(** C6 as stated fails: after the marker the code trims once more, so white
    space that follows the marker does not reach the bullet. *)
Lemma bullets_trimmed_after_marker :
  Gemini.collect_bullets (Gemini.lines_of (lit "-  x"))
  <> bullets_as_stated (Gemini.lines_of (lit "-  x")).
Proof. vm_compute. discriminate. Qed.

(** An occurrence that overlaps a replaced one stays. *)
Example overlapping_separator :
  Gemini.collect_bullets (Gemini.lines_of (lit "- a - - b")) = [lit "a – - b"].
Proof. reflexivity. Qed.

Example curly_apostrophe :
  Gemini.collect_bullets (Gemini.lines_of (lit "- Company’s growth"))
  = [lit "Company's growth"].
Proof. reflexivity. Qed.

(** ** Price-line selection (C5) *)

Section PriceLine.
Context {U : UnicodeData}.

Lemma dropwhile_split f s :
  exists g, s = g ++ dropwhile f s /\ forallb f g = true.
Proof.
  induction s as [|c s [g [E F]]]; simpl; [exists []; auto|].
  destruct (f c) eqn:Hc; [|exists []; auto].
  exists (c :: g). simpl. rewrite Hc, F. split; [f_equal; exact E | reflexivity].
Qed.

Lemma dropwhile_app_all f g r :
  forallb f g = true -> dropwhile f (g ++ r) = dropwhile f r.
Proof.
  induction g as [|c g IH]; simpl; [reflexivity|]. intros H.
  apply andb_true_iff in H. destruct H as [Hc Hg]. rewrite Hc. exact (IH Hg).
Qed.

Lemma PRICE_RE_match_eq c0 c1 r :
  Gemini.PRICE_RE_match (c0 :: c1 :: r)
  = (c0 =? DOLLAR)%N && isdecimal c1 && price_tail r.
Proof. reflexivity. Qed.

Lemma price_tail_end nl : nl = [] \/ nl = [LF] -> price_tail nl = true.
Proof.
  intros [->| ->]; [reflexivity|]. unfold price_tail. simpl.
  destruct (digit_or_comma LF); simpl; [reflexivity|].
  destruct (isdecimal LF); reflexivity.
Qed.

Lemma price_tail_digits f nl :
  forallb isdecimal f = true -> nl = [] \/ nl = [LF] -> price_tail (f ++ nl) = true.
Proof.
  intros Hf Hnl. pose proof (price_tail_end Hnl) as E. unfold price_tail in *.
  rewrite dropwhile_app_all; [exact E|].
  clear -Hf. induction f as [|c f IH]; simpl in *; [reflexivity|].
  apply andb_true_iff in Hf. destruct Hf as [Hc Hf].
  unfold digit_or_comma at 1. rewrite Hc. simpl. exact (IH Hf).
Qed.

Lemma price_tail_cons c r :
  price_tail (c :: r)
  = if digit_or_comma c then price_tail r
    else Gemini.at_end (dropwhile isdecimal (if (c =? DOT)%N then r else c :: r)).
Proof.
  unfold price_tail. simpl. destruct (digit_or_comma c); reflexivity.
Qed.

Lemma at_end_after_digits nl :
  nl = [] \/ nl = [LF] -> Gemini.at_end (dropwhile isdecimal nl) = true.
Proof.
  intros [->| ->]; simpl; [reflexivity|]. destruct (isdecimal LF); reflexivity.
Qed.

Lemma price_tail_dot f nl :
  forallb isdecimal f = true -> nl = [] \/ nl = [LF] ->
  price_tail (DOT :: f ++ nl) = true.
Proof.
  intros Hf Hnl. rewrite price_tail_cons.
  destruct (digit_or_comma DOT); [apply price_tail_digits; assumption|].
  rewrite N.eqb_refl, dropwhile_app_all by exact Hf.
  apply at_end_after_digits, Hnl.
Qed.

Lemma price_tail_group g r :
  forallb digit_or_comma g = true -> price_tail r = true ->
  price_tail (g ++ r) = true.
Proof.
  intros Hg E. unfold price_tail in *. rewrite dropwhile_app_all by exact Hg.
  exact E.
Qed.

Lemma at_end_inv s : Gemini.at_end s = true -> s = [] \/ s = [LF].
Proof.
  destruct s as [|c [|c' s]]; simpl; try discriminate; [auto|].
  intros H. apply N.eqb_eq in H. subst. auto.
Qed.

(** The matcher accepts exactly the pattern's language, with the line feed
    that [$] tolerates at the very end. *)
Lemma PRICE_RE_match_spec l :
  Gemini.PRICE_RE_match l = true <->
  (is_price_line l \/ exists l', l = l' ++ [LF] /\ is_price_line l').
Proof.
  split.
  - destruct l as [|c0 [|c1 r]]; try discriminate.
    rewrite PRICE_RE_match_eq. intros H.
    apply andb_true_iff in H. destruct H as [H Ht].
    apply andb_true_iff in H. destruct H as [H0 H1].
    apply N.eqb_eq in H0. subst c0. unfold price_tail in Ht.
    destruct (dropwhile_split digit_or_comma r) as [g [Eg Fg]].
    set (r1 := dropwhile digit_or_comma r) in *.
    assert (P : exists p r2, r1 = p ++ r2 /\ (p = [] \/ p = [DOT]) /\
                  Gemini.at_end (dropwhile isdecimal r2) = true).
    { destruct r1 as [|c r']; [exists [], []; auto|].
      destruct (N.eqb_spec c DOT) as [->|_].
      - exists [DOT], r'. auto.
      - exists [], (c :: r'). auto. }
    destruct P as (p & r2 & Ep & Hp & He).
    destruct (dropwhile_split isdecimal r2) as [f [Ef Ff]].
    apply at_end_inv in He.
    assert (PL : is_price_line (DOLLAR :: c1 :: g ++ p ++ f)).
    { exists c1, g, p, f. auto. }
    rewrite Eg, Ep, Ef. destruct He as [->| ->].
    + left. rewrite app_nil_r. exact PL.
    + right. exists (DOLLAR :: c1 :: g ++ p ++ f). split; [|exact PL].
      simpl. rewrite <- !app_assoc. reflexivity.
  - assert (G : forall l nl, is_price_line l -> nl = [] \/ nl = [LF] ->
                  Gemini.PRICE_RE_match (l ++ nl) = true).
    { intros x nl (d & g & p & f & -> & Hd & Hg & Hp & Hf) Hnl.
      simpl app. rewrite PRICE_RE_match_eq, N.eqb_refl, Hd. simpl.
      rewrite <- !app_assoc. apply price_tail_group; [exact Hg|].
      destruct Hp as [->| ->]; simpl.
      - apply price_tail_digits; assumption.
      - apply price_tail_dot; assumption. }
    intros [H|[l' [-> H]]].
    + rewrite <- (app_nil_r l). apply G; auto.
    + apply G; auto.
Qed.

Lemma PRICE_RE_match_line l :
  nolb l -> (Gemini.PRICE_RE_match l = true <-> is_price_line l).
Proof.
  intros Hb. rewrite PRICE_RE_match_spec. split; [|auto].
  intros [H|[l' [-> _]]]; [exact H|].
  apply Forall_app in Hb. destruct Hb as [_ Hb]. inversion Hb; subst.
  discriminate.
Qed.

Lemma find_first {A} (f : A -> bool) l x :
  List.find f l = Some x ->
  exists pre post, l = pre ++ x :: post /\ f x = true /\
                   Forall (fun y => f y = false) pre.
Proof.
  induction l as [|a l IH]; simpl; [discriminate|].
  destruct (f a) eqn:E.
  - intros H. inversion H; subst. exists [], l. auto.
  - intros H. destruct (IH H) as (pre & post & -> & Hx & Hp).
    exists (a :: pre), post. auto.
Qed.

Lemma find_none_Forall {A} (f : A -> bool) l :
  List.find f l = None -> Forall (fun y => f y = false) l.
Proof.
  intros H. apply Forall_forall. intros y Hy. eapply find_none; eauto.
Qed.

Lemma not_price_line l : nolb l -> Gemini.PRICE_RE_match l = false -> ~ is_price_line l.
Proof.
  intros Hb H P. apply (PRICE_RE_match_line Hb) in P. congruence.
Qed.

(** C5: for an input with a non-blank line, the first line of the output is
    the first trimmed non-empty input line in the pattern's language, and
    the first trimmed non-empty input line when no line is in it. *)
Theorem price_line_selected s n :
  ~ blank s ->
  exists p rest,
    splitlines (Gemini.format_guard s n) = p :: rest /\
    ((exists pre post,
        Gemini.lines_of s = pre ++ p :: post /\
        is_price_line p /\
        Forall (fun l => ~ is_price_line l) pre)
     \/
     (Forall (fun l => ~ is_price_line l) (Gemini.lines_of s) /\
      exists post, Gemini.lines_of s = p :: post)).
Proof.
  intros NB. exists (price_of s), (map Gemini.bullet_line (bullets_of s n)).
  split; [apply (splitlines_format_guard n NB)|].
  pose proof (lines_of_tidy s) as T.
  assert (B : Forall nolb (Gemini.lines_of s)).
  { eapply Forall_impl; [|exact T]. intros l (_ & _ & _ & Hb). exact Hb. }
  unfold price_of, Gemini.select_price.
  destruct (List.find Gemini.PRICE_RE_match (Gemini.lines_of s)) as [x|] eqn:E.
  - left. destruct (find_first _ _ E) as (pre & post & El & Hx & Hp).
    exists pre, post. rewrite El in B. apply Forall_app in B.
    destruct B as [Bpre Bx]. inversion Bx; subst.
    split; [exact El|]. split; [apply PRICE_RE_match_line; assumption|].
    rewrite Forall_forall in *. intros l Hl. apply not_price_line; auto.
  - right. apply find_none_Forall in E. split.
    + rewrite Forall_forall in *. intros l Hl. apply not_price_line; auto.
    + unfold blank in NB. destruct (Gemini.lines_of s); [congruence|].
      eexists. reflexivity.
Qed.

End PriceLine.

Lemma price_line_selected_witness :
  exists p rest,
    splitlines (Gemini.format_guard (U := ascii_digits)
                  (lit "NVDA latest\n$1,234.50\n- A - b\n$7") 4) = p :: rest /\
    ((exists pre post,
        Gemini.lines_of (lit "NVDA latest\n$1,234.50\n- A - b\n$7")
        = pre ++ p :: post /\
        is_price_line (U := ascii_digits) p /\
        Forall (fun l => ~ is_price_line (U := ascii_digits) l) pre)
     \/
     (Forall (fun l => ~ is_price_line (U := ascii_digits) l)
             (Gemini.lines_of (lit "NVDA latest\n$1,234.50\n- A - b\n$7")) /\
      exists post,
        Gemini.lines_of (lit "NVDA latest\n$1,234.50\n- A - b\n$7") = p :: post)).
Proof.
  apply (@price_line_selected ascii_digits).
  vm_compute. discriminate.
Defined.

Example price_line_first_match :
  Gemini.format_guard (U := ascii_digits)
    (lit "NVDA latest\n$1,234.50\n- A - b\n$7") 4
  = lit "$1,234.50\n- A – b".
Proof. vm_compute. reflexivity. Qed.

Example price_line_fallback :
  Gemini.format_guard (U := ascii_digits) (lit "about 12 dollars\n- A - b") 4
  = lit "about 12 dollars\n- A – b".
Proof. vm_compute. reflexivity. Qed.

(** ** Structured projection (C2) *)

Lemma headline_step_eq hs l :
  Gemini.headline_step hs l = if is_bullet l then hs ++ [headline_of l] else hs.
Proof.
  unfold Gemini.headline_step, is_bullet, headline_of.
  destruct (startswith l (lit "- ")); [|reflexivity].
  destruct (contains (strip (skipn 2 l)) (lit " – ")); [|reflexivity].
  destruct (split_once (strip (skipn 2 l)) (lit " – ")) as [[t h]|]; reflexivity.
Qed.

Lemma headlines_eq lines :
  fold_left Gemini.headline_step lines []
  = map headline_of (filter is_bullet lines).
Proof.
  assert (G : forall acc, fold_left Gemini.headline_step lines acc
                          = acc ++ map headline_of (filter is_bullet lines)).
  { induction lines as [|l lines IH]; intros acc; cbn [fold_left filter].
    - symmetry. apply app_nil_r.
    - rewrite IH, headline_step_eq. destruct (is_bullet l); [|reflexivity].
      cbn [map]. rewrite <- app_assoc. reflexivity. }
  apply (G []).
Qed.

Lemma strip_nil : strip [] = [].
Proof. reflexivity. Qed.

Lemma headline_round_trip b :
  tidy b -> tight b -> headline_line (headline_of (Gemini.bullet_line b))
                       = Gemini.bullet_line b.
Proof.
  intros T Ht. unfold headline_of. rewrite bullet_line_eq. cbn [skipn].
  rewrite (tidy_strip T). unfold tight in Ht. unfold contains, split_once in *.
  destruct (find b (lit " – ")) as [i|] eqn:F.
  - apply find_Some in F. destruct F as [Eb _]. revert Ht Eb.
    generalize (firstn i b) (skipn (i + length (lit " – ")) b).
    intros t h [Et Eh] Eb. rewrite Et, Eh.
    unfold headline_line. cbn [Gemini.title Gemini.host].
    destruct h as [|c h].
    + exfalso. destruct T as (_ & _ & Hl & _). rewrite Eb in Hl.
      unfold last_ok in Hl. rewrite lit_sp_en_sp, !rev_app_distr in Hl.
      simpl in Hl. discriminate.
    + cbn [nonempty]. rewrite lit_dash_sp, Eb. reflexivity.
  - unfold headline_line. cbn [Gemini.title Gemini.host].
    rewrite (tidy_strip T), strip_nil. cbn [nonempty].
    rewrite app_nil_r. reflexivity.
Qed.

Section Projection.
Context {U : UnicodeData}.

(** C2, as amended: for an input with a non-blank line whose emitted
    bullets are tight, projecting the normalised text and flattening the
    projection again gives back the lines of the normalised text. *)
Theorem projection_round_trip s n :
  ~ blank s ->
  Forall tight (bullets_of s n) ->
  reflatten (Gemini.to_json (Gemini.format_guard s n))
  = Gemini.lines_of (Gemini.format_guard s n).
Proof.
  intros NB Ht. unfold Gemini.to_json, reflatten. cbn [Gemini.price Gemini.headlines].
  rewrite (lines_of_format_guard n NB). unfold output_lines. cbn [tl].
  f_equal. rewrite headlines_eq, filter_bullet_lines, !map_map.
  apply map_ext_in. intros b Hb.
  pose proof (bullets_of_emitted s n) as E. rewrite Forall_forall in E, Ht.
  apply headline_round_trip; [apply E, Hb | apply Ht, Hb].
Qed.

End Projection.

Lemma projection_round_trip_witness :
  reflatten (Gemini.to_json
               (Gemini.format_guard (U := ascii_digits)
                  (lit "$123.45\n- Title A - Host A\n- Title B - Host B") 4))
  = Gemini.lines_of
      (Gemini.format_guard (U := ascii_digits)
         (lit "$123.45\n- Title A - Host A\n- Title B - Host B") 4).
Proof.
  apply (@projection_round_trip ascii_digits).
  - vm_compute. discriminate.
  - vm_compute. repeat constructor.
Defined.

(** C2 as stated fails: the projection trims title and host, so white space
    next to the separator is lost, whichever of the two flattenings is
    meant. *)
Lemma projection_loses_spacing :
  ~ exists U : UnicodeData,
      reflatten (Gemini.to_json (Gemini.format_guard (lit "x\n- a  -  b") 3))
      = Gemini.lines_of (Gemini.format_guard (lit "x\n- a  -  b") 3)
      \/
      reflatten_joined (Gemini.to_json (Gemini.format_guard (lit "x\n- a  -  b") 3))
      = Gemini.lines_of (Gemini.format_guard (lit "x\n- a  -  b") 3).
Proof. intros [U [H|H]]; vm_compute in H; discriminate. Qed.

Example projection_example :
  Gemini.to_json (lit "$1\n- Title A – Host A\n- No recent headlines found.")
  = {| Gemini.price := lit "$1";
       Gemini.headlines :=
         [ {| Gemini.title := lit "Title A"; Gemini.host := lit "Host A" |};
           {| Gemini.title := lit "No recent headlines found."; Gemini.host := [] |} ] |}.
Proof. vm_compute. reflexivity. Qed.

(** With the separator written in every line the sentinel bullet does not
    come back, and a blank input has no line to give back. *)
Example joined_sentinel (U : UnicodeData) :
  reflatten_joined (Gemini.to_json (Gemini.format_guard (lit "x") 3))
  = [lit "x"; lit "- No recent headlines found. – "]
  /\ Gemini.lines_of (Gemini.format_guard (lit "x") 3)
     = [lit "x"; lit "- No recent headlines found."].
Proof. split; vm_compute; reflexivity. Qed.

Example blank_projection (U : UnicodeData) :
  reflatten (Gemini.to_json (Gemini.format_guard (lit " ") 3)) = [[]]
  /\ Gemini.lines_of (Gemini.format_guard (lit " ") 3) = [].
Proof. split; vm_compute; reflexivity. Qed.

(** * The salvage helper of agent.py (C7) *)

Lemma splitlines_hd s : hd [] (splitlines s) = upto_linebreak s.
Proof.
  induction s as [|c s IH]; [reflexivity|]. simpl.
  destruct (islinebreak c); [reflexivity|].
  rewrite <- IH. destruct (splitlines s); reflexivity.
Qed.

Lemma find_Some_skipn s sub i :
  find s sub = Some i -> skipn i s = sub ++ skipn (i + length sub) s.
Proof.
  revert i. induction s as [|c s IH]; intros i H; rewrite find_unfold in H.
  - destruct (startswith [] sub) eqn:E; [|discriminate].
    inversion H; subst. apply startswith_true in E. exact E.
  - destruct (startswith (c :: s) sub) eqn:E.
    + inversion H; subst. apply startswith_true in E. exact E.
    + destruct (find s sub) as [k|] eqn:F; [|discriminate].
      inversion H; subst. simpl. apply IH. reflexivity.
Qed.

Lemma FINAL_RE_search_unfold t :
  Exchange.FINAL_RE_search t =
  match Exchange.FINAL_RE_at t with
  | Some g => Some g
  | None => match t with [] => None | _ :: t' => Exchange.FINAL_RE_search t' end
  end.
Proof. destruct t; reflexivity. Qed.

Lemma FINAL_RE_at_miss t :
  startswith t Exchange.FINAL_MARK = false -> Exchange.FINAL_RE_at t = None.
Proof. unfold Exchange.FINAL_RE_at. intros ->. reflexivity. Qed.

(** Without the marker the search fails. *)
Lemma FINAL_RE_search_absent t :
  find t Exchange.FINAL_MARK = None -> Exchange.FINAL_RE_search t = None.
Proof.
  induction t as [|c t IH]; intros H; apply find_None_inv in H;
    destruct H as [H1 H2]; rewrite FINAL_RE_search_unfold, (FINAL_RE_at_miss _ H1).
  - reflexivity.
  - apply IH, H2.
Qed.

(** The search goes on to the first occurrence of the marker. *)
Lemma FINAL_RE_search_first t i :
  find t Exchange.FINAL_MARK = Some i ->
  Exchange.FINAL_RE_search t = Exchange.FINAL_RE_search (skipn i t).
Proof.
  revert i. induction t as [|c t IH]; intros i H; rewrite find_unfold in H.
  - destruct (startswith [] Exchange.FINAL_MARK); [|discriminate].
    inversion H; subst. reflexivity.
  - destruct (startswith (c :: t) Exchange.FINAL_MARK) eqn:E.
    + inversion H; subst. reflexivity.
    + destruct (find t Exchange.FINAL_MARK) as [k|] eqn:F; [|discriminate].
      inversion H; subst. rewrite FINAL_RE_search_unfold, (FINAL_RE_at_miss _ E).
      simpl skipn. apply IH. reflexivity.
Qed.

Lemma skipn_takewhile_isspace s :
  skipn (length (Exchange.takewhile isspace s)) s = lstrip s.
Proof.
  induction s as [|c s IH]; [reflexivity|]. simpl.
  destruct (isspace c); [exact IH | reflexivity].
Qed.

Lemma group1_after_inked k rest :
  skipn k rest <> [] -> Exchange.group1_after k rest = Some (skipn k rest).
Proof.
  intros H.
  assert (E : Exchange.group1_after k rest =
              match skipn k rest with
              | [] => match k with
                      | S k' => Exchange.group1_after k' rest
                      | O => None
                      end
              | c :: g => Some (c :: g)
              end) by (destruct k; reflexivity).
  rewrite E. destruct (skipn k rest); [congruence | reflexivity].
Qed.

Lemma skipn_app_exact {A} (a b : list A) : skipn (length a) (a ++ b) = b.
Proof. induction a; simpl; auto. Qed.

(** At the marker, group 1 is what follows it once white space is passed. *)
Lemma FINAL_RE_at_marker rest :
  existsb ink rest = true ->
  Exchange.FINAL_RE_at (Exchange.FINAL_MARK ++ rest) = Some (lstrip rest).
Proof.
  intros H. unfold Exchange.FINAL_RE_at.
  rewrite startswith_app, skipn_app_exact, group1_after_inked;
    rewrite skipn_takewhile_isspace; [reflexivity|].
  intros E. apply lstrip_nil_iff in E. congruence.
Qed.

Lemma lstrip_idempotent s : lstrip (lstrip s) = lstrip s.
Proof. apply lstrip_fixed, head_ok_lstrip. Qed.

Lemma strip_lstrip s : strip (lstrip s) = strip s.
Proof. unfold strip. rewrite lstrip_idempotent. reflexivity. Qed.

Lemma try_extract_final_at_marker t i :
  find t Exchange.FINAL_MARK = Some i ->
  existsb ink (skipn (i + length Exchange.FINAL_MARK) t) = true ->
  Exchange.try_extract_final t
  = Exchange.Return
      (Some (strip (upto_linebreak
                      (strip (skipn (i + length Exchange.FINAL_MARK) t))))).
Proof.
  intros F H. unfold Exchange.try_extract_final.
  rewrite (FINAL_RE_search_first _ F), (find_Some_skipn _ _ F).
  rewrite FINAL_RE_search_unfold, (FINAL_RE_at_marker _ H), strip_lstrip.
  set (ans := strip (skipn (i + length Exchange.FINAL_MARK) t)).
  rewrite <- splitlines_hd.
  assert (N : splitlines ans <> []).
  { apply splitlines_nonempty, nonempty_true. unfold ans.
    rewrite strip_nonempty. exact H. }
  destruct (splitlines ans); [congruence | reflexivity].
Qed.

Lemma rstrip_app_ink a b :
  existsb ink b = true -> rstrip (a ++ b) = a ++ rstrip b.
Proof.
  intros H. unfold rstrip. rewrite rev_app_distr, lstrip_app.
  - rewrite rev_app_distr, rev_involutive. reflexivity.
  - intros E. apply lstrip_nil_iff in E. rewrite existsb_rev in E. congruence.
Qed.

Lemma rstrip_app_blank a b :
  existsb ink b = false -> rstrip (a ++ b) = rstrip a.
Proof.
  intros H. unfold rstrip. rewrite rev_app_distr, lstrip_all_space; [reflexivity|].
  apply lstrip_nil_iff. rewrite existsb_rev. exact H.
Qed.

Lemma rstrip_head c r :
  existsb ink (c :: r) = true -> exists r', rstrip (c :: r) = c :: r'.
Proof.
  intros H. destruct (rstrip_prefix (c :: r)) as [t [E _]].
  destruct (rstrip (c :: r)) as [|d r'] eqn:F.
  - apply rstrip_nil_iff in F. congruence.
  - simpl in E. inversion E; subst. eauto.
Qed.

(** The answer 42, followed by a line boundary or by nothing. *)
Lemma answer_42 tail :
  tail = [] \/ (exists c r, tail = c :: r /\ islinebreak c = true) ->
  strip (upto_linebreak (strip (lit " 42" ++ tail))) = lit "42".
Proof.
  intros H.
  assert (E : strip (lit " 42" ++ tail) = rstrip (lit "42" ++ tail)) by reflexivity.
  rewrite E. clear E.
  destruct (existsb ink tail) eqn:K.
  - rewrite (rstrip_app_ink _ _ K).
    destruct H as [->|(c & r & -> & Hc)]; [discriminate|].
    destruct (rstrip_head _ _ K) as [r' ->].
    change (lit "42" ++ c :: r') with (52 :: 50 :: c :: r')%N.
    cbn [upto_linebreak]. change (islinebreak 52%N) with false.
    change (islinebreak 50%N) with false. cbv iota. rewrite Hc. reflexivity.
  - rewrite (rstrip_app_blank _ _ K). reflexivity.
Qed.

(** C7, as amended: without the marker the result is None; when the first
    marker is followed by some character that is not white space, the result
    is the text after that marker, trimmed (so line boundaries right after
    the marker are passed over), cut at its first line boundary and trimmed
    again; so a first marker followed by " 42" and a line boundary or the
    end gives "42". *)
Theorem try_extract_final_salvages t :
  (contains t Exchange.FINAL_MARK = false ->
   Exchange.try_extract_final t = Exchange.Return None)
  /\
  (forall i,
     find t Exchange.FINAL_MARK = Some i ->
     existsb ink (skipn (i + length Exchange.FINAL_MARK) t) = true ->
     Exchange.try_extract_final t
     = Exchange.Return
         (Some (strip (upto_linebreak
                         (strip (skipn (i + length Exchange.FINAL_MARK) t))))))
  /\
  (forall pre tail,
     t = pre ++ lit "Final Answer: 42" ++ tail ->
     find t Exchange.FINAL_MARK = Some (length pre) ->
     tail = [] \/ (exists c r, tail = c :: r /\ islinebreak c = true) ->
     Exchange.try_extract_final t = Exchange.Return (Some (lit "42"))).
Proof.
  split; [|split].
  - unfold contains. intros H.
    destruct (find t Exchange.FINAL_MARK) eqn:F; [discriminate|].
    unfold Exchange.try_extract_final. rewrite (FINAL_RE_search_absent _ F).
    reflexivity.
  - apply try_extract_final_at_marker.
  - intros pre tail Et F Htail.
    assert (R : skipn (length pre + length Exchange.FINAL_MARK) t = lit " 42" ++ tail).
    { rewrite Et.
      change (lit "Final Answer: 42" ++ tail)
        with (Exchange.FINAL_MARK ++ lit " 42" ++ tail).
      rewrite app_assoc, <- length_app. apply skipn_app_exact. }
    rewrite (try_extract_final_at_marker _ F); rewrite R.
    + rewrite (answer_42 Htail). reflexivity.
    + reflexivity.
Qed.

Lemma try_extract_final_salvages_witness :
  Exchange.try_extract_final (lit "parse error: Final Answer: 42\nand more")
  = Exchange.Return (Some (lit "42")).
Proof.
  refine (proj2 (proj2 (try_extract_final_salvages
            (lit "parse error: Final Answer: 42\nand more")))
            (lit "parse error: ") (LF :: lit "and more") _ _ _).
  - vm_compute. reflexivity.
  - vm_compute. reflexivity.
  - right. exists LF, (lit "and more"). split; reflexivity.
Defined.

(** C7 as stated fails: a line boundary right after the marker is passed
    over with the white space, and the answer is taken from the next
    line. *)
Lemma salvage_skips_line_breaks :
  Exchange.try_extract_final (lit "Final Answer:\n42")
  <> Exchange.Return (salvage_as_stated (lit "Final Answer:\n42")).
Proof. vm_compute. discriminate. Qed.

Example salvage_next_line :
  Exchange.try_extract_final (lit "Final Answer:\n42")
  = Exchange.Return (Some (lit "42"))
  /\ salvage_as_stated (lit "Final Answer:\n42") = Some [].
Proof. split; vm_compute; reflexivity. Qed.

(** A marker with nothing after it is not found; a marker followed by white
    space only makes the helper raise. *)
Example salvage_marker_at_end :
  Exchange.try_extract_final (lit "Final Answer:") = Exchange.Return None.
Proof. vm_compute. reflexivity. Qed.

Example salvage_blank_answer :
  Exchange.try_extract_final (lit "Final Answer: \n")
  = Exchange.Raise Exchange.IndexError.
Proof. vm_compute. reflexivity. Qed.

Example salvage_earlier_marker :
  Exchange.try_extract_final (lit "Final Answer: 7\nFinal Answer: 42")
  = Exchange.Return (Some (lit "7")).
Proof. vm_compute. reflexivity. Qed.

(** * The main block of agent.py (C8) *)

Section Retry.
Variable agent : nat -> Exchange.result str.

Lemma salvage_no_invocation e w :
  Exchange.invocations (snd (Exchange.salvage e w)) = Exchange.invocations w.
Proof.
  unfold Exchange.salvage.
  destruct (Exchange.try_extract_final (Exchange.str_of e)) as [[[|c s]|]|e'];
    reflexivity.
Qed.

(** C8: one run of the main block calls the agent once or twice; it calls it
    twice exactly when the first call raises ResourceExhausted; and whatever
    the second call raises, a rate limit included, leaves the block
    uncaught. *)
Theorem retry_at_most_once (w : Exchange.world) :
  let r := fst (Exchange.main agent w) in
  let w' := snd (Exchange.main agent w) in
  let k := Exchange.invocations w in
  (k < Exchange.invocations w' <= k + 2)
  /\ ((exists msg, agent k = Exchange.Raise (Exchange.ResourceExhausted msg))
      <-> Exchange.invocations w' = k + 2)
  /\ (forall msg e,
        agent k = Exchange.Raise (Exchange.ResourceExhausted msg) ->
        agent (S k) = Exchange.Raise e ->
        r = Exchange.Exc e)
  /\ (forall msg,
        agent k = Exchange.Raise (Exchange.ResourceExhausted msg) ->
        Exchange.slept w' = Exchange.slept w ++ [35%Z]).
Proof.
  unfold Exchange.main, Exchange.try_except, Exchange.bind, Exchange.invoke,
    Exchange.print, Exchange.eprint, Exchange.sleep.
  cbn [Exchange.invocations Exchange.stdout Exchange.stderr Exchange.slept].
  destruct (agent (Exchange.invocations w)) as [out|[msg| |msg]] eqn:E0;
    cbn [fst snd Exchange.invocations Exchange.stdout Exchange.stderr Exchange.slept].
  - repeat split; try lia; try discriminate.
    intros [msg H]. discriminate.
  - destruct (agent (S (Exchange.invocations w))) as [out|e] eqn:E1;
      cbn [fst snd Exchange.invocations Exchange.slept].
    + repeat split; try lia; try discriminate; eauto.
    + repeat split; try lia; eauto.
      intros msg' e' _ H. inversion H; subst. reflexivity.
  - rewrite salvage_no_invocation.
    cbn [Exchange.invocations].
    repeat split; try lia; try discriminate.
    intros [msg H]. discriminate.
  - rewrite salvage_no_invocation.
    cbn [Exchange.invocations].
    repeat split; try lia; try discriminate.
    intros [msg' H]. discriminate.
Qed.

End Retry.

Lemma retry_at_most_once_witness :
  fst (Exchange.main
         (fun _ => Exchange.Raise (Exchange.ResourceExhausted (lit "429")))
         Exchange.initial)
  = Exchange.Exc (Exchange.ResourceExhausted (lit "429")).
Proof.
  exact (proj1 (proj2 (proj2
           (retry_at_most_once
              (fun _ => Exchange.Raise (Exchange.ResourceExhausted (lit "429")))
              Exchange.initial)))
           (lit "429") (Exchange.ResourceExhausted (lit "429")) eq_refl eq_refl).
Defined.

(** Two rate limits in a row: two calls, one sleep, the second failure
    uncaught. *)
Example two_rate_limits :
  Exchange.main (fun _ => Exchange.Raise (Exchange.ResourceExhausted (lit "429")))
    Exchange.initial
  = (Exchange.Exc (Exchange.ResourceExhausted (lit "429")),
     {| Exchange.invocations := 2;
        Exchange.stdout := [];
        Exchange.stderr := [Exchange.RATE_LIMIT_NOTE];
        Exchange.slept := [35%Z] |}).
Proof. vm_compute. reflexivity. Qed.

Example rate_limit_then_answer :
  Exchange.main
    (fun k => match k with
              | O => Exchange.Raise (Exchange.ResourceExhausted (lit "429"))
              | _ => Exchange.Return (lit " 1 USD = 0.93 EUR ")
              end)
    Exchange.initial
  = (Exchange.Val tt,
     {| Exchange.invocations := 2;
        Exchange.stdout := [lit "1 USD = 0.93 EUR"];
        Exchange.stderr := [Exchange.RATE_LIMIT_NOTE];
        Exchange.slept := [35%Z] |}).
Proof. vm_compute. reflexivity. Qed.

Example parse_error_salvaged :
  Exchange.main
    (fun _ => Exchange.Raise
                (Exchange.OtherException
                   (lit "Could not parse LLM output: Final Answer: 42\nAction: x")))
    Exchange.initial
  = (Exchange.Val tt,
     {| Exchange.invocations := 1;
        Exchange.stdout := [lit "42"];
        Exchange.stderr := [];
        Exchange.slept := [] |}).
Proof. vm_compute. reflexivity. Qed.

(** * The launcher's normaliser in demo.py (C9, C10) *)

Section Launcher.
Context {U : UnicodeData}.

Lemma marker_inked : existsb ink Demo.MARKER = true.
Proof. reflexivity. Qed.

Lemma find_Some_lt s sub i :
  sub <> [] -> find s sub = Some i -> i < length s.
Proof.
  intros Hn F. apply find_Some_skipn in F.
  destruct (Nat.lt_ge_cases i (length s)) as [H|H]; [exact H|].
  rewrite skipn_all2 in F by exact H.
  destruct sub; [congruence | simpl in F; discriminate].
Qed.

Lemma blank_strip s : forallb isspace s = true -> strip s = [].
Proof.
  intros H. assert (E : existsb ink s = false).
  { induction s as [|c s IH]; simpl in *; [reflexivity|].
    apply andb_true_iff in H. destruct H as [Hc Hs].
    unfold ink at 1. rewrite Hc. simpl. apply IH, Hs. }
  pose proof (strip_nonempty s) as N. rewrite E in N.
  destruct (strip s); [reflexivity | discriminate].
Qed.

(** C10, as amended: on an input that is empty or white space only, the
    agent's [format_guard] and the launcher's [format_guard] return the
    input as it is, and the launcher's [_format_final_block] returns the
    fixed text with "(No output)". *)
Theorem blank_input_outcomes s n :
  forallb isspace s = true ->
  Gemini.format_guard s n = s
  /\ Demo.format_guard s n = s
  /\ Demo._format_final_block s n = lit "\n\n(No output)\n".
Proof.
  intros H. pose proof (blank_strip s H) as E.
  unfold Gemini.format_guard, Gemini.lines_of, Demo.format_guard,
    Demo._format_final_block.
  rewrite E. split; [reflexivity|]. split; reflexivity.
Qed.

End Launcher.

Example marker_frame_example :
  Demo.format_guard (U := ascii_digits)
    (lit "log - x\n----Final Result----\n$5\n- a - b\n") 3
  = lit "log - x\n----Final Result----\n$5\n- a – b\n".
Proof. vm_compute. reflexivity. Qed.

Lemma blank_input_outcomes_witness :
  Gemini.format_guard (U := ascii_digits) (lit " \n") 4 = lit " \n"
  /\ Demo.format_guard (U := ascii_digits) (lit " \n") 4 = lit " \n"
  /\ Demo._format_final_block (U := ascii_digits) (lit " \n") 4
     = lit "\n\n(No output)\n".
Proof.
  apply (@blank_input_outcomes ascii_digits). vm_compute. reflexivity.
Defined.

(** C10 as stated fails for the agent's normaliser: it has no value of its
    own for blank input, two blank inputs give two results. *)
Lemma no_empty_result_sentinel :
  ~ exists (U : UnicodeData) (sentinel : str),
      forall s, forallb isspace s = true -> Gemini.format_guard s 4 = sentinel.
Proof.
  intros (U & v & H).
  pose proof (H [] eq_refl) as H0. pose proof (H [SPACE] eq_refl) as H1.
  vm_compute in H0, H1. congruence.
Qed.

(** The launcher reaches its "(No output)" text only behind a marker. *)
Example no_output_after_marker :
  Demo.format_guard (U := ascii_digits) (lit "x\n----Final Result----\n") 3
  = lit "x\n----Final Result----\n\n(No output)\n".
Proof. vm_compute. reflexivity. Qed.

(** * What a blank input is

    An input has no trimmed non-empty line exactly when all its characters
    are white space. *)

Lemma splitlines_covers c (s : str) :
  In c s -> islinebreak c = false ->
  exists l, In l (splitlines s) /\ In c l.
Proof.
  intros Hin Hc. revert Hin.
  induction s as [|a|a a' s IH1 IH2] using str_pair_ind; intros Hin.
  - destruct Hin.
  - destruct Hin as [->|[]]. simpl. rewrite Hc. exists [c]. simpl. auto.
  - change (splitlines (a :: a' :: s)) with
      (if islinebreak a
       then [] :: (if ((a =? CR) && (a' =? LF))%N then splitlines s
                   else splitlines (a' :: s))
       else match splitlines (a' :: s) with
            | [] => [[a]]
            | l :: ls => (a :: l) :: ls
            end).
    destruct (islinebreak a) eqn:Ea.
    + destruct Hin as [->|Hin]; [congruence|].
      destruct ((a =? CR) && (a' =? LF))%N eqn:Ecr.
      * destruct Hin as [->|Hin].
        { apply andb_true_iff in Ecr. destruct Ecr as [_ Ecr].
          apply N.eqb_eq in Ecr. subst c. discriminate. }
        destruct (IH1 Hin) as [l [Hl Hcl]]. exists l. simpl. auto.
      * destruct (IH2 Hin) as [l [Hl Hcl]]. exists l. simpl. auto.
    + destruct Hin as [->|Hin].
      * destruct (splitlines (a' :: s)) as [|l ls].
        { exists [c]. simpl. auto. }
        { exists (c :: l). simpl. auto. }
      * destruct (IH2 Hin) as [l [Hl Hcl]].
        destruct (splitlines (a' :: s)) as [|l0 ls]; [destruct Hl|].
        destruct Hl as [->|Hl].
        { exists (a :: l). simpl. auto. }
        { exists l. simpl. auto. }
Qed.

Lemma existsb_ink_strip s : existsb ink (strip s) = existsb ink s.
Proof.
  rewrite <- (strip_nonempty s). destruct (strip_ends s) as [H _].
  destruct (strip s) as [|c r]; [reflexivity|]. simpl in *.
  unfold ink at 1. rewrite H. reflexivity.
Qed.

Lemma forallb_isspace_ink s : forallb isspace s = true <-> existsb ink s = false.
Proof.
  unfold ink. induction s as [|c s IH]; simpl; [tauto|].
  destruct (isspace c); simpl; [exact IH|]. split; discriminate.
Qed.

Lemma blank_iff s : blank s <-> forallb isspace s = true.
Proof.
  rewrite forallb_isspace_ink. unfold blank, Gemini.lines_of. split.
  - intros E. destruct (existsb ink s) eqn:K; [|reflexivity]. exfalso.
    rewrite <- existsb_ink_strip in K. apply existsb_exists in K.
    destruct K as [c [Hin Hc]]. unfold ink in Hc. apply negb_true_iff in Hc.
    destruct (splitlines_covers c (strip s) Hin (isspace_not_linebreak c Hc))
      as [l [Hl Hcl]].
    assert (Hk : In l (filter (fun l => nonempty (strip l))
                         (splitlines (strip s)))).
    { apply filter_In. split; [exact Hl|]. rewrite strip_nonempty.
      apply existsb_exists. exists c. unfold ink. rewrite Hc. auto. }
    destruct (filter _ (splitlines (strip s))); [destruct Hk | discriminate].
  - intros K. pose proof (strip_nonempty s) as N. rewrite K in N.
    destruct (strip s); [reflexivity | discriminate].
Qed.

(** * Further properties of the normaliser and of the launcher *)

Section OutputShape.
Context {U : UnicodeData}.

Lemma clamp_source_nonempty (bs : list str) :
  (if nonempty bs then bs else [Gemini.SENTINEL]) <> [].
Proof. destruct bs; discriminate. Qed.

Lemma bullets_of_length s n :
  (1 <= n)%Z -> (1 <= Z.of_nat (length (bullets_of s n)) <= n)%Z.
Proof.
  intros H. unfold bullets_of. rewrite clamp_bullets_nonneg by lia.
  rewrite length_firstn.
  pose proof (clamp_source_nonempty (Gemini.collect_bullets (Gemini.lines_of s))) as N.
  destruct (if nonempty (Gemini.collect_bullets (Gemini.lines_of s))
            then Gemini.collect_bullets (Gemini.lines_of s)
            else [Gemini.SENTINEL]) as [|b r]; [congruence|].
  cbn [length]. lia.
Qed.

Lemma clamp_headline_max_range m :
  (1 <= Gemini.clamp_headline_max m <= 5)%Z.
Proof. unfold Gemini.clamp_headline_max. lia. Qed.

Lemma splitlines_join_lf ls :
  ls <> [] -> Forall (fun l => l <> [] /\ nolb l) ls ->
  splitlines (join [LF] ls ++ [LF]) = ls.
Proof.
  induction ls as [|l ls IH]; intros Hn H; [congruence|].
  inversion H as [|? ? [Hl Hb] Hr]; subst.
  destruct ls as [|q ls].
  - cbn [join]. rewrite (splitlines_line_lf [] Hb). reflexivity.
  - rewrite join_cons2. cbn [app]. rewrite <- app_assoc. cbn [app].
    rewrite (splitlines_line_lf _ Hb). f_equal.
    apply IH; [discriminate | exact Hr].
Qed.

Lemma result_marker_nolb : nolb Gemini.RESULT_MARKER.
Proof.
  apply Forall_forall. intros c Hc.
  assert (K : forallb (fun c => negb (islinebreak c)) Gemini.RESULT_MARKER = true)
    by (vm_compute; reflexivity).
  rewrite forallb_forall in K. apply negb_true_iff, K, Hc.
Qed.

(** The lines of what the main block prints. *)
Lemma main_stdout_lines output arg_max :
  ~ blank output ->
  splitlines (Gemini.main_stdout output arg_max)
  = Gemini.RESULT_MARKER
    :: output_lines output (Gemini.clamp_headline_max arg_max).
Proof.
  intros NB. unfold Gemini.main_stdout. cbv zeta.
  rewrite (format_guard_shape _ NB), lit_nl. cbn [app].
  rewrite (splitlines_line_lf _ result_marker_nolb). f_equal.
  apply splitlines_join_lf; [discriminate|].
  eapply Forall_impl; [|apply output_lines_tidy, NB].
  intros l (Hn & _ & _ & Hb). tauto.
Qed.

(** X1: whatever [--max] is, what the main block prints for an agent output
    with a non-blank line reads as the marker line, the selected price
    line, and then dash-prefixed lines: at least one, at most five, and at
    most [--max] when that is one or more. *)
Theorem main_output_contract output arg_max :
  ~ blank output ->
  exists bullets,
    splitlines (Gemini.main_stdout output arg_max)
    = Gemini.RESULT_MARKER :: price_of output
      :: map Gemini.bullet_line bullets
    /\ (1 <= Z.of_nat (length bullets) <= 5)%Z
    /\ (Z.of_nat (length bullets) <= Z.max 1 arg_max)%Z.
Proof.
  intros NB. exists (bullets_of output (Gemini.clamp_headline_max arg_max)).
  split; [apply main_stdout_lines, NB|].
  pose proof (clamp_headline_max_range arg_max) as R.
  assert (R1 : (1 <= Gemini.clamp_headline_max arg_max)%Z) by lia.
  pose proof (bullets_of_length output R1) as L.
  unfold Gemini.clamp_headline_max in *. lia.
Qed.

(** X2: for every bound, the output for an input with a non-blank line has
    only lines that are non-empty, trimmed and free of line boundaries; its
    first line is one of the trimmed input lines, every later line is a dash
    marker followed by a bullet without curly apostrophe. *)
Theorem output_lines_well_formed s n :
  ~ blank s ->
  exists p bs,
    splitlines (Gemini.format_guard s n) = p :: map Gemini.bullet_line bs
    /\ In p (Gemini.lines_of s)
    /\ Forall tidy (p :: map Gemini.bullet_line bs)
    /\ Forall (fun b => tidy b /\ ~ In CURLY_APOSTROPHE b) bs.
Proof.
  intros NB. exists (price_of s), (bullets_of s n).
  split; [apply (splitlines_format_guard n NB)|].
  split; [apply select_price_In, NB|].
  split; [apply (output_lines_tidy n NB)|].
  eapply Forall_impl; [|apply bullets_of_emitted].
  intros b [T E]. split; [exact T|]. rewrite <- E.
  apply straight_apostrophes_no_curly.
Qed.

(** The second pass of the normaliser on its own output, for any two
    bounds. *)
Lemma format_guard_twice s m n :
  ~ blank s -> (1 <= m)%Z -> (0 <= n)%Z ->
  is_bullet (price_of s) = false ->
  Forall dash_free (bullets_of s m) ->
  Gemini.format_guard (Gemini.format_guard s m) n
  = Gemini.format_guard s (Z.min m n).
Proof.
  intros NB Hm Hn Hp Hd.
  rewrite (format_guard_shape n (output_not_blank m NB)).
  rewrite (format_guard_shape (Z.min m n) NB). f_equal.
  unfold output_lines at 1, price_of at 1, bullets_of at 1.
  rewrite (lines_of_format_guard m NB). unfold output_lines.
  rewrite select_price_again, (@collect_bullets_skip _ _ Hp).
  rewrite collect_bullets_again; [|apply bullets_of_emitted | exact Hd].
  f_equal. f_equal. unfold bullets_of.
  rewrite (clamp_bullets_nonneg _ Hn).
  rewrite !clamp_bullets_nonneg by lia.
  set (src := if nonempty (Gemini.collect_bullets (Gemini.lines_of s))
              then Gemini.collect_bullets (Gemini.lines_of s)
              else [Gemini.SENTINEL]).
  assert (Hs : src <> []) by apply clamp_source_nonempty.
  assert (K : nonempty (firstn (Z.to_nat m) src) = true).
  { destruct src as [|b r]; [congruence|].
    destruct (Z.to_nat m) eqn:F; [lia | reflexivity]. }
  rewrite K, firstn_firstn. f_equal. lia.
Qed.

(** X3: two passes with bounds [m >= 1] and [n >= 0] are one pass with the
    smaller bound, when the line chosen as the price is not itself a
    dash-prefixed line and no bullet of the first pass still contains a
    space-hyphen-space. *)
Theorem format_guard_compose s m n :
  (1 <= m)%Z -> (0 <= n)%Z ->
  is_bullet (price_of s) = false ->
  Forall dash_free (bullets_of s m) ->
  Gemini.format_guard (Gemini.format_guard s m) n
  = Gemini.format_guard s (Z.min m n).
Proof.
  intros Hm Hn Hp Hd.
  destruct (Gemini.lines_of s) as [|l0 ls0] eqn:E.
  - rewrite !(format_guard_blank _ E). reflexivity.
  - apply format_guard_twice; try assumption. unfold blank. congruence.
Qed.

End OutputShape.

Lemma main_output_contract_witness :
  exists bullets,
    splitlines (Gemini.main_stdout (U := ascii_digits)
                  (lit "NVDA trades at $5 today") 9)
    = Gemini.RESULT_MARKER
      :: price_of (U := ascii_digits) (lit "NVDA trades at $5 today")
      :: map Gemini.bullet_line bullets
    /\ (1 <= Z.of_nat (length bullets) <= 5)%Z
    /\ (Z.of_nat (length bullets) <= Z.max 1 9)%Z.
Proof.
  apply (@main_output_contract ascii_digits). vm_compute. discriminate.
Defined.

(** Six headlines and [--max 9]: five are printed. *)
Example main_prints_five :
  Gemini.main_stdout (U := ascii_digits)
    (lit "$9\n- a\n- b\n- c\n- d\n- e\n- f") 9
  = lit "----Final Result----\n$9\n- a\n- b\n- c\n- d\n- e\n".
Proof. vm_compute. reflexivity. Qed.

Lemma output_lines_well_formed_witness :
  exists p bs,
    splitlines (Gemini.format_guard (U := ascii_digits)
                  (lit "  $5 \n\n -  Company’s growth - host ") 4)
    = p :: map Gemini.bullet_line bs
    /\ In p (Gemini.lines_of (lit "  $5 \n\n -  Company’s growth - host "))
    /\ Forall tidy (p :: map Gemini.bullet_line bs)
    /\ Forall (fun b => tidy b /\ ~ In CURLY_APOSTROPHE b) bs.
Proof.
  apply (@output_lines_well_formed ascii_digits). vm_compute. discriminate.
Defined.

Lemma format_guard_compose_witness :
  Gemini.format_guard (U := ascii_digits)
    (Gemini.format_guard (U := ascii_digits)
       (lit "$1\n- a - x\n- b - y\n- c - z") 3) 2
  = Gemini.format_guard (U := ascii_digits)
      (lit "$1\n- a - x\n- b - y\n- c - z") (Z.min 3 2).
Proof.
  apply (@format_guard_compose ascii_digits).
  - lia.
  - lia.
  - vm_compute. reflexivity.
  - vm_compute. repeat constructor.
Defined.

(** A first pass with bound 0 drops every bullet, and a second pass then
    brings in the sentinel. *)
Example compose_after_zero :
  Gemini.format_guard (U := ascii_digits)
    (Gemini.format_guard (U := ascii_digits) (lit "$1\n- a") 0) 2
  = lit "$1\n- No recent headlines found.".
Proof. vm_compute. reflexivity. Qed.

(** ** The launcher's block formatter and the agent's normaliser *)

Section LauncherAfterAgent.
Context {U : UnicodeData}.

Lemma demo_price_match l : Demo.PRICE_RE_match l = Gemini.PRICE_RE_match l.
Proof. reflexivity. Qed.

Lemma demo_bullet_step bs l : Demo.bullet_step bs l = Gemini.bullet_step bs l.
Proof. reflexivity. Qed.

Lemma format_final_block_lines block n :
  Demo._format_final_block block n
  = if negb (nonempty (Gemini.lines_of block)) then Demo.NO_OUTPUT
    else lit "\n" ++ join (lit "\n") (output_lines block n) ++ lit "\n".
Proof.
  unfold Demo._format_final_block, output_lines, price_of, bullets_of,
    Gemini.select_price, Gemini.clamp_bullets, Gemini.collect_bullets,
    Gemini.lines_of, Gemini.SENTINEL.
  cbv zeta.
  change Demo.PRICE_RE_match with Gemini.PRICE_RE_match.
  change Demo.bullet_step with Gemini.bullet_step.
  change (fun b : list N => lit "- " ++ b) with Gemini.bullet_line.
  reflexivity.
Qed.

(** X4: on a block with a non-blank line the launcher's
    [_format_final_block] gives what the agent's [format_guard] gives, with
    a line feed before and after. *)
Theorem format_final_block_agrees block n :
  ~ blank block ->
  Demo._format_final_block block n
  = lit "\n" ++ Gemini.format_guard block n ++ lit "\n".
Proof.
  intros NB. rewrite format_final_block_lines, (format_guard_shape n NB), lit_nl.
  unfold blank in NB. destruct (Gemini.lines_of block); [congruence | reflexivity].
Qed.

(** The two cases of [_format_final_block]. *)
Lemma format_final_block_blank block n :
  blank block -> Demo._format_final_block block n = lit "\n\n(No output)\n".
Proof.
  intros B. rewrite format_final_block_lines. unfold blank in B. rewrite B.
  reflexivity.
Qed.

Lemma format_final_block_nonblank block n :
  ~ blank block ->
  Demo._format_final_block block n
  = lit "\n" ++ join (lit "\n") (output_lines block n) ++ lit "\n".
Proof.
  intros NB. rewrite format_final_block_lines.
  unfold blank in NB. destruct (Gemini.lines_of block); [congruence | reflexivity].
Qed.

Lemma format_final_block_framed block n :
  ~ blank block ->
  Demo._format_final_block block n
  = lit "\n" ++ Gemini.format_guard block n ++ lit "\n".
Proof.
  intros NB. rewrite (format_final_block_nonblank n NB), (format_guard_shape n NB), lit_nl.
  reflexivity.
Qed.

Lemma strip_padded a x b :
  existsb ink a = false -> existsb ink b = false ->
  strip (a ++ x ++ b) = strip x.
Proof.
  intros Ha Hb. unfold strip.
  rewrite lstrip_all_space by (apply lstrip_nil_iff; exact Ha).
  destruct (lstrip x) as [|c r] eqn:E.
  - rewrite lstrip_all_space by exact E.
    assert (B : lstrip b = []) by (apply lstrip_nil_iff; exact Hb).
    rewrite B. reflexivity.
  - rewrite lstrip_app by congruence. rewrite E. apply rstrip_app_blank, Hb.
Qed.

Lemma lines_of_padded a x b :
  existsb ink a = false -> existsb ink b = false ->
  Gemini.lines_of (a ++ x ++ b) = Gemini.lines_of x.
Proof.
  intros Ha Hb. unfold Gemini.lines_of. rewrite strip_padded by assumption.
  reflexivity.
Qed.

Lemma markers_agree : Gemini.RESULT_MARKER = Demo.MARKER.
Proof. vm_compute. reflexivity. Qed.

(** The launcher's [format_guard] at the first occurrence of the marker. *)
Lemma format_guard_at_marker s n i :
  find s Demo.MARKER = Some i ->
  Demo.format_guard s n
  = firstn i s ++ Demo.MARKER
    ++ Demo._format_final_block (skipn (i + length Demo.MARKER) s) n.
Proof.
  intros F. destruct (@find_Some _ _ _ F) as [Es _].
  assert (K : nonempty (strip s) = true).
  { rewrite strip_nonempty, Es, !existsb_app, marker_inked.
    rewrite orb_true_r. reflexivity. }
  unfold Demo.format_guard, contains, split_once. rewrite K, F. reflexivity.
Qed.

(** C9: for an input that contains the marker, the launcher's
    [format_guard] returns the text before the first occurrence of the
    marker as it is, then the marker, then the normalised form of the text
    after it: between two line feeds, the selected price line and the
    rewritten, clamped bullets of that text, one per line; or the fixed
    text with "(No output)" when the text after the marker has no non-blank
    line. *)
Theorem marker_frame s n :
  contains s Demo.MARKER = true ->
  exists head tail,
    s = head ++ Demo.MARKER ++ tail
    /\ (forall j, j < length head -> startswith (skipn j s) Demo.MARKER = false)
    /\ Demo.format_guard s n
       = head ++ Demo.MARKER ++ Demo._format_final_block tail n
    /\ (~ blank tail ->
        Demo._format_final_block tail n
        = lit "\n" ++ join (lit "\n") (output_lines tail n) ++ lit "\n")
    /\ (blank tail ->
        Demo._format_final_block tail n = lit "\n\n(No output)\n").
Proof.
  intros C. unfold contains in C.
  destruct (find s Demo.MARKER) as [i|] eqn:F; [|discriminate].
  exists (firstn i s), (skipn (i + length Demo.MARKER) s).
  assert (Hm : Demo.MARKER <> []) by (vm_compute; discriminate).
  pose proof (@find_Some_lt _ _ _ Hm F) as Hi.
  destruct (@find_Some _ _ _ F) as [Es Hfirst].
  split; [exact Es|]. split.
  { intros j Hj. apply Hfirst. rewrite length_firstn in Hj. lia. }
  split; [apply format_guard_at_marker, F|].
  split; [apply format_final_block_nonblank | apply format_final_block_blank].
Qed.

Lemma format_guard_marker_first s tail n :
  s = Demo.MARKER ++ tail ->
  Demo.format_guard s n = Demo.MARKER ++ Demo._format_final_block tail n.
Proof.
  intros E.
  assert (F : find s Demo.MARKER = Some 0).
  { rewrite E, find_unfold, startswith_app. reflexivity. }
  rewrite (@format_guard_at_marker _ n _ F), firstn_O, Nat.add_0_l, app_nil_l.
  subst s. rewrite skipn_app_exact. reflexivity.
Qed.

(** What the launcher makes of the two lines the agent's main block
    prints. *)
Lemma postprocess_main_stdout output arg_max n :
  ~ blank output ->
  Demo.postprocess (Gemini.main_stdout output arg_max) n
  = Gemini.RESULT_MARKER ++ lit "\n"
    ++ Gemini.format_guard
         (Gemini.format_guard output (Gemini.clamp_headline_max arg_max)) n
    ++ lit "\n".
Proof.
  intros NB.
  set (safe := Gemini.format_guard output (Gemini.clamp_headline_max arg_max)).
  assert (NS : ~ blank safe) by (apply output_not_blank, NB).
  assert (L : Gemini.lines_of ([LF] ++ safe ++ [LF]) = Gemini.lines_of safe).
  { apply lines_of_padded; reflexivity. }
  assert (NT : ~ blank ([LF] ++ safe ++ [LF])) by (unfold blank; rewrite L; exact NS).
  assert (E : Gemini.main_stdout output arg_max
              = Demo.MARKER ++ [LF] ++ safe ++ [LF]).
  { unfold Gemini.main_stdout. fold safe. rewrite markers_agree, lit_nl. reflexivity. }
  unfold Demo.postprocess.
  rewrite (@format_guard_marker_first _ _ n E).
  rewrite (format_final_block_framed n NT), lit_nl, markers_agree.
  rewrite (format_guard_shape n NT), (format_guard_shape n NS).
  unfold output_lines, price_of, bullets_of. rewrite L. reflexivity.
Qed.

(** With an agent output that has no non-blank line the launcher finds
    nothing after the marker. *)
Lemma postprocess_main_stdout_blank output arg_max n :
  blank output ->
  Demo.postprocess (Gemini.main_stdout output arg_max) n
  = Gemini.RESULT_MARKER ++ lit "\n\n(No output)\n".
Proof.
  intros B.
  assert (L : Gemini.lines_of ([LF] ++ output ++ [LF]) = Gemini.lines_of output).
  { apply lines_of_padded; reflexivity. }
  assert (BT : blank ([LF] ++ output ++ [LF])) by (unfold blank; rewrite L; exact B).
  assert (E : Gemini.main_stdout output arg_max
              = Demo.MARKER ++ [LF] ++ output ++ [LF]).
  { unfold Gemini.main_stdout. rewrite (format_guard_blank _ B).
    rewrite markers_agree, lit_nl. reflexivity. }
  unfold Demo.postprocess.
  rewrite (@format_guard_marker_first _ _ n E).
  rewrite (format_final_block_blank n BT), markers_agree. reflexivity.
Qed.

(** X5: what the launcher makes of what the agent's main block prints.  It
    keeps the marker line.  When the agent's output has a non-blank line,
    the rest is the agent's normalised text normalised once more with the
    launcher's bound; when it has none, the rest is the fixed text with
    "(No output)". *)
Theorem launcher_renormalises output arg_max n :
  Demo.postprocess (Gemini.main_stdout output arg_max) n
  = Gemini.RESULT_MARKER
    ++ (if nonempty (Gemini.lines_of output)
        then lit "\n"
             ++ Gemini.format_guard
                  (Gemini.format_guard output (Gemini.clamp_headline_max arg_max)) n
             ++ lit "\n"
        else lit "\n\n(No output)\n").
Proof.
  destruct (nonempty (Gemini.lines_of output)) eqn:E.
  - apply postprocess_main_stdout. unfold blank. apply nonempty_true, E.
  - apply postprocess_main_stdout_blank. unfold blank.
    destruct (Gemini.lines_of output); [reflexivity | discriminate].
Qed.

Lemma launcher_max_bullets_range a :
  (1 <= Demo.launcher_max_bullets a <= 5)%Z.
Proof.
  unfold Demo.launcher_max_bullets. destruct a as [m|]; [|lia].
  destruct ((1 <=? m) && (m <=? 5))%Z eqn:E; [|lia].
  apply andb_true_iff in E. destruct E as [E1 E2].
  apply Z.leb_le in E1. apply Z.leb_le in E2. lia.
Qed.

Lemma launcher_bound_min m :
  Z.min (Gemini.clamp_headline_max m) (Demo.launcher_max_bullets (Some m))
  = if (m <=? 5)%Z then Gemini.clamp_headline_max m else 4%Z.
Proof.
  unfold Gemini.clamp_headline_max, Demo.launcher_max_bullets.
  destruct (Z.leb_spec m 5); destruct (Z.leb_spec 1 m); cbn [andb]; lia.
Qed.

(** X6: when [--max m] goes through the launcher, and the agent's output
    has a non-blank line, a price line that is not dash-prefixed and bullets
    without space-hyphen-space left, the launcher prints what the agent
    printed as long as [m <= 5]; for [m > 5] the agent keeps up to 5 bullets
    and the launcher cuts them to 4. *)
Theorem launcher_keeps_agent_output output m :
  ~ blank output ->
  is_bullet (price_of output) = false ->
  Forall dash_free (bullets_of output (Gemini.clamp_headline_max m)) ->
  Demo.postprocess (Gemini.main_stdout output m)
    (Demo.launcher_max_bullets (Some m))
  = Gemini.RESULT_MARKER ++ lit "\n"
    ++ Gemini.format_guard output
         (if (m <=? 5)%Z then Gemini.clamp_headline_max m else 4%Z)
    ++ lit "\n".
Proof.
  intros NB Hp Hd. rewrite (postprocess_main_stdout m _ NB).
  pose proof (clamp_headline_max_range m) as R1.
  pose proof (launcher_max_bullets_range (Some m)) as R2.
  rewrite format_guard_twice by (assumption || lia).
  rewrite launcher_bound_min. reflexivity.
Qed.

End LauncherAfterAgent.

Lemma marker_frame_witness :
  exists head tail,
    lit "log - x\n----Final Result----\n$5\n- a - b\n"
    = head ++ Demo.MARKER ++ tail
    /\ (forall j, j < length head ->
          startswith (skipn j (lit "log - x\n----Final Result----\n$5\n- a - b\n"))
            Demo.MARKER = false)
    /\ Demo.format_guard (U := ascii_digits)
         (lit "log - x\n----Final Result----\n$5\n- a - b\n") 3
       = head ++ Demo.MARKER ++ Demo._format_final_block (U := ascii_digits) tail 3
    /\ (~ blank tail ->
        Demo._format_final_block (U := ascii_digits) tail 3
        = lit "\n" ++ join (lit "\n") (output_lines (U := ascii_digits) tail 3)
          ++ lit "\n")
    /\ (blank tail ->
        Demo._format_final_block (U := ascii_digits) tail 3
        = lit "\n\n(No output)\n").
Proof.
  apply (@marker_frame ascii_digits). vm_compute. reflexivity.
Defined.

(** Nothing but white space after the marker. *)
Example marker_frame_no_output :
  Demo.format_guard (U := ascii_digits) (lit "log\n----Final Result----\n \n") 3
  = lit "log\n----Final Result----\n\n(No output)\n".
Proof. vm_compute. reflexivity. Qed.

Lemma format_final_block_agrees_witness :
  Demo._format_final_block (U := ascii_digits) (lit "\n$5\n- a - b\n") 3
  = lit "\n" ++ Gemini.format_guard (U := ascii_digits) (lit "\n$5\n- a - b\n") 3
    ++ lit "\n".
Proof.
  apply (@format_final_block_agrees ascii_digits). vm_compute. discriminate.
Defined.


(** The launcher on the agent's printout for an empty output. *)
Example launcher_no_output :
  Demo.postprocess (U := ascii_digits)
    (Gemini.main_stdout (U := ascii_digits) [] 4) 4
  = lit "----Final Result----\n\n(No output)\n".
Proof. vm_compute. reflexivity. Qed.

Lemma launcher_keeps_agent_output_witness :
  Demo.postprocess (U := ascii_digits)
    (Gemini.main_stdout (U := ascii_digits)
       (lit "$9\n- a - h\n- b - h\n- c - h\n- d - h\n- e - h\n- f - h") 7)
    (Demo.launcher_max_bullets (Some 7%Z))
  = Gemini.RESULT_MARKER ++ lit "\n"
    ++ Gemini.format_guard (U := ascii_digits)
         (lit "$9\n- a - h\n- b - h\n- c - h\n- d - h\n- e - h\n- f - h")
         (if (7 <=? 5)%Z then Gemini.clamp_headline_max 7 else 4%Z)
    ++ lit "\n".
Proof.
  apply (@launcher_keeps_agent_output ascii_digits).
  - vm_compute. discriminate.
  - vm_compute. reflexivity.
  - vm_compute. repeat constructor.
Defined.

(** With [--max 7] the agent prints five bullets and the launcher four. *)
Example launcher_cuts_fifth_bullet :
  Gemini.main_stdout (U := ascii_digits)
    (lit "$9\n- a - h\n- b - h\n- c - h\n- d - h\n- e - h\n- f - h") 7
  = lit "----Final Result----\n$9\n- a – h\n- b – h\n- c – h\n- d – h\n- e – h\n"
  /\ Demo.postprocess (U := ascii_digits)
       (Gemini.main_stdout (U := ascii_digits)
          (lit "$9\n- a - h\n- b - h\n- c - h\n- d - h\n- e - h\n- f - h") 7)
       (Demo.launcher_max_bullets (Some 7%Z))
     = lit "----Final Result----\n$9\n- a – h\n- b – h\n- c – h\n- d – h\n".
Proof. split; vm_compute; reflexivity. Qed.

(** The launcher's second pass is not always the identity: a lone bullet
    line gains a copy. *)
Example launcher_adds_bullet :
  Gemini.main_stdout (U := ascii_digits) (lit "- a") 2
  = lit "----Final Result----\n- a\n- a\n"
  /\ Demo.postprocess (U := ascii_digits)
       (Gemini.main_stdout (U := ascii_digits) (lit "- a") 2) 2
     = lit "----Final Result----\n- a\n- a\n- a\n".
Proof. split; vm_compute; reflexivity. Qed.

(** * Further properties of agent.py *)

Lemma FINAL_RE_search_marker_alone :
  Exchange.FINAL_RE_search Exchange.FINAL_MARK = None.
Proof. vm_compute. reflexivity. Qed.

Lemma group1_after_unfold k rest :
  Exchange.group1_after k rest =
  match skipn k rest with
  | [] => match k with
          | S k' => Exchange.group1_after k' rest
          | O => None
          end
  | c :: g => Some (c :: g)
  end.
Proof. destruct k; reflexivity. Qed.

(** On a text that is not empty, group 1 is a non-empty end of it. *)
Lemma group1_after_suffix k rest :
  rest <> [] ->
  exists p g, Exchange.group1_after k rest = Some g /\ g <> [] /\ rest = p ++ g.
Proof.
  intros H. induction k as [|k IH]; rewrite group1_after_unfold.
  - simpl skipn. destruct rest as [|c r]; [congruence|].
    exists [], (c :: r). repeat split. discriminate.
  - destruct (skipn (S k) rest) as [|c g] eqn:E; [exact IH|].
    exists (firstn (S k) rest), (c :: g). split; [reflexivity|].
    split; [discriminate|]. rewrite <- E. symmetry. apply firstn_skipn.
Qed.

Lemma upto_linebreak_nolb s : nolb (upto_linebreak s).
Proof.
  induction s as [|c s IH]; simpl; [constructor|].
  destruct (islinebreak c) eqn:E; constructor; assumption.
Qed.

Lemma head_ok_ink (s : str) : s <> [] -> head_ok s -> existsb ink s = true.
Proof.
  destruct s as [|c s]; [congruence|]. simpl. intros _ H.
  unfold ink at 1. rewrite H. reflexivity.
Qed.

(** The first line of a trimmed text, trimmed, is a tidy line. *)
Lemma first_line_tidy rest :
  existsb ink rest = true -> tidy (strip (upto_linebreak (strip rest))).
Proof.
  intros H. rewrite <- existsb_ink_strip in H.
  destruct (strip_ends rest) as [Hh _].
  destruct (strip rest) as [|c x]; [discriminate|]. simpl in Hh.
  simpl upto_linebreak. rewrite (isspace_not_linebreak _ Hh).
  destruct (strip_ends (c :: upto_linebreak x)) as [H1 H2].
  split; [|split; [|split]]; try assumption.
  - apply nonempty_true. rewrite strip_nonempty. simpl.
    unfold ink at 1. rewrite Hh. reflexivity.
  - apply strip_Forall. constructor.
    + apply isspace_not_linebreak, Hh.
    + apply upto_linebreak_nolb.
Qed.

(** X7: the three outcomes of [try_extract_final].  Without the marker, and
    with nothing after the first marker, it returns None; with only white
    space after the first marker it raises IndexError; otherwise it returns
    a line that is not empty, is trimmed and has no line boundary. *)
Theorem try_extract_final_outcomes t :
  match find t Exchange.FINAL_MARK with
  | None => Exchange.try_extract_final t = Exchange.Return None
  | Some i =>
      let rest := skipn (i + length Exchange.FINAL_MARK) t in
      match rest with
      | [] => Exchange.try_extract_final t = Exchange.Return None
      | _ :: _ =>
          if existsb ink rest
          then exists a,
                 Exchange.try_extract_final t = Exchange.Return (Some a)
                 /\ tidy a
          else Exchange.try_extract_final t = Exchange.Raise Exchange.IndexError
      end
  end.
Proof.
  destruct (find t Exchange.FINAL_MARK) as [i|] eqn:F.
  - cbv zeta. pose proof (find_Some_skipn _ _ F) as Es.
    destruct (skipn (i + length Exchange.FINAL_MARK) t) as [|c r] eqn:R.
    + unfold Exchange.try_extract_final.
      rewrite (FINAL_RE_search_first _ F), Es, app_nil_r.
      rewrite FINAL_RE_search_marker_alone. reflexivity.
    + destruct (existsb ink (c :: r)) eqn:K.
      * exists (strip (upto_linebreak (strip (c :: r)))). split.
        { rewrite <- R. apply try_extract_final_at_marker; [exact F|].
          rewrite R. exact K. }
        { apply first_line_tidy, K. }
      * unfold Exchange.try_extract_final.
        rewrite (FINAL_RE_search_first _ F), Es, FINAL_RE_search_unfold.
        unfold Exchange.FINAL_RE_at. rewrite startswith_app, skipn_app_exact.
        assert (Hne : c :: r <> []) by discriminate.
        destruct (@group1_after_suffix
                    (length (Exchange.takewhile isspace (c :: r)))
                    (c :: r) Hne) as (p & g & -> & Hg & Eg).
        rewrite Eg, existsb_app in K. apply orb_false_iff in K.
        destruct K as [_ K].
        pose proof (strip_nonempty g) as N. rewrite K in N.
        destruct (strip g); [reflexivity | discriminate].
  - unfold Exchange.try_extract_final.
    rewrite (FINAL_RE_search_absent _ F). reflexivity.
Qed.

Section MainBlock.
Variable agent : nat -> Exchange.result str.

(** X8: what the main block writes to standard output.  When it ends
    normally it has made one [print] call there, with the trimmed output of
    the first agent call, or of the second call after a rate limit, or with
    the answer, not empty, salvaged from the text of another exception.
    When it ends with an exception or with [sys.exit] it has printed
    nothing there, and [sys.exit] is only called with status 1, after the
    hint and the text of the exception the first call raised were written
    to standard error. *)
Theorem main_block_effects (w : Exchange.world) :
  let r := fst (Exchange.main agent w) in
  let w' := snd (Exchange.main agent w) in
  let k := Exchange.invocations w in
  match r with
  | Exchange.Val _ =>
      exists text,
        Exchange.stdout w' = Exchange.stdout w ++ [text]
        /\ ((exists out, agent k = Exchange.Return out /\ text = strip out)
            \/ (exists msg out,
                  agent k = Exchange.Raise (Exchange.ResourceExhausted msg)
                  /\ agent (S k) = Exchange.Return out
                  /\ text = strip out)
            \/ (exists e,
                  agent k = Exchange.Raise e
                  /\ (forall msg, e <> Exchange.ResourceExhausted msg)
                  /\ Exchange.try_extract_final (Exchange.str_of e)
                     = Exchange.Return (Some text)
                  /\ text <> []))
  | Exchange.Exc _ => Exchange.stdout w' = Exchange.stdout w
  | Exchange.SysExit code =>
      code = 1%Z
      /\ Exchange.stdout w' = Exchange.stdout w
      /\ exists e,
           agent k = Exchange.Raise e
           /\ Exchange.stderr w'
              = Exchange.stderr w ++ [Exchange.PARSE_HINT; Exchange.str_of e]
  end.
Proof.
  unfold Exchange.main, Exchange.try_except, Exchange.bind, Exchange.invoke,
    Exchange.print, Exchange.eprint, Exchange.sleep.
  cbn [Exchange.invocations Exchange.stdout Exchange.stderr Exchange.slept].
  cbv zeta.
  destruct (agent (Exchange.invocations w)) as [out|e0] eqn:E0.
  - cbn [fst snd Exchange.stdout]. exists (strip out).
    split; [reflexivity|]. left. exists out. auto.
  - assert (HS : forall e w1,
               Exchange.stdout w1 = Exchange.stdout w ->
               Exchange.stderr w1 = Exchange.stderr w ->
               match fst (Exchange.salvage e w1) with
               | Exchange.Val _ =>
                   exists text,
                     Exchange.stdout (snd (Exchange.salvage e w1))
                     = Exchange.stdout w ++ [text]
                     /\ Exchange.try_extract_final (Exchange.str_of e)
                        = Exchange.Return (Some text)
                     /\ text <> []
               | Exchange.Exc _ =>
                   Exchange.stdout (snd (Exchange.salvage e w1))
                   = Exchange.stdout w
               | Exchange.SysExit code =>
                   code = 1%Z
                   /\ Exchange.stdout (snd (Exchange.salvage e w1))
                      = Exchange.stdout w
                   /\ Exchange.stderr (snd (Exchange.salvage e w1))
                      = Exchange.stderr w
                        ++ [Exchange.PARSE_HINT; Exchange.str_of e]
               end).
    { intros e w1 H1 H2. unfold Exchange.salvage.
      destruct (Exchange.try_extract_final (Exchange.str_of e))
        as [[[|c s]|]|e'];
        unfold Exchange.bind, Exchange.print, Exchange.eprint,
          Exchange.sys_exit, Exchange.raise;
        cbn [fst snd Exchange.invocations Exchange.stdout Exchange.stderr];
        rewrite ?H1, ?H2, <- ?app_assoc; auto.
      exists (c :: s). split; [reflexivity|]. split; [reflexivity | discriminate]. }
    destruct e0 as [msg| |msg].
    + cbn [Exchange.invocations Exchange.stdout Exchange.stderr Exchange.slept].
      destruct (agent (S (Exchange.invocations w))) as [out|e] eqn:E1;
        cbn [fst snd Exchange.invocations Exchange.stdout Exchange.stderr
             Exchange.slept]; [|reflexivity].
      exists (strip out). split; [reflexivity|]. right. left.
      exists msg, out. auto.
    + specialize (HS Exchange.IndexError
                    {| Exchange.invocations := S (Exchange.invocations w);
                       Exchange.stdout := Exchange.stdout w;
                       Exchange.stderr := Exchange.stderr w;
                       Exchange.slept := Exchange.slept w |} eq_refl eq_refl).
      destruct (fst (Exchange.salvage Exchange.IndexError _)).
      * destruct HS as (text & H1 & H2 & H3). exists text.
        split; [exact H1|]. right. right. exists Exchange.IndexError.
        split; [reflexivity|]. split; [discriminate|]. auto.
      * exact HS.
      * destruct HS as (? & ? & ?). eauto.
    + specialize (HS (Exchange.OtherException msg)
                    {| Exchange.invocations := S (Exchange.invocations w);
                       Exchange.stdout := Exchange.stdout w;
                       Exchange.stderr := Exchange.stderr w;
                       Exchange.slept := Exchange.slept w |} eq_refl eq_refl).
      destruct (fst (Exchange.salvage (Exchange.OtherException msg) _)).
      * destruct HS as (text & H1 & H2 & H3). exists text.
        split; [exact H1|]. right. right. exists (Exchange.OtherException msg).
        split; [reflexivity|]. split; [discriminate|]. auto.
      * exact HS.
      * destruct HS as (? & ? & ?). eauto.
Qed.

End MainBlock.

Example exit_without_output :
  Exchange.main
    (fun _ => Exchange.Raise (Exchange.OtherException (lit "boom")))
    Exchange.initial
  = (Exchange.SysExit 1,
     {| Exchange.invocations := 1;
        Exchange.stdout := [];
        Exchange.stderr := [Exchange.PARSE_HINT; lit "boom"];
        Exchange.slept := [] |}).
Proof. vm_compute. reflexivity. Qed.

(** One [print] call can write more than one line: the output is trimmed
    at its ends only. *)
Example print_keeps_inner_line_break :
  Exchange.stdout
    (snd (Exchange.main
            (fun _ => Exchange.Return (lit " line one\nline two \n"))
            Exchange.initial))
  = [lit "line one\nline two"].
Proof. vm_compute. reflexivity. Qed.

(** An exception text that ends in the marker and white space makes the
    salvage itself fail. *)
Example salvage_raises :
  Exchange.main
    (fun _ => Exchange.Raise (Exchange.OtherException (lit "x Final Answer: \n")))
    Exchange.initial
  = (Exchange.Exc Exchange.IndexError,
     {| Exchange.invocations := 1;
        Exchange.stdout := [];
        Exchange.stderr := [];
        Exchange.slept := [] |}).
Proof. vm_compute. reflexivity. Qed.

(** * Further properties of the structured projection *)

Lemma startswith_app_l a b sub :
  startswith a sub = true -> startswith (a ++ b) sub = true.
Proof.
  intros H. apply startswith_true in H. rewrite H, <- app_assoc.
  apply startswith_app.
Qed.

Lemma contains_nil_sub s : contains s [] = true.
Proof. unfold contains. rewrite find_unfold, startswith_nil. reflexivity. Qed.

Lemma contains_nil s sub : contains s sub = false -> contains [] sub = false.
Proof.
  intros H. destruct sub as [|x sub]; [|reflexivity].
  rewrite contains_nil_sub in H. discriminate.
Qed.

Lemma contains_app_r a b sub :
  contains (a ++ b) sub = false -> contains b sub = false.
Proof.
  induction a as [|c a IH]; intros H; [exact H|].
  apply contains_false_cons in H. apply IH. tauto.
Qed.

Lemma contains_app_l a b sub :
  contains (a ++ b) sub = false -> contains a sub = false.
Proof.
  induction a as [|c a IH]; intros H; [apply (contains_nil _ _ H)|].
  simpl app in H. apply contains_false_cons in H. destruct H as [H0 H].
  rewrite contains_cons, (IH H), orb_false_r.
  destruct (startswith (c :: a) sub) eqn:E; [|reflexivity].
  apply (startswith_app_l _ b) in E. simpl app in E. congruence.
Qed.

Lemma contains_strip s sub : contains s sub = false -> contains (strip s) sub = false.
Proof.
  intros H. destruct (strip_infix s) as [p [q E]]. rewrite E in H.
  apply contains_app_r in H. apply contains_app_l in H. exact H.
Qed.

Lemma contains_true_find s sub :
  contains s sub = true -> exists i, find s sub = Some i.
Proof. unfold contains. destruct (find s sub); [eauto | discriminate]. Qed.

(** What precedes the first occurrence has no occurrence. *)
Lemma before_first_occurrence s sub i :
  sub <> [] -> find s sub = Some i -> contains (firstn i s) sub = false.
Proof.
  intros Hn F. destruct (contains (firstn i s) sub) eqn:C; [|reflexivity].
  exfalso. apply contains_true_find in C. destruct C as [j Fj].
  pose proof (@find_Some_lt _ _ _ Hn Fj) as Hj. rewrite length_firstn in Hj.
  pose proof (@find_Some_skipn _ _ _ Fj) as Ej.
  destruct (@find_Some _ _ _ F) as [_ Hfirst].
  assert (K : startswith (skipn j s) sub = true).
  { rewrite <- (firstn_skipn i s) at 1. rewrite skipn_app.
    replace (j - length (firstn i s)) with 0 by (rewrite length_firstn; lia).
    rewrite Ej. simpl skipn. rewrite <- app_assoc. apply startswith_app. }
  rewrite Hfirst in K by lia. discriminate.
Qed.

(** The text of a dash-prefixed tidy line, trimmed, is tidy. *)
Lemma bullet_rest_tidy l :
  tidy l -> is_bullet l = true -> tidy (strip (skipn 2 l)).
Proof.
  intros (Hn & Hh & Hl & Hb) H. apply is_bullet_inv in H.
  revert H. generalize (skipn 2 l). intros r ->.
  assert (Hr : r <> []).
  { intros E. rewrite E in Hl. unfold last_ok in Hl. simpl in Hl. discriminate. }
  assert (Hlr : last_ok r).
  { apply last_ok_cons with (c := SPACE); [exact Hr|].
    apply last_ok_cons with (c := HYPHEN); [discriminate | exact Hl]. }
  destruct (strip_ends r) as [H1 H2].
  split; [|split; [|split]]; try assumption.
  - apply nonempty_true. rewrite strip_nonempty. apply last_ok_ink; assumption.
  - apply strip_Forall. inversion Hb as [|? ? _ Hb1]; subst.
    inversion Hb1; subst. assumption.
Qed.

Lemma separator_nonempty : lit " – " <> [].
Proof. rewrite lit_sp_en_sp. discriminate. Qed.

(** The fields of the headline made from a tidy bullet text. *)
Lemma headline_of_fields l :
  tidy l -> is_bullet l = true ->
  let h := headline_of l in
  Gemini.title h <> []
  /\ strip (Gemini.title h) = Gemini.title h
  /\ contains (Gemini.title h) (lit " – ") = false
  /\ strip (Gemini.host h) = Gemini.host h
  /\ (Gemini.host h = [] <-> contains (strip (skipn 2 l)) (lit " – ") = false).
Proof.
  intros T B. pose proof (bullet_rest_tidy T B) as Tx.
  unfold headline_of. set (txt := strip (skipn 2 l)) in *.
  unfold split_once. destruct (contains txt (lit " – ")) eqn:C.
  - destruct (contains_true_find _ _ C) as [i F]. rewrite F.
    cbv zeta. cbn [Gemini.title Gemini.host].
    pose proof (@before_first_occurrence _ _ _ separator_nonempty F) as Bf.
    destruct (@find_Some _ _ _ F) as [Es _].
    destruct Tx as (Hn & Hh & Hl & _).
    set (t := firstn i txt) in *.
    set (h := skipn (i + length (lit " – ")) txt) in *.
    assert (Ht : existsb ink t = true).
    { destruct t as [|c t'].
      - rewrite Es, lit_sp_en_sp in Hh. simpl in Hh. discriminate.
      - rewrite Es in Hh. simpl in Hh. simpl. unfold ink at 1.
        rewrite Hh. reflexivity. }
    assert (Hk : existsb ink h = true).
    { apply last_ok_ink.
      - intros E. rewrite Es, E, lit_sp_en_sp in Hl. unfold last_ok in Hl.
        rewrite !rev_app_distr in Hl. simpl in Hl. discriminate.
      - rewrite Es in Hl. unfold last_ok in *. rewrite !rev_app_distr in Hl.
        destruct (rev h) eqn:R; [exact I|]. simpl in Hl. exact Hl. }
    split; [apply nonempty_true; rewrite strip_nonempty; exact Ht|].
    split; [apply strip_idempotent|].
    split; [apply contains_strip, Bf|].
    split; [apply strip_idempotent|].
    split; [|discriminate].
    intros E. pose proof (strip_nonempty h) as N. rewrite E, Hk in N.
    discriminate.
  - cbv zeta. cbn [Gemini.title Gemini.host].
    assert (E : strip txt = txt) by apply strip_idempotent.
    rewrite E. destruct Tx as (Hn & _).
    split; [exact Hn|]. split; [apply strip_idempotent|].
    split; [exact C|]. split; [reflexivity|]. split; reflexivity.
Qed.

(** X9: for every text, [to_json] takes the first trimmed line as the price
    and makes one headline of each later dash-prefixed line; every title is
    non-empty, trimmed and free of the separator, every host is trimmed. *)
Theorem to_json_fields out :
  let p := Gemini.to_json out in
  Gemini.price p = hd [] (Gemini.lines_of out)
  /\ length (Gemini.headlines p)
     = length (filter is_bullet (tl (Gemini.lines_of out)))
  /\ Forall (fun h =>
               Gemini.title h <> []
               /\ strip (Gemini.title h) = Gemini.title h
               /\ contains (Gemini.title h) (lit " – ") = false
               /\ strip (Gemini.host h) = Gemini.host h)
            (Gemini.headlines p).
Proof.
  unfold Gemini.to_json. cbn [Gemini.price Gemini.headlines].
  rewrite headlines_eq.
  split; [destruct (Gemini.lines_of out); reflexivity|].
  split; [apply length_map|].
  apply Forall_forall. intros h Hh. apply in_map_iff in Hh.
  destruct Hh as [l [<- Hl]]. apply filter_In in Hl. destruct Hl as [Hl Hb].
  pose proof (lines_of_tidy out) as T. rewrite Forall_forall in T.
  assert (Tl : tidy l).
  { apply T. destruct (Gemini.lines_of out); [destruct Hl | right; exact Hl]. }
  destruct (headline_of_fields Tl Hb) as (H1 & H2 & H3 & H4 & _). auto.
Qed.

(** X10: a headline of [to_json] has an empty host exactly when the text of
    its line has no separator. *)
Theorem to_json_host_empty out l :
  In l (tl (Gemini.lines_of out)) -> is_bullet l = true ->
  (Gemini.host (headline_of l) = []
   <-> contains (strip (skipn 2 l)) (lit " – ") = false)
  /\ In (headline_of l) (Gemini.headlines (Gemini.to_json out)).
Proof.
  intros Hl Hb. pose proof (lines_of_tidy out) as T. rewrite Forall_forall in T.
  assert (Tl : tidy l).
  { apply T. destruct (Gemini.lines_of out); [destruct Hl | right; exact Hl]. }
  destruct (headline_of_fields Tl Hb) as (_ & _ & _ & _ & H5).
  split; [exact H5|].
  unfold Gemini.to_json. cbn [Gemini.headlines]. rewrite headlines_eq.
  apply in_map, filter_In. auto.
Qed.

Lemma to_json_host_empty_witness :
  (Gemini.host (headline_of (lit "- No recent headlines found.")) = []
   <-> contains (strip (skipn 2 (lit "- No recent headlines found.")))
         (lit " – ") = false)
  /\ In (headline_of (lit "- No recent headlines found."))
        (Gemini.headlines
           (Gemini.to_json (lit "$5\n- No recent headlines found."))).
Proof.
  apply to_json_host_empty.
  - vm_compute. left. reflexivity.
  - vm_compute. reflexivity.
Defined.

Example to_json_blank :
  Gemini.to_json (lit " \n ") = {| Gemini.price := []; Gemini.headlines := [] |}.
Proof. vm_compute. reflexivity. Qed.

(** A dash-prefixed first line is the price and gives no headline. *)
Example to_json_first_line_bullet :
  Gemini.to_json (lit "- a – b\n- c")
  = {| Gemini.price := lit "- a – b";
       Gemini.headlines := [ {| Gemini.title := lit "c"; Gemini.host := [] |} ] |}.
Proof. vm_compute. reflexivity. Qed.

(** * The headline loop of [news_headlines] *)

Section NewsLoop.
Variable unwrap : str -> str.
Variable short_host : str -> str.

Local Abbreviation loop := (Gemini.headline_loop unwrap short_host).
Local Abbreviation loop_body := (loop_pass unwrap short_host).

Lemma seen_before_false t seen :
  Gemini.seen_before t seen = false -> ~ In t seen.
Proof.
  unfold Gemini.seen_before. intros H Hin.
  assert (K : existsb (fun t0 => if list_eq_dec N.eq_dec t0 t then true else false)
                seen = true).
  { apply existsb_exists. exists t. split; [exact Hin|].
    destruct (list_eq_dec N.eq_dec t t); congruence. }
  congruence.
Qed.

Lemma NoDup_snoc (t : str) seen : NoDup seen -> ~ In t seen -> NoDup (seen ++ [t]).
Proof.
  intros Hn Hi. apply NoDup_rev in Hn.
  rewrite <- (rev_involutive (seen ++ [t])). apply NoDup_rev.
  rewrite rev_app_distr. simpl. constructor; [|exact Hn].
  rewrite <- in_rev. exact Hi.
Qed.

Lemma headline_loop_cons N item rest rows seen :
  loop N (item :: rest) rows seen
  = let '(rows', seen') := loop_body item rows seen in
    if (N <=? Z.of_nat (length rows'))%Z then (rows', seen')
    else loop N rest rows' seen'.
Proof.
  destruct item as [t l]. unfold loop_pass. cbn [Gemini.headline_loop fst snd].
  cbv zeta. reflexivity.
Qed.

Lemma loop_body_spec item rows seen :
  let '(rows', seen') := loop_body item rows seen in
  (exists ext ext', rows' = rows ++ ext /\ seen' = seen ++ ext'
                    /\ length ext <= 1 /\ length ext = length ext'
                    /\ Forall2 (row_of short_host) ext ext'
                    /\ Forall (fun t => ~ In t seen /\ t <> []
                                        /\ t = Gemini._clean_title (strip (fst item)))
                              ext').
Proof.
  assert (Skip : exists ext ext' : list str,
             rows = rows ++ ext /\ seen = seen ++ ext'
             /\ length ext <= 1 /\ length ext = length ext'
             /\ Forall2 (row_of short_host) ext ext'
             /\ Forall (fun t => ~ In t seen /\ t <> []
                                 /\ t = Gemini._clean_title (strip (fst item)))
                       ext').
  { exists [], []. rewrite !app_nil_r.
    split; [reflexivity|]. split; [reflexivity|]. split; [simpl; lia|].
    split; [reflexivity|]. split; constructor. }
  unfold loop_pass. cbv zeta.
  destruct (nonempty (Gemini._clean_title (strip (fst item)))) eqn:E1;
    [|exact Skip].
  destruct (nonempty (unwrap (strip (snd item)))) eqn:E2; [|exact Skip].
  destruct (Gemini.seen_before _ seen) eqn:E3; [exact Skip|].
  cbv beta iota.
  exists [Gemini._clean_title (strip (fst item)) ++ lit " | "
            ++ unwrap (strip (snd item)) ++ lit " | "
            ++ short_host (unwrap (strip (snd item)))],
         [Gemini._clean_title (strip (fst item))].
  split; [reflexivity|]. split; [reflexivity|].
  split; [simpl; lia|]. split; [reflexivity|].
  apply nonempty_true in E1. apply nonempty_true in E2.
  split.
  - constructor; [|constructor]. exists (unwrap (strip (snd item))).
    split; [exact E2 | reflexivity].
  - constructor; [|constructor].
    split; [apply seen_before_false; exact E3|]. split; [exact E1 | reflexivity].
Qed.

Lemma headline_loop_invariant N items : forall rows seen,
  (Z.of_nat (length rows) < Z.max 1 N)%Z ->
  NoDup seen ->
  Forall2 (row_of short_host) rows seen ->
  forall rows' seen', loop N items rows seen = (rows', seen') ->
  (Z.of_nat (length rows') <= Z.max 1 N)%Z
  /\ NoDup seen'
  /\ Forall2 (row_of short_host) rows' seen'
  /\ exists ext, seen' = seen ++ ext /\ Forall (title_from items) ext.
Proof.
  induction items as [|item rest IH]; intros rows seen Hl Hn Hr rows' seen' E.
  - cbn [Gemini.headline_loop] in E. inversion E; subst.
    split; [lia|]. split; [exact Hn|]. split; [exact Hr|].
    exists []. rewrite app_nil_r. auto.
  - rewrite headline_loop_cons in E.
    pose proof (loop_body_spec item rows seen) as B.
    destruct (loop_body item rows seen) as [r1 s1].
    destruct B as (ext & ext' & -> & -> & L1 & L2 & F2 & Fx).
    assert (Hn1 : NoDup (seen ++ ext')).
    { destruct ext' as [|t [|? ?]]; [rewrite app_nil_r; exact Hn| |simpl in *; lia].
      apply NoDup_snoc; [exact Hn|]. inversion Fx; subst. tauto. }
    assert (Hr1 : Forall2 (row_of short_host) (rows ++ ext) (seen ++ ext'))
      by (apply Forall2_app; assumption).
    assert (Ft : Forall (title_from (item :: rest)) ext').
    { eapply Forall_impl; [|exact Fx]. cbv beta. intros t (_ & Ht & Et).
      split; [exact Ht|]. exists item. split; [left; reflexivity | exact Et]. }
    destruct (N <=? Z.of_nat (length (rows ++ ext)))%Z eqn:C.
    + inversion E; subst. rewrite length_app in *.
      split; [lia|]. split; [exact Hn1|]. split; [exact Hr1|].
      exists ext'. auto.
    + apply Z.leb_gt in C.
      assert (C1 : (Z.of_nat (length (rows ++ ext)) < Z.max 1 N)%Z) by lia.
      destruct (IH _ _ C1 Hn1 Hr1 _ _ E) as (A1 & A2 & A3 & ext2 & -> & A4).
      split; [exact A1|]. split; [exact A2|]. split; [exact A3|].
      exists (ext' ++ ext2). rewrite app_assoc. split; [reflexivity|].
      apply Forall_app. split; [exact Ft|].
      eapply Forall_impl; [|exact A4]. cbv beta.
      intros t (Ht & it & Hi & Et). split; [exact Ht|].
      exists it. split; [right; exact Hi | exact Et].
Qed.

(** X11: whatever the feed and the limit, the loop of [news_headlines] ends
    with at most max(1, limit) rows, one row per recorded title; the
    recorded titles are pairwise different, none is empty, each is the
    cleaned title of an item, and each row is its title, a link that is not
    empty and the host of that link. *)
Theorem headline_loop_rows N items :
  let rows := fst (loop N items [] []) in
  let seen_titles := snd (loop N items [] []) in
  (Z.of_nat (length rows) <= Z.max 1 N)%Z
  /\ NoDup seen_titles
  /\ Forall2 (row_of short_host) rows seen_titles
  /\ Forall (title_from items) seen_titles.
Proof.
  cbv zeta. destruct (loop N items [] []) as [rows seen] eqn:E.
  cbn [fst snd].
  assert (H0 : (Z.of_nat (length (@nil str)) < Z.max 1 N)%Z) by (simpl; lia).
  destruct (@headline_loop_invariant N items [] [] H0
              (NoDup_nil _) (Forall2_nil _) _ _ E)
    as (A1 & A2 & A3 & ext & -> & A4).
  auto.
Qed.

Lemma headline_loop_extends N items : forall rows seen,
  exists ext, fst (loop N items rows seen) = rows ++ ext.
Proof.
  induction items as [|item rest IH]; intros rows seen.
  - exists []. rewrite app_nil_r. reflexivity.
  - rewrite headline_loop_cons.
    pose proof (loop_body_spec item rows seen) as B.
    destruct (loop_body item rows seen) as [r1 s1].
    destruct B as (ext & ext' & -> & -> & _).
    destruct (N <=? Z.of_nat (length (rows ++ ext)))%Z.
    + exists ext. reflexivity.
    + destruct (IH (rows ++ ext) (seen ++ ext')) as [e2 ->].
      exists (ext ++ e2). rewrite app_assoc. reflexivity.
Qed.

Lemma headline_loop_prefix N M items : forall rows seen,
  (1 <= N <= M)%Z -> (Z.of_nat (length rows) < N)%Z ->
  fst (loop N items rows seen)
  = firstn (Z.to_nat N) (fst (loop M items rows seen)).
Proof.
  induction items as [|item rest IH]; intros rows seen HN Hl.
  - cbn [Gemini.headline_loop fst]. rewrite firstn_all2; [reflexivity | lia].
  - rewrite !headline_loop_cons.
    pose proof (loop_body_spec item rows seen) as B.
    destruct (loop_body item rows seen) as [r1 s1].
    destruct B as (ext & ext' & -> & -> & L1 & _).
    destruct (N <=? Z.of_nat (length (rows ++ ext)))%Z eqn:C.
    + apply Z.leb_le in C. rewrite length_app in C.
      assert (Hlen : length (rows ++ ext) = Z.to_nat N)
        by (rewrite length_app; lia).
      cbn [fst].
      destruct (M <=? Z.of_nat (length (rows ++ ext)))%Z.
      * cbn [fst]. rewrite firstn_all2; [reflexivity | lia].
      * destruct (headline_loop_extends M rest (rows ++ ext) (seen ++ ext'))
          as [e2 ->].
        rewrite <- Hlen, firstn_app, firstn_all, Nat.sub_diag, firstn_O, app_nil_r.
        reflexivity.
    + apply Z.leb_gt in C.
      assert (C' : (M <=? Z.of_nat (length (rows ++ ext)))%Z = false)
        by (apply Z.leb_gt; lia).
      rewrite C'. apply IH; [exact HN | exact C].
Qed.

(** X12: for limits of at least one, the rows found under a limit are the
    first rows found under any larger limit: raising the limit only adds
    rows at the end. *)
Theorem headline_rows_monotone N M items :
  (1 <= N)%Z -> (N <= M)%Z ->
  fst (loop N items [] [])
  = firstn (Z.to_nat N) (fst (loop M items [] [])).
Proof.
  intros H1 H2. apply headline_loop_prefix; [lia | simpl; lia].
Qed.

End NewsLoop.

Lemma headline_rows_monotone_witness :
  fst (Gemini.headline_loop (fun l => l) (fun l => l) 1
         [(lit "a", lit "u"); (lit "b", lit "v")] [] [])
  = firstn (Z.to_nat 1)
      (fst (Gemini.headline_loop (fun l => l) (fun l => l) 2
              [(lit "a", lit "u"); (lit "b", lit "v")] [] [])).
Proof.
  apply (@headline_rows_monotone (fun l => l) (fun l => l) 1 2
           [(lit "a", lit "u"); (lit "b", lit "v")]); lia.
Defined.

(** With a limit below one the loop still looks at the first item, and at
    no other. *)
Example limit_zero_takes_first_item :
  Gemini.news_headlines (fun l => l) (fun l => l) 0
    [(lit "a", lit "u"); (lit "b", lit "v")]
  = lit "a | u | u".
Proof. vm_compute. reflexivity. Qed.

Example limit_zero_skips_later_items :
  Gemini.news_headlines (fun l => l) (fun l => l) 0
    [(lit "", lit "u"); (lit "b", lit "v")]
  = lit "No headlines found.".
Proof. vm_compute. reflexivity. Qed.

(** * Title cleaning *)

Lemma lit_sp : lit " " = [SPACE].
Proof. reflexivity. Qed.

Lemma re_sub_from_skip m repl n : forall s,
  re_sub_from m repl n s = re_sub_from m repl 0 (skipn n s).
Proof.
  induction n as [|n IH]; intros s; [reflexivity|].
  destruct s as [|c s]; [reflexivity|].
  cbn [re_sub_from skipn]. apply IH.
Qed.

Lemma re_sub_nil m repl : re_sub m repl [] = [].
Proof. reflexivity. Qed.

Lemma re_sub_cons m repl c s :
  re_sub m repl (c :: s)
  = match m (c :: s) with
    | Some (S n) => repl ++ re_sub m repl (skipn n s)
    | _ => c :: re_sub m repl s
    end.
Proof.
  unfold re_sub. cbn [re_sub_from].
  destruct (m (c :: s)) as [[|n]|]; try reflexivity.
  rewrite re_sub_from_skip. reflexivity.
Qed.

(** A pattern that matches nowhere leaves the text as it is. *)
Lemma re_sub_no_match m repl : forall s,
  (forall p q, s = p ++ q -> m q = None) -> re_sub m repl s = s.
Proof.
  induction s as [|c s IH]; intros H; [reflexivity|].
  rewrite re_sub_cons, (H [] (c :: s) eq_refl). f_equal.
  apply IH. intros p q E. apply (H (c :: p) q). rewrite E. reflexivity.
Qed.

(** Substitution only copies characters of the text and of the replacement. *)
Lemma re_sub_Forall (P : char -> Prop) m repl :
  Forall P repl -> forall s : str, Forall P s -> Forall P (re_sub m repl s).
Proof.
  intros Hr s. induction s as [s IH] using str_length_ind. intros Hs.
  destruct s as [|c s]; [constructor|].
  rewrite re_sub_cons. inversion Hs as [|? ? Hc Hs']; subst.
  destruct (m (c :: s)) as [[|n]|].
  - constructor; [exact Hc|]. apply IH; [simpl; lia | exact Hs'].
  - apply Forall_app. split; [exact Hr|]. apply IH.
    + simpl. rewrite length_skipn. lia.
    + rewrite <- (firstn_skipn n s) in Hs'. apply Forall_app in Hs'. tauto.
  - constructor; [exact Hc|]. apply IH; [simpl; lia | exact Hs'].
Qed.

(** ** White-space runs *)

Lemma run_length_le f s : run_length f s <= length s.
Proof.
  induction s as [|c s IH]; simpl; [lia|]. destruct (f c); simpl; lia.
Qed.

Lemma run_length_skipn f s : hd_error (skipn (run_length f s) s) = None
  \/ exists c r, skipn (run_length f s) s = c :: r /\ f c = false.
Proof.
  induction s as [|c s IH]; [left; reflexivity|].
  cbn [run_length]. destruct (f c) eqn:E.
  - cbn [skipn]. exact IH.
  - right. exists c, s. split; [reflexivity | exact E].
Qed.

Lemma run_length_all f s : Forall (fun c => f c = true) s -> run_length f s = length s.
Proof.
  induction 1 as [|c s Hc _ IH]; [reflexivity|].
  cbn [run_length length]. rewrite Hc, IH. reflexivity.
Qed.

Lemma run_length_full f s :
  skipn (run_length f s) s = [] -> Forall (fun c => f c = true) s.
Proof.
  induction s as [|c s IH]; [constructor|].
  cbn [run_length]. destruct (f c) eqn:E.
  - cbn [skipn]. intros H. constructor; [exact E | apply IH, H].
  - cbn [skipn]. discriminate.
Qed.

Lemma wide_space_ink c s : isspace c = false -> Gemini.wide_space (c :: s) = None.
Proof. intros H. unfold Gemini.wide_space. cbn [run_length]. rewrite H. reflexivity. Qed.

Lemma wide_space_Some s n :
  Gemini.wide_space s = Some n -> n = run_length isspace s /\ 2 <= n.
Proof.
  unfold Gemini.wide_space. destruct (2 <=? run_length isspace s) eqn:E; [|discriminate].
  intros H. inversion H; subst. apply Nat.leb_le in E. auto.
Qed.

Lemma single_spaced_cons a s :
  single_spaced (a :: s) = negb (isspace a && hd_space s) && single_spaced s.
Proof.
  destruct s as [|b s]; [|reflexivity].
  cbn [single_spaced hd_space]. rewrite andb_false_r. reflexivity.
Qed.

Lemma hd_space_skip_run s : hd_space (skipn (run_length isspace s) s) = false.
Proof.
  destruct (run_length_skipn isspace s) as [H|(c & r & -> & H)].
  - destruct (skipn (run_length isspace s) s); [reflexivity | discriminate].
  - exact H.
Qed.

(** Collapsing wide white space leaves no two white-space characters side
    by side, and a text that starts with ink still starts with ink. *)
Lemma collapse_single_spaced (s : str) :
  single_spaced (re_sub Gemini.wide_space [SPACE] s) = true
  /\ (hd_space s = false ->
      hd_space (re_sub Gemini.wide_space [SPACE] s) = false).
Proof.
  induction s as [s IH] using str_length_ind.
  destruct s as [|c s]; [split; reflexivity|].
  rewrite re_sub_cons.
  destruct (Gemini.wide_space (c :: s)) as [[|n]|] eqn:W.
  - apply wide_space_Some in W. lia.
  - apply wide_space_Some in W. destruct W as [W _].
    assert (Hc : isspace c = true).
    { cbn [run_length] in W. destruct (isspace c); [reflexivity | discriminate]. }
    assert (En : n = run_length isspace s).
    { cbn [run_length] in W. rewrite Hc in W. congruence. }
    subst n. cbn [app].
    destruct (IH (skipn (run_length isspace s) s)) as [I1 I2].
    { simpl. rewrite length_skipn. lia. }
    split.
    + rewrite single_spaced_cons, I1, (I2 (hd_space_skip_run s)), andb_false_r.
      reflexivity.
    + cbn [hd_space]. rewrite Hc. discriminate.
  - destruct (IH s) as [I1 I2]; [simpl; lia|].
    split; [|cbn [hd_space]; tauto].
    rewrite single_spaced_cons, I1, andb_true_r.
    destruct (isspace c) eqn:Hc; [|reflexivity].
    cbn [andb]. rewrite I2; [reflexivity|].
    unfold Gemini.wide_space in W. cbn [run_length] in W. rewrite Hc in W.
    destruct s as [|d s]; [reflexivity|]. cbn [hd_space].
    destruct (isspace d) eqn:Hd; [|reflexivity].
    cbn [run_length] in W. rewrite Hd in W. discriminate.
Qed.

Lemma single_spaced_suffix p : forall q,
  single_spaced (p ++ q) = true -> single_spaced q = true.
Proof.
  induction p as [|a p IH]; intros q H; [exact H|].
  cbn [app] in H. rewrite single_spaced_cons in H.
  apply andb_true_iff in H. apply IH. tauto.
Qed.

Lemma single_spaced_prefix p : forall q,
  single_spaced (p ++ q) = true -> single_spaced p = true.
Proof.
  induction p as [|a p IH]; intros q H; [reflexivity|].
  cbn [app] in H. rewrite single_spaced_cons in H.
  apply andb_true_iff in H. destruct H as [H1 H2].
  rewrite single_spaced_cons, (IH _ H2), andb_true_r.
  destruct p as [|b p]; [cbn [hd_space]; rewrite andb_false_r; reflexivity|].
  exact H1.
Qed.

Lemma single_spaced_strip s : single_spaced s = true -> single_spaced (strip s) = true.
Proof.
  intros H. destruct (strip_infix s) as [p [q E]]. rewrite E in H.
  apply single_spaced_suffix in H. apply single_spaced_prefix in H. exact H.
Qed.

(** In a single-spaced text the wide-space pattern matches nowhere. *)
Lemma single_spaced_no_wide s :
  single_spaced s = true ->
  forall p q, s = p ++ q -> Gemini.wide_space q = None.
Proof.
  intros H p q E. rewrite E in H. apply single_spaced_suffix in H.
  unfold Gemini.wide_space. destruct q as [|a [|b q]]; [reflexivity| |].
  - cbn [run_length]. destruct (isspace a); reflexivity.
  - rewrite single_spaced_cons in H. cbn [hd_space] in H.
    cbn [run_length]. destruct (isspace a); [|reflexivity].
    destruct (isspace b); [discriminate | reflexivity].
Qed.

(** ** Parentheticals *)

Lemma LPAREN_ink : isspace Gemini.LPAREN = false.
Proof. reflexivity. Qed.

Lemma RPAREN_ink : isspace Gemini.RPAREN = false.
Proof. reflexivity. Qed.

Lemma parenthetical_rparen t : Gemini.parenthetical (Gemini.RPAREN :: t) = None.
Proof. reflexivity. Qed.

Lemma unclosed_prefix p q : unclosed (p ++ q) -> unclosed p.
Proof.
  destruct p as [|d p]; [left; reflexivity|].
  intros [H|[[t H]|H]].
  - discriminate.
  - right. left. exists p. cbn [app] in H. congruence.
  - right. right. apply Forall_app in H. tauto.
Qed.

Lemma paren_free_suffix p : forall q, paren_free (p ++ q) -> paren_free q.
Proof.
  induction p as [|a p IH]; intros q H; [exact H|].
  apply IH. destruct H as [_ H]. exact H.
Qed.

Lemma paren_free_prefix p : forall q, paren_free (p ++ q) -> paren_free p.
Proof.
  induction p as [|a p IH]; intros q H; [exact I|].
  destruct H as [H1 H2]. split; [|apply (IH _ H2)].
  intros E. apply (unclosed_prefix _ _ (H1 E)).
Qed.

Lemma paren_free_strip s : paren_free s -> paren_free (strip s).
Proof.
  intros H. destruct (strip_infix s) as [p [q E]]. rewrite E in H.
  apply paren_free_suffix in H. apply paren_free_prefix in H. exact H.
Qed.

(** Where the parenthetical pattern does not match at an opening
    parenthesis, what follows is unclosed. *)
Lemma no_match_unclosed s :
  (forall k, Gemini.parenthetical (Gemini.LPAREN :: s) <> Some (S k)) ->
  unclosed s.
Proof.
  intros H. unfold Gemini.parenthetical in H.
  cbn [run_length] in H. rewrite LPAREN_ink in H. cbn [skipn] in H.
  rewrite N.eqb_refl in H.
  set (b := run_length (fun c => negb (c =? Gemini.RPAREN)%N) s) in *.
  destruct (skipn b s) as [|x r] eqn:E.
  - right. right. subst b. apply run_length_full in E.
    eapply Forall_impl; [|exact E]. cbv beta. intros c Hc Ec. subst c.
    rewrite N.eqb_refl in Hc. discriminate.
  - destruct b as [|b'] eqn:Eb.
    + destruct s as [|d s']; [left; reflexivity|].
      right. left. exists s'. subst b. cbn [run_length] in Eb.
      destruct (d =? Gemini.RPAREN)%N eqn:Ed; [|discriminate].
      apply N.eqb_eq in Ed. congruence.
    + exfalso. cbn [Nat.leb] in H. apply (H (0 + 1 + S b' + 0)).
      f_equal. lia.
Qed.

(** Dropping parentheticals leaves none behind. *)
Lemma drop_paren_free (s : str) : paren_free (re_sub Gemini.parenthetical [] s).
Proof.
  induction s as [s IH] using str_length_ind.
  destruct s as [|c s]; [exact I|].
  rewrite re_sub_cons.
  destruct (Gemini.parenthetical (c :: s)) as [[|n]|] eqn:P.
  - split; [|apply IH; simpl; lia].
    intros ->. assert (U : unclosed s).
    { apply no_match_unclosed. intros k. rewrite P. discriminate. }
    destruct U as [->|[[t ->]|U]].
    + left. reflexivity.
    + right. left. exists (re_sub Gemini.parenthetical [] t).
      rewrite re_sub_cons, parenthetical_rparen. reflexivity.
    + right. right. apply re_sub_Forall; [constructor | exact U].
  - cbn [app]. apply IH. simpl. rewrite length_skipn. lia.
  - split; [|apply IH; simpl; lia].
    intros ->. assert (U : unclosed s).
    { apply no_match_unclosed. intros k. rewrite P. discriminate. }
    destruct U as [->|[[t ->]|U]].
    + left. reflexivity.
    + right. left. exists (re_sub Gemini.parenthetical [] t).
      rewrite re_sub_cons, parenthetical_rparen. reflexivity.
    + right. right. apply re_sub_Forall; [constructor | exact U].
Qed.

(** Collapsing wide white space brings no parenthetical back. *)
Lemma collapse_paren_free (s : str) :
  paren_free s -> paren_free (re_sub Gemini.wide_space [SPACE] s).
Proof.
  induction s as [s IH] using str_length_ind. intros H.
  destruct s as [|c s]; [exact I|].
  rewrite re_sub_cons.
  destruct (Gemini.wide_space (c :: s)) as [[|n]|] eqn:W.
  - apply wide_space_Some in W. lia.
  - cbn [app]. split; [intros E; vm_compute in E; discriminate|].
    apply IH; [simpl; rewrite length_skipn; lia|].
    destruct H as [_ H]. rewrite <- (firstn_skipn n s) in H.
    apply paren_free_suffix in H. exact H.
  - destruct H as [H1 H2]. split; [|apply IH; [simpl; lia | exact H2]].
    intros E. destruct (H1 E) as [->|[[t ->]|U]].
    + left. reflexivity.
    + right. left. exists (re_sub Gemini.wide_space [SPACE] t).
      rewrite re_sub_cons, (@wide_space_ink _ t RPAREN_ink). reflexivity.
    + right. right. apply re_sub_Forall; [|exact U].
      constructor; [|constructor].
      intros E'. vm_compute in E'. discriminate.
Qed.

(** In a parenthetical-free text the parenthetical pattern matches nowhere. *)
Lemma paren_free_no_match s :
  paren_free s -> forall p q, s = p ++ q -> Gemini.parenthetical q = None.
Proof.
  intros H p q E. rewrite E in H. apply paren_free_suffix in H.
  unfold Gemini.parenthetical.
  rewrite <- (firstn_skipn (run_length isspace q) q) in H.
  apply paren_free_suffix in H.
  destruct (skipn (run_length isspace q) q) as [|c r]; [reflexivity|].
  destruct (c =? Gemini.LPAREN)%N eqn:Ec; [|reflexivity].
  apply N.eqb_eq in Ec. destruct H as [H _].
  destruct (H Ec) as [->|[[t ->]|U]].
  - reflexivity.
  - cbn [run_length]. rewrite N.eqb_refl. reflexivity.
  - rewrite run_length_all.
    + rewrite skipn_all. reflexivity.
    + eapply Forall_impl; [|exact U]. cbv beta. intros a Ha.
      apply negb_true_iff, N.eqb_neq. exact Ha.
Qed.

Lemma clean_title_facts s :
  strip (Gemini._clean_title s) = Gemini._clean_title s
  /\ single_spaced (Gemini._clean_title s) = true
  /\ paren_free (Gemini._clean_title s).
Proof.
  unfold Gemini._clean_title. cbv zeta. rewrite lit_sp.
  split; [apply strip_idempotent|]. split.
  - apply single_spaced_strip, collapse_single_spaced.
  - apply paren_free_strip, collapse_paren_free, drop_paren_free.
Qed.

(** X13: a cleaned title is trimmed, has no two white-space characters
    side by side, and the parenthetical pattern matches nowhere in it. *)
Theorem clean_title_shape s :
  let t := Gemini._clean_title s in
  strip t = t
  /\ single_spaced t = true
  /\ (forall p q, t = p ++ q -> Gemini.parenthetical q = None).
Proof.
  cbv zeta. destruct (clean_title_facts s) as (H1 & H2 & H3).
  split; [exact H1|]. split; [exact H2|].
  apply paren_free_no_match, H3.
Qed.

(** X14: cleaning a cleaned title changes nothing. *)
Theorem clean_title_idempotent s :
  Gemini._clean_title (Gemini._clean_title s) = Gemini._clean_title s.
Proof.
  destruct (clean_title_facts s) as (H1 & H2 & H3).
  set (t := Gemini._clean_title s) in *.
  unfold Gemini._clean_title at 1. cbv zeta.
  rewrite (@re_sub_no_match _ [] t (@paren_free_no_match t H3)).
  rewrite (@re_sub_no_match _ (lit " ") t (@single_spaced_no_wide t H2)).
  exact H1.
Qed.

(** A closing parenthesis can stay behind: the pattern stops at the first
    one. *)
Example clean_title_nested :
  Gemini._clean_title (lit "Chipmaker (NVDA (NASDAQ)) rallies")
  = lit "Chipmaker) rallies".
Proof. vm_compute. reflexivity. Qed.

(** A line break inside a title is kept. *)
Example clean_title_keeps_line_break :
  Gemini._clean_title (lit "a\nb") = lit "a\nb".
Proof. vm_compute. reflexivity. Qed.

(** * The exchange tool *)

Lemma split_from_ink w : forall cur rest,
  forallb ink w = true ->
  split_from cur (w ++ rest) = split_from (rev w ++ cur) rest.
Proof.
  induction w as [|c w IH]; intros cur rest H; [reflexivity|].
  cbn [forallb] in H. apply andb_true_iff in H. destruct H as [Hc Hw].
  cbn [app split_from]. unfold ink in Hc. apply negb_true_iff in Hc.
  rewrite Hc, (IH _ _ Hw). cbn [rev]. rewrite <- app_assoc. reflexivity.
Qed.

Lemma split_from_space sp : forall rest,
  forallb isspace sp = true ->
  split_from [] (sp ++ rest) = split_from [] rest.
Proof.
  induction sp as [|c sp IH]; intros rest H; [reflexivity|].
  cbn [forallb] in H. apply andb_true_iff in H. destruct H as [Hc Hs].
  cbn [app split_from]. rewrite Hc. apply IH, Hs.
Qed.

Lemma split_from_end_word cur sp rest :
  cur <> [] -> sp <> [] -> forallb isspace sp = true ->
  split_from cur (sp ++ rest) = rev cur :: split_from [] rest.
Proof.
  intros Hc Hn H. destruct sp as [|c sp]; [congruence|].
  cbn [forallb] in H. apply andb_true_iff in H. destruct H as [H1 H2].
  cbn [app split_from]. rewrite H1.
  destruct cur; [congruence|]. rewrite (split_from_space _ _ H2). reflexivity.
Qed.

(** [split] of two words with white space between them. *)
Lemma split_two_words b sep q :
  word b -> word q -> sep <> [] -> forallb isspace sep = true ->
  split (b ++ sep ++ q) = [b; q].
Proof.
  intros [Hb1 Hb2] [Hq1 Hq2] Hs1 Hs2. unfold split.
  rewrite (split_from_ink _ _ _ Hb2), app_nil_r.
  rewrite split_from_end_word; [|intros E; apply Hb1; destruct b; [reflexivity|];
    apply (f_equal (@length char)) in E; simpl in E; rewrite length_app in E;
    simpl in E; lia | exact Hs1 | exact Hs2].
  rewrite rev_involutive. f_equal.
  pose proof (split_from_ink q [] [] Hq2) as K. rewrite !app_nil_r in K.
  rewrite K. cbn [split_from]. destruct (rev q) eqn:E.
  - exfalso. apply Hq1. apply (f_equal (@rev char)) in E.
    rewrite rev_involutive in E. exact E.
  - rewrite <- E, rev_involutive. reflexivity.
Qed.

(** What [split] returns are words. *)
Lemma split_from_words s : forall cur,
  forallb ink cur = true ->
  Forall word (split_from cur s).
Proof.
  assert (R : forall cur : str, cur <> [] -> forallb ink cur = true -> word (rev cur)).
  { intros cur Hn H. split.
    - intros E. apply Hn. apply (f_equal (@rev char)) in E.
      rewrite rev_involutive in E. exact E.
    - rewrite forallb_forall in *. intros x Hx. apply H, in_rev, Hx. }
  induction s as [|c s IH]; intros cur H.
  - cbn [split_from]. destruct cur as [|a cur]; [constructor|].
    constructor; [|constructor]. apply R; [discriminate | exact H].
  - cbn [split_from]. destruct (isspace c) eqn:Hc.
    + destruct cur as [|a cur]; [apply IH; reflexivity|].
      constructor; [apply R; [discriminate | exact H] | apply IH; reflexivity].
    + apply IH. cbn [forallb]. unfold ink at 1. rewrite Hc, H. reflexivity.
Qed.

Section Converter.
Variable toupper_full : char -> str.

Local Abbreviation upper := (Exchange.upper toupper_full).
Local Abbreviation converter := (Exchange.ExchangeRateConverter toupper_full).

(** X15: whatever the input and the case mapping, the tool answers
    "Invalid pair." or one line "1 B = 0.93 Q" in which B and Q are words:
    not empty and free of white space. *)
Theorem converter_outcomes pair :
  converter pair = lit "Invalid pair."
  \/ exists b q, word b /\ word q
       /\ split (upper (strip pair)) = [b; q]
       /\ converter pair = lit "1 " ++ b ++ lit " = 0.93 " ++ q.
Proof.
  unfold Exchange.ExchangeRateConverter. cbv zeta.
  pose proof (@split_from_words (upper (strip pair)) [] eq_refl) as W.
  fold (split (upper (strip pair))) in W.
  destruct (split (upper (strip pair))) as [|b [|q [|x r]]];
    try (left; reflexivity).
  right. exists b, q. inversion W as [|? ? Wb W']; subst.
  inversion W' as [|? ? Wq _]; subst. auto.
Qed.

(** The case mapping of the interpreter keeps words and white space apart:
    a character has at least one upper-case character, those of white
    space are white space, those of ink are ink. *)
Hypothesis toupper_nonempty : forall c, toupper_full c <> [].
Hypothesis toupper_space :
  forall c, isspace c = true -> forallb isspace (toupper_full c) = true.
Hypothesis toupper_ink :
  forall c, isspace c = false -> forallb ink (toupper_full c) = true.

Lemma upper_app a b : upper (a ++ b) = upper a ++ upper b.
Proof. apply flat_map_app. Qed.

Lemma upper_nonempty s : s <> [] -> upper s <> [].
Proof.
  destruct s as [|c s]; [congruence|]. intros _ E.
  unfold Exchange.upper in E. cbn [flat_map] in E.
  apply app_eq_nil in E. destruct E as [E _]. apply (@toupper_nonempty c E).
Qed.

Lemma upper_word w : word w -> word (upper w).
Proof.
  intros [H1 H2]. split; [apply upper_nonempty, H1|].
  clear H1. induction w as [|c w IH]; [reflexivity|].
  cbn [forallb] in H2. apply andb_true_iff in H2. destruct H2 as [Hc Hw].
  unfold Exchange.upper. cbn [flat_map]. rewrite forallb_app.
  unfold ink in Hc. apply negb_true_iff in Hc.
  rewrite (toupper_ink _ Hc). exact (IH Hw).
Qed.

Lemma upper_space s : forallb isspace s = true -> forallb isspace (upper s) = true.
Proof.
  induction s as [|c s IH]; intros H; [reflexivity|].
  cbn [forallb] in H. apply andb_true_iff in H. destruct H as [Hc Hs].
  unfold Exchange.upper. cbn [flat_map]. rewrite forallb_app.
  rewrite (toupper_space _ Hc). exact (IH Hs).
Qed.

Lemma strip_two_words b sep q :
  word b -> word q -> strip (b ++ sep ++ q) = b ++ sep ++ q.
Proof.
  intros [Hb1 Hb2] [Hq1 Hq2]. apply strip_fixed.
  - destruct b as [|c b]; [congruence|]. cbn [app head_ok].
    cbn [forallb] in Hb2. apply andb_true_iff in Hb2. destruct Hb2 as [Hc _].
    unfold ink in Hc. apply negb_true_iff in Hc. exact Hc.
  - rewrite app_assoc. apply last_ok_app; [exact Hq1|].
    unfold last_ok. destruct (rev q) as [|c r] eqn:E; [exact I|].
    cbn [head_ok]. rewrite forallb_forall in Hq2.
    assert (Hin : In c q) by (apply in_rev; rewrite E; left; reflexivity).
    specialize (Hq2 _ Hin). unfold ink in Hq2. apply negb_true_iff in Hq2.
    exact Hq2.
Qed.

(** X16: two words with white space between them, whatever white space
    surrounds them, give the rate line for the two words in upper case. *)
Theorem converter_two_words pad1 b sep q pad2 :
  word b -> word q ->
  sep <> [] -> forallb isspace sep = true ->
  forallb isspace pad1 = true -> forallb isspace pad2 = true ->
  converter (pad1 ++ (b ++ sep ++ q) ++ pad2)
  = lit "1 " ++ upper b ++ lit " = 0.93 " ++ upper q.
Proof.
  intros Hb Hq Hs1 Hs2 Hp1 Hp2.
  unfold Exchange.ExchangeRateConverter. cbv zeta.
  apply forallb_isspace_ink in Hp1. apply forallb_isspace_ink in Hp2.
  rewrite (strip_padded _ _ _ Hp1 Hp2), (strip_two_words sep Hb Hq).
  rewrite !upper_app.
  rewrite (split_two_words (upper_word Hb) (upper_word Hq)
             (upper_nonempty Hs1) (upper_space _ Hs2)).
  reflexivity.
Qed.

End Converter.

(** The ASCII case mapping keeps words and white space apart. *)
Lemma ascii_toupper_nonempty c : Exchange.ascii_toupper c <> [].
Proof.
  unfold Exchange.ascii_toupper.
  destruct ((97 <=? c) && (c <=? 122))%N; discriminate.
Qed.

Lemma ascii_letter_ink c : (65 <= c <= 122)%N -> isspace c = false.
Proof.
  intros H. apply not_true_is_false. unfold isspace.
  rewrite ?orb_true_iff, ?andb_true_iff, ?N.leb_le, ?N.eqb_eq. lia.
Qed.

Lemma ascii_toupper_space c :
  isspace c = true -> forallb isspace (Exchange.ascii_toupper c) = true.
Proof.
  intros H. unfold Exchange.ascii_toupper.
  destruct ((97 <=? c) && (c <=? 122))%N eqn:E.
  - apply andb_true_iff in E. rewrite !N.leb_le in E.
    rewrite ascii_letter_ink in H by lia. discriminate.
  - cbn [forallb]. rewrite H. reflexivity.
Qed.

Lemma ascii_toupper_ink c :
  isspace c = false -> forallb ink (Exchange.ascii_toupper c) = true.
Proof.
  intros H. unfold Exchange.ascii_toupper.
  destruct ((97 <=? c) && (c <=? 122))%N eqn:E.
  - apply andb_true_iff in E. rewrite !N.leb_le in E.
    cbn [forallb]. unfold ink. rewrite ascii_letter_ink by lia. reflexivity.
  - cbn [forallb]. unfold ink. rewrite H. reflexivity.
Qed.

Lemma converter_two_words_witness :
  Exchange.ExchangeRateConverter Exchange.ascii_toupper
    (lit " " ++ (lit "usd" ++ lit "  " ++ lit "eur") ++ lit "\n")
  = lit "1 " ++ Exchange.upper Exchange.ascii_toupper (lit "usd")
    ++ lit " = 0.93 " ++ Exchange.upper Exchange.ascii_toupper (lit "eur").
Proof.
  apply (@converter_two_words Exchange.ascii_toupper ascii_toupper_nonempty
           ascii_toupper_space ascii_toupper_ink).
  - split; [vm_compute; discriminate | vm_compute; reflexivity].
  - split; [vm_compute; discriminate | vm_compute; reflexivity].
  - vm_compute. discriminate.
  - vm_compute. reflexivity.
  - vm_compute. reflexivity.
  - vm_compute. reflexivity.
Defined.

Example converter_usd_eur :
  Exchange.ExchangeRateConverter Exchange.ascii_toupper (lit " usd  eur\n")
  = lit "1 USD = 0.93 EUR".
Proof. vm_compute. reflexivity. Qed.

Example converter_three_words :
  Exchange.ExchangeRateConverter Exchange.ascii_toupper (lit "usd to eur")
  = lit "Invalid pair.".
Proof. vm_compute. reflexivity. Qed.

(** * Colour codes in the output of an agent *)

Lemma run_length_stop f a c r :
  forallb f a = true -> f c = false -> run_length f (a ++ c :: r) = length a.
Proof.
  intros Ha Hc. induction a as [|x a IH].
  - cbn [app run_length]. rewrite Hc. reflexivity.
  - cbn [forallb] in Ha. apply andb_true_iff in Ha. destruct Ha as [Hx Ha].
    cbn [app run_length length]. rewrite Hx, (IH Ha). reflexivity.
Qed.

Lemma ANSI_code params r :
  forallb Gradio.sgr_param params = true ->
  Gradio.ANSI (render_piece (Code params) ++ r) = Some (S (S (length params + 1))).
Proof.
  intros H. cbn [render_piece app]. unfold Gradio.ANSI.
  rewrite !N.eqb_refl. cbn [andb]. cbv zeta.
  rewrite <- app_assoc. cbn [app].
  rewrite (@run_length_stop Gradio.sgr_param params 109%N r H) by reflexivity.
  rewrite skipn_app, skipn_all, Nat.sub_diag. cbn [app skipn].
  rewrite N.eqb_refl. f_equal.
Qed.

Lemma ANSI_no_escape c r : c <> Gradio.ESC -> Gradio.ANSI (c :: r) = None.
Proof.
  intros H. unfold Gradio.ANSI. destruct r as [|b r]; [reflexivity|].
  apply N.eqb_neq in H. rewrite H. reflexivity.
Qed.

Lemma sub_text t r :
  Forall (fun c => c <> Gradio.ESC) t ->
  re_sub Gradio.ANSI [] (t ++ r) = t ++ re_sub Gradio.ANSI [] r.
Proof.
  induction 1 as [|c t Hc _ IH]; [reflexivity|].
  cbn [app]. rewrite re_sub_cons, (@ANSI_no_escape c (t ++ r) Hc), IH. reflexivity.
Qed.

Lemma sub_code params r :
  forallb Gradio.sgr_param params = true ->
  re_sub Gradio.ANSI [] (render_piece (Code params) ++ r)
  = re_sub Gradio.ANSI [] r.
Proof.
  intros H. pose proof (@ANSI_code params r H) as A.
  cbn [render_piece app] in *. rewrite re_sub_cons, A. cbn [app skipn].
  rewrite <- app_assoc. cbn [app].
  replace (length params + 1) with (length (params ++ [109%N]))
    by (rewrite length_app; reflexivity).
  change (params ++ 109%N :: r) with (params ++ [109%N] ++ r).
  rewrite app_assoc, skipn_app, skipn_all, Nat.sub_diag. reflexivity.
Qed.

Lemma sub_render ps :
  Forall piece_ok ps -> re_sub Gradio.ANSI [] (render ps) = plain ps.
Proof.
  induction 1 as [|p ps Hp _ IH]; [reflexivity|].
  unfold render, plain in *. cbn [flat_map].
  destruct p as [t|params]; cbn [piece_ok] in Hp.
  - cbn [render_piece]. rewrite (@sub_text t _ Hp), IH. reflexivity.
  - rewrite (@sub_code params _ Hp), IH. reflexivity.
Qed.

(** X17: when the trimmed output is a text with colour codes laid over it,
    [_clean] returns the text without the codes. *)
Theorem clean_removes_codes s ps :
  strip s = render ps -> Forall piece_ok ps ->
  Gradio._clean s = plain ps.
Proof.
  intros E H. unfold Gradio._clean. rewrite E. apply sub_render, H.
Qed.

Lemma clean_removes_codes_witness :
  Gradio._clean ([32; 27; 91; 49; 59; 51; 50; 109; 111; 107;
                  27; 91; 48; 109; 10]%N)
  = plain [Code [49; 59; 51; 50]%N; Text [111; 107]%N; Code [48]%N].
Proof.
  apply clean_removes_codes.
  - vm_compute. reflexivity.
  - repeat constructor; vm_compute; discriminate.
Defined.

(** White space inside the colour codes is out of reach of the trimming. *)
Example clean_keeps_coloured_space :
  Gradio._clean ([27; 91; 49; 109; 32; 111; 107; 32; 27; 91; 48; 109]%N)
  = [32; 111; 107; 32]%N.
Proof. vm_compute. reflexivity. Qed.

(** Removing a code can bring the pieces of another one together. *)
Example clean_leaves_code :
  Gradio._clean ([27; 91; 27; 91; 48; 109; 48; 109]%N)
  = [27; 91; 48; 109]%N.
Proof. vm_compute. reflexivity. Qed.
